(** * The Urho3D work queue (Source/Urho3D/Core/WorkQueue.cpp)

    A shallow embedding of [WorkQueue]: the pooled work items, the priority
    queue, the worker loop [ProcessItems], the pause gate built on
    [queueMutex_], the completion barrier [Complete] and the per-frame hook
    [HandleBeginFrame].

    Work items are heap objects shared between the submitter, the queue, the
    live list and the pool, so the embedding keeps one store [heap] from
    addresses to items, and the three containers hold addresses. Calling an
    item's [workFunction_] and sending [E_WORKITEMCOMPLETED] are recorded in
    two logs, [executed] and [events]. The build modelled is the one with
    URHO3D_THREADING defined and assertions enabled. *)

From stdpp Require Import base option list gmap fin_sets sorting.
From Stdlib Require Import ZArith Lia.

Set Default Proof Using "Type".
Local Open Scope Z_scope.

(** ** Work items *)

(** [M_MAX_UNSIGNED] is declared in Math/MathDefs.h, which is not among the
    sources. It is the largest [unsigned] value, and the sources that use it
    rely on that: Console.cpp decrements an unsigned index until it wraps
    around to [M_MAX_UNSIGNED], and OGLGraphicsImpl.h passes it as the all-ones
    stencil mask. *)
Definition M_MAX_UNSIGNED : Z := 4294967295.

(** Modelled from the spec: [struct WorkItem] is declared in Core/WorkQueue.h,
    which is not among the sources. The fields are the ones WorkQueue.cpp reads
    and writes: the entry point, the three context pointers, the priority
    (unsigned, higher is served first), and the flags. Pointers are [option]:
    [None] is [nullptr]. *)
Record WorkItem := mkWorkItem {
  workFunction_ : option nat;
  start_ : option nat;
  end_ : option nat;
  aux_ : option nat;
  priority_ : Z;
  sendEvent_ : bool;
  completed_ : bool;
  pooled_ : bool
}.

(** The values [ReturnToPool] writes into an item ("Reset the values to their
    defaults"); [pooled_] is not touched. *)
Definition WorkItem_reset (w : WorkItem) : WorkItem :=
  {| workFunction_ := None; start_ := None; end_ := None; aux_ := None;
     priority_ := M_MAX_UNSIGNED; sendEvent_ := false; completed_ := false;
     pooled_ := pooled_ w |}.

(** Modelled from the spec: the default constructor of [WorkItem] (in
    Core/WorkQueue.h, not among the sources): the defaults are the values
    [ReturnToPool] resets an item to, and a new item is not pooled. *)
Definition WorkItem_new : WorkItem :=
  {| workFunction_ := None; start_ := None; end_ := None; aux_ := None;
     priority_ := M_MAX_UNSIGNED; sendEvent_ := false; completed_ := false;
     pooled_ := false |}.

Definition WorkItem_set_completed (b : bool) (w : WorkItem) : WorkItem :=
  {| workFunction_ := workFunction_ w; start_ := start_ w; end_ := end_ w;
     aux_ := aux_ w; priority_ := priority_ w; sendEvent_ := sendEvent_ w;
     completed_ := b; pooled_ := pooled_ w |}.

Definition WorkItem_set_pooled (b : bool) (w : WorkItem) : WorkItem :=
  {| workFunction_ := workFunction_ w; start_ := start_ w; end_ := end_ w;
     aux_ := aux_ w; priority_ := priority_ w; sendEvent_ := sendEvent_ w;
     completed_ := completed_ w; pooled_ := b |}.

#[global] Instance WorkItem_inhabited : Inhabited WorkItem := populate WorkItem_new.

(** An item is in the state [ReturnToPool] leaves it in. *)
Definition is_reset (w : WorkItem) : Prop :=
  workFunction_ w = None ∧ start_ w = None ∧ end_ w = None ∧ aux_ w = None ∧
  priority_ w = M_MAX_UNSIGNED ∧ sendEvent_ w = false ∧ completed_ w = false.

(** ** Threads *)

(** Who holds [queueMutex_]. *)
Inductive thread_id :=
| MainThread
| WorkerId (index : nat).

#[global] Instance thread_id_eq_dec : EqDecision thread_id.
Proof. solve_decision. Defined.

(** Where a worker stands in the loop of [ProcessItems]. *)
Inductive wpc :=
| WIdle                 (* at the head of the for(;;) loop *)
| WLocked               (* after queueMutex_.lock() *)
| WRun (item : nat)     (* item popped, mutex released, workFunction_ not yet called *)
| WMark (item : nat)    (* workFunction_ returned, completed_ not yet set *)
| WStopped.             (* returned from ProcessItems *)

#[global] Instance wpc_eq_dec : EqDecision wpc.
Proof. solve_decision. Defined.

(** A [WorkerThread] running [ProcessItems(index_)]; [wasActive] is the local
    variable of [ProcessItems]. *)
Record WorkerThread := mkWorkerThread {
  index_ : nat;
  wasActive : bool;
  pc : wpc
}.

(** ** The work queue *)

Record WorkQueue := mkWorkQueue {
  heap : gmap nat WorkItem;
  threads : list WorkerThread;
  poolItems_ : list nat;
  workItems_ : list nat;
  queue_ : list nat;
  queueMutex_ : option thread_id;
  shutDown_ : bool;
  pausing_ : bool;
  paused_ : bool;
  completing_ : bool;
  tolerance_ : Z;
  lastSize_ : Z;
  maxNonThreadedWorkMs_ : Z;
  executed : list (nat * nat);
  events : list nat;
  errors : nat
}.

Definition set_heap (v : gmap nat WorkItem) (s : WorkQueue) : WorkQueue :=
  mkWorkQueue v (threads s) (poolItems_ s) (workItems_ s) (queue_ s)
    (queueMutex_ s) (shutDown_ s) (pausing_ s) (paused_ s) (completing_ s)
    (tolerance_ s) (lastSize_ s) (maxNonThreadedWorkMs_ s) (executed s)
    (events s) (errors s).

Definition set_threads (v : list WorkerThread) (s : WorkQueue) : WorkQueue :=
  mkWorkQueue (heap s) v (poolItems_ s) (workItems_ s) (queue_ s)
    (queueMutex_ s) (shutDown_ s) (pausing_ s) (paused_ s) (completing_ s)
    (tolerance_ s) (lastSize_ s) (maxNonThreadedWorkMs_ s) (executed s)
    (events s) (errors s).

Definition set_poolItems (v : list nat) (s : WorkQueue) : WorkQueue :=
  mkWorkQueue (heap s) (threads s) v (workItems_ s) (queue_ s)
    (queueMutex_ s) (shutDown_ s) (pausing_ s) (paused_ s) (completing_ s)
    (tolerance_ s) (lastSize_ s) (maxNonThreadedWorkMs_ s) (executed s)
    (events s) (errors s).

Definition set_workItems (v : list nat) (s : WorkQueue) : WorkQueue :=
  mkWorkQueue (heap s) (threads s) (poolItems_ s) v (queue_ s)
    (queueMutex_ s) (shutDown_ s) (pausing_ s) (paused_ s) (completing_ s)
    (tolerance_ s) (lastSize_ s) (maxNonThreadedWorkMs_ s) (executed s)
    (events s) (errors s).

Definition set_queue (v : list nat) (s : WorkQueue) : WorkQueue :=
  mkWorkQueue (heap s) (threads s) (poolItems_ s) (workItems_ s) v
    (queueMutex_ s) (shutDown_ s) (pausing_ s) (paused_ s) (completing_ s)
    (tolerance_ s) (lastSize_ s) (maxNonThreadedWorkMs_ s) (executed s)
    (events s) (errors s).

Definition set_queueMutex (v : option thread_id) (s : WorkQueue) : WorkQueue :=
  mkWorkQueue (heap s) (threads s) (poolItems_ s) (workItems_ s) (queue_ s)
    v (shutDown_ s) (pausing_ s) (paused_ s) (completing_ s)
    (tolerance_ s) (lastSize_ s) (maxNonThreadedWorkMs_ s) (executed s)
    (events s) (errors s).

Definition set_shutDown (v : bool) (s : WorkQueue) : WorkQueue :=
  mkWorkQueue (heap s) (threads s) (poolItems_ s) (workItems_ s) (queue_ s)
    (queueMutex_ s) v (pausing_ s) (paused_ s) (completing_ s)
    (tolerance_ s) (lastSize_ s) (maxNonThreadedWorkMs_ s) (executed s)
    (events s) (errors s).

Definition set_pausing (v : bool) (s : WorkQueue) : WorkQueue :=
  mkWorkQueue (heap s) (threads s) (poolItems_ s) (workItems_ s) (queue_ s)
    (queueMutex_ s) (shutDown_ s) v (paused_ s) (completing_ s)
    (tolerance_ s) (lastSize_ s) (maxNonThreadedWorkMs_ s) (executed s)
    (events s) (errors s).

Definition set_paused (v : bool) (s : WorkQueue) : WorkQueue :=
  mkWorkQueue (heap s) (threads s) (poolItems_ s) (workItems_ s) (queue_ s)
    (queueMutex_ s) (shutDown_ s) (pausing_ s) v (completing_ s)
    (tolerance_ s) (lastSize_ s) (maxNonThreadedWorkMs_ s) (executed s)
    (events s) (errors s).

Definition set_completing (v : bool) (s : WorkQueue) : WorkQueue :=
  mkWorkQueue (heap s) (threads s) (poolItems_ s) (workItems_ s) (queue_ s)
    (queueMutex_ s) (shutDown_ s) (pausing_ s) (paused_ s) v
    (tolerance_ s) (lastSize_ s) (maxNonThreadedWorkMs_ s) (executed s)
    (events s) (errors s).

Definition set_lastSize (v : Z) (s : WorkQueue) : WorkQueue :=
  mkWorkQueue (heap s) (threads s) (poolItems_ s) (workItems_ s) (queue_ s)
    (queueMutex_ s) (shutDown_ s) (pausing_ s) (paused_ s) (completing_ s)
    (tolerance_ s) v (maxNonThreadedWorkMs_ s) (executed s)
    (events s) (errors s).

Definition set_executed (v : list (nat * nat)) (s : WorkQueue) : WorkQueue :=
  mkWorkQueue (heap s) (threads s) (poolItems_ s) (workItems_ s) (queue_ s)
    (queueMutex_ s) (shutDown_ s) (pausing_ s) (paused_ s) (completing_ s)
    (tolerance_ s) (lastSize_ s) (maxNonThreadedWorkMs_ s) v
    (events s) (errors s).

Definition set_events (v : list nat) (s : WorkQueue) : WorkQueue :=
  mkWorkQueue (heap s) (threads s) (poolItems_ s) (workItems_ s) (queue_ s)
    (queueMutex_ s) (shutDown_ s) (pausing_ s) (paused_ s) (completing_ s)
    (tolerance_ s) (lastSize_ s) (maxNonThreadedWorkMs_ s) (executed s)
    v (errors s).

Definition set_errors (v : nat) (s : WorkQueue) : WorkQueue :=
  mkWorkQueue (heap s) (threads s) (poolItems_ s) (workItems_ s) (queue_ s)
    (queueMutex_ s) (shutDown_ s) (pausing_ s) (paused_ s) (completing_ s)
    (tolerance_ s) (lastSize_ s) (maxNonThreadedWorkMs_ s) (executed s)
    (events s) v.

(** [WorkQueue::WorkQueue]: the state after construction, over a store [h] of
    the work items the application has allocated. *)
Definition WorkQueue_new (h : gmap nat WorkItem) : WorkQueue :=
  {| heap := h; threads := []; poolItems_ := []; workItems_ := []; queue_ := [];
     queueMutex_ := None; shutDown_ := false; pausing_ := false;
     paused_ := false; completing_ := false; tolerance_ := 10; lastSize_ := 0;
     maxNonThreadedWorkMs_ := 5; executed := []; events := []; errors := 0%nat |}.

(** Field access through a pointer: [item->f] is [f (deref s item)]. *)
Definition deref (s : WorkQueue) (item : nat) : WorkItem := heap s !!! item.

Definition priority (s : WorkQueue) (item : nat) : Z := priority_ (deref s item).
Definition completed (s : WorkQueue) (item : nat) : bool := completed_ (deref s item).

(** [item->completed_ = b]. *)
Definition write_completed (item : nat) (b : bool) (s : WorkQueue) : WorkQueue :=
  set_heap (<[item := WorkItem_set_completed b (deref s item)]> (heap s)) s.

(** The outcome of a call: it returns, it waits for [queueMutex_] (or spins)
    and no other thread is there to let it through, or an assertion fails. *)
Inductive res (A : Type) :=
| Ret (a : A)
| Blocked
| AssertFail.
Arguments Ret {A} a.
Arguments Blocked {A}.
Arguments AssertFail {A}.

Definition res_bind {A B} (r : res A) (k : A → res B) : res B :=
  match r with
  | Ret a => k a
  | Blocked => Blocked
  | AssertFail => AssertFail
  end.

(** [queueMutex_.lock()] by thread [t]: [std::mutex] is not recursive. *)
Definition lock (t : thread_id) (s : WorkQueue) : res WorkQueue :=
  match queueMutex_ s with
  | None => Ret (set_queueMutex (Some t) s)
  | Some _ => Blocked
  end.

Definition unlock (s : WorkQueue) : WorkQueue := set_queueMutex None s.

(** ** The pool *)

(** [WorkQueue::ReturnToPool]. *)
Definition ReturnToPool (item : nat) (s : WorkQueue) : WorkQueue :=
  if pooled_ (deref s item) then
    set_poolItems (poolItems_ s ++ [item])
      (set_heap (<[item := WorkItem_reset (deref s item)]> (heap s)) s)
  else s.

(** [WorkQueue::GetFreeItem]; [new WorkItem()] takes an address that is not in
    use. *)
Definition GetFreeItem (s : WorkQueue) : nat * WorkQueue :=
  match poolItems_ s with
  | item :: rest => (item, set_poolItems rest s)
  | [] =>
      let item := fresh (dom (heap s)) in
      (item, set_heap (<[item := WorkItem_set_pooled true WorkItem_new]> (heap s)) s)
  end.

(** The loop of [WorkQueue::PurgePool]. [i] is [unsigned], [difference] and
    [tolerance] are [int]. *)
Definition to_unsigned (z : Z) : Z := z mod 2 ^ 32.
Definition to_int (z : Z) : Z := (z + 2 ^ 31) mod 2 ^ 32 - 2 ^ 31.
Definition to_size_t (z : Z) : Z := z mod 2 ^ 64.

Fixpoint PurgePool_loop (difference tolerance i : Z) (pool : list nat) : list nat :=
  match pool with
  | [] => []
  | _ :: rest =>
      if (tolerance <? difference) && (i <? to_unsigned difference)
      then PurgePool_loop difference tolerance (to_unsigned (i + 1)) rest
      else pool
  end.

(** [WorkQueue::PurgePool]. [lastSize_ - currentSize] is computed in [size_t]
    and converted to [int]. *)
Definition PurgePool (s : WorkQueue) : WorkQueue :=
  let currentSize := Z.of_nat (length (poolItems_ s)) in
  let difference := to_int (to_size_t (lastSize_ s - currentSize)) in
  set_lastSize (to_int currentSize)
    (set_poolItems (PurgePool_loop difference (tolerance_ s) 0 (poolItems_ s)) s).

(** ** Submission and removal *)

(** [threads.size()] used as a condition. *)
Definition has_threads (s : WorkQueue) : bool :=
  match threads s with [] => false | _ :: _ => true end.

(** "Find position for new item": an empty queue takes the item at the back;
    otherwise the item goes before the first entry [i] whose [priority_] is
    [<=] the item's, and to the back if there is none. *)
Fixpoint queue_insert (s : WorkQueue) (item : nat) (q : list nat) : list nat :=
  match q with
  | [] => [item]
  | i :: q' =>
      if priority s i <=? priority s item
      then item :: i :: q'
      else i :: queue_insert s item q'
  end.

(** [WorkQueue::AddWorkItem]. [None] is a null [SharedPtr]. *)
Definition AddWorkItem (item : option nat) (s : WorkQueue) : res WorkQueue :=
  match item with
  | None => Ret (set_errors (S (errors s)) s)
  | Some x =>
      if decide (x ∈ workItems_ s) then AssertFail
      else
        let s1 := write_completed x false (set_workItems (workItems_ s ++ [x]) s) in
        res_bind
          (if has_threads s1 && negb (paused_ s1) then lock MainThread s1 else Ret s1)
          (λ s2,
             let s3 := set_queue (queue_insert s2 x (queue_ s2)) s2 in
             Ret (if has_threads s3 then set_paused false (unlock s3) else s3))
  end.

(** [l.erase(find(l.begin(), l.end(), x))]: the first occurrence goes. *)
Fixpoint erase (x : nat) (l : list nat) : list nat :=
  match l with
  | [] => []
  | y :: l' => if decide (x = y) then l' else y :: erase x l'
  end.

(** [lock_guard<mutex> lock(queueMutex_)] around a function body. *)
Definition lock_guard {A} (body : WorkQueue → A * WorkQueue) (s : WorkQueue)
  : res (A * WorkQueue) :=
  res_bind (lock MainThread s)
    (λ s1, let '(a, s2) := body s1 in Ret (a, unlock s2)).

(** The two nested [find]s shared by [RemoveWorkItem] and [RemoveWorkItems]:
    the item leaves the queue, goes back to the pool and leaves the live list,
    if it is found in both. *)
Definition remove_found (x : nat) (s : WorkQueue) : bool * WorkQueue :=
  if decide (x ∈ queue_ s) then
    if decide (x ∈ workItems_ s) then
      (true,
       set_workItems (erase x (workItems_ s))
         (ReturnToPool x (set_queue (erase x (queue_ s)) s)))
    else (false, s)
  else (false, s).

(** [WorkQueue::RemoveWorkItem]. *)
Definition RemoveWorkItem (item : option nat) (s : WorkQueue) : res (bool * WorkQueue) :=
  match item with
  | None => Ret (false, s)
  | Some x => lock_guard (remove_found x) s
  end.

(** The loop of [WorkQueue::RemoveWorkItems]; [removed] is [unsigned]. *)
Fixpoint RemoveWorkItems_loop (items : list (option nat)) (removed : Z)
    (s : WorkQueue) : Z * WorkQueue :=
  match items with
  | [] => (removed, s)
  | None :: rest => RemoveWorkItems_loop rest removed s
  | Some x :: rest =>
      let '(b, s') := remove_found x s in
      RemoveWorkItems_loop rest (if b then to_unsigned (removed + 1) else removed) s'
  end.

(** [WorkQueue::RemoveWorkItems]. *)
Definition RemoveWorkItems (items : list (option nat)) (s : WorkQueue)
  : res (Z * WorkQueue) :=
  lock_guard (RemoveWorkItems_loop items 0) s.

(** ** Pause and resume *)

(** [WorkQueue::Pause] in two halves: raising [pausing_], and what follows once
    the mutex is obtained. *)
Definition Pause_request (s : WorkQueue) : WorkQueue := set_pausing true s.

Definition Pause_acquire (s : WorkQueue) : res WorkQueue :=
  res_bind (lock MainThread s) (λ s1, Ret (set_pausing false (set_paused true s1))).

Definition Pause (s : WorkQueue) : res WorkQueue :=
  if paused_ s then Ret s else Pause_acquire (Pause_request s).

(** [WorkQueue::Resume]. *)
Definition Resume (s : WorkQueue) : WorkQueue :=
  if paused_ s then set_paused false (unlock s) else s.

(** [WorkQueue::CreateThreads]: worker [i] gets index [i + 1] and starts at
    the head of [ProcessItems]. *)
Definition CreateThreads (numThreads : nat) (s : WorkQueue) : res WorkQueue :=
  if has_threads s then Ret s
  else
    res_bind (Pause s)
      (λ s1, Ret (set_threads
                    (map (λ i, mkWorkerThread (S i) false WIdle) (seq 0 numThreads)) s1)).

(** ** Running and purging items *)

(** [item->workFunction_(item, threadIndex)]: the call is logged. *)
Definition call_workFunction (item threadIndex : nat) (s : WorkQueue) : WorkQueue :=
  set_executed (executed s ++ [(item, threadIndex)]) s.

(** The two statements that follow every [pop_front]. *)
Definition run_item (item threadIndex : nat) (s : WorkQueue) : WorkQueue :=
  write_completed item true (call_workFunction item threadIndex s).

(** [WorkQueue::IsCompleted]. *)
Fixpoint IsCompleted_loop (priority0 : Z) (s : WorkQueue) (l : list nat) : bool :=
  match l with
  | [] => true
  | i :: l' =>
      if (priority0 <=? priority s i) && negb (completed s i) then false
      else IsCompleted_loop priority0 s l'
  end.

Definition IsCompleted (priority0 : Z) (s : WorkQueue) : bool :=
  IsCompleted_loop priority0 s (workItems_ s).

(** [SendEvent(E_WORKITEMCOMPLETED, eventData)] with [P_ITEM] the item. *)
Definition SendEvent (item : nat) (s : WorkQueue) : WorkQueue :=
  set_events (events s ++ [item]) s.

(** The loop of [WorkQueue::PurgeCompleted] over the live list [l]; it returns
    the entries that stay. *)
Fixpoint PurgeCompleted_loop (priority0 : Z) (l : list nat) (s : WorkQueue)
  : list nat * WorkQueue :=
  match l with
  | [] => ([], s)
  | i :: l' =>
      if completed s i && (priority0 <=? priority s i) then
        let s1 := if sendEvent_ (deref s i) then SendEvent i s else s in
        PurgeCompleted_loop priority0 l' (ReturnToPool i s1)
      else
        let '(kept, s') := PurgeCompleted_loop priority0 l' s in
        (i :: kept, s')
  end.

(** [WorkQueue::PurgeCompleted]. *)
Definition PurgeCompleted (priority0 : Z) (s : WorkQueue) : WorkQueue :=
  let '(kept, s') := PurgeCompleted_loop priority0 (workItems_ s) s in
  set_workItems kept s'.

(** The drain loop of [WorkQueue::Complete] when there are no worker threads;
    [q] is [queue_]. *)
Fixpoint Complete_loop (priority0 : Z) (q : list nat) (s : WorkQueue) : WorkQueue :=
  match q with
  | [] => s
  | item :: q' =>
      if priority0 <=? priority s item
      then Complete_loop priority0 q' (run_item item 0 (set_queue q' s))
      else s
  end.

(** The drain loop of [WorkQueue::Complete] when there are worker threads:
    every turn takes and releases [queueMutex_]. *)
Fixpoint Complete_loop_locked (priority0 : Z) (q : list nat) (s : WorkQueue)
  : res WorkQueue :=
  match q with
  | [] => Ret s
  | item :: q' =>
      res_bind (lock MainThread s)
        (λ s1,
           if priority0 <=? priority s1 item
           then Complete_loop_locked priority0 q'
                  (run_item item 0 (unlock (set_queue q' s1)))
           else Ret (unlock s1))
  end.

(** [WorkQueue::Complete], with the main thread running alone: in the branch
    with worker threads every [lock] must succeed at once and the busy-wait
    must find the work done, since no worker moves during the call. The
    interleaving with the workers is in [step] below. *)
Definition Complete (priority0 : Z) (s : WorkQueue) : res WorkQueue :=
  let s0 := set_completing true s in
  res_bind
    (if has_threads s0 then
       res_bind (Complete_loop_locked priority0 (queue_ (Resume s0)) (Resume s0))
         (λ s2,
            if IsCompleted priority0 s2 then
              match queue_ s2 with [] => Pause s2 | _ :: _ => Ret s2 end
            else Blocked)
     else Ret (Complete_loop priority0 (queue_ s0) s0))
    (λ s3, Ret (set_completing false (PurgeCompleted priority0 s3))).

(** The loop of [WorkQueue::HandleBeginFrame]. [usec k] is what the [k]-th call
    of [timer.GetUSec(false)] returns. *)
Fixpoint HandleBeginFrame_loop (usec : nat → Z) (k : nat) (q : list nat)
    (s : WorkQueue) : WorkQueue :=
  match q with
  | [] => s
  | item :: q' =>
      if usec k <? maxNonThreadedWorkMs_ s * 1000
      then HandleBeginFrame_loop usec (S k) q' (run_item item 0 (set_queue q' s))
      else s
  end.

(** The first statement of [HandleBeginFrame]: the work done on the calling
    thread when there are no worker threads. *)
Definition HandleBeginFrame_work (usec : nat → Z) (s : WorkQueue) : WorkQueue :=
  if has_threads s then s else HandleBeginFrame_loop usec 0 (queue_ s) s.

(** [WorkQueue::HandleBeginFrame]. *)
Definition HandleBeginFrame (usec : nat → Z) (s : WorkQueue) : WorkQueue :=
  PurgePool (PurgeCompleted 0 (HandleBeginFrame_work usec s)).

(** ** State predicates *)

(** The items of the queue come in non-increasing priority: every entry is at
    least as urgent as every entry behind it. *)
Definition queue_sorted (s : WorkQueue) : Prop :=
  StronglySorted (λ a b, priority s b ≤ priority s a) (queue_ s).

(** Every queued item is in the live list. *)
Definition queue_live (s : WorkQueue) : Prop :=
  ∀ x, x ∈ queue_ s → x ∈ workItems_ s.

(** No queued item is flagged completed. *)
Definition queue_pending (s : WorkQueue) : Prop :=
  ∀ x, x ∈ queue_ s → completed s x = false.

Definition combined_inv (s : WorkQueue) : Prop :=
  queue_sorted s ∧ queue_live s ∧ queue_pending s.

(** The test of [PurgeCompleted]. *)
Definition purgeable (priority0 : Z) (s : WorkQueue) (i : nat) : Prop :=
  completed s i = true ∧ priority0 ≤ priority s i.

#[global] Instance purgeable_dec priority0 s i : Decision (purgeable priority0 s i).
Proof. unfold purgeable. apply _. Defined.

(** A priority an [unsigned] field can hold. *)
Definition valid_priority (p : Z) : Prop := 0 ≤ p ≤ M_MAX_UNSIGNED.

(** The insertion point as the specification words it: before the first entry
    whose priority is strictly lower than the new item's. *)
Fixpoint spec_queue_insert (s : WorkQueue) (item : nat) (q : list nat) : list nat :=
  match q with
  | [] => [item]
  | i :: q' =>
      if priority s i <? priority s item
      then item :: i :: q'
      else i :: spec_queue_insert s item q'
  end.

(** "The lowest-priority sentinel" as the specification words it: with higher
    values served first, a priority no other priority is below. *)
Definition spec_lowest_priority (p : Z) : Prop :=
  ∀ p', valid_priority p' → p ≤ p'.

(** Submitting the items of [l] one after the other. *)
Definition submit_all (l : list nat) (s : WorkQueue) : res WorkQueue :=
  foldl (λ r x, res_bind r (AddWorkItem (Some x))) (Ret s) l.

(** A store with one item per priority of [prios], at addresses 0, 1, ...;
    the items are not pooled and send no event. *)
Definition items_with_priorities (prios : list Z) : gmap nat WorkItem :=
  list_to_map
    (imap (λ i p, (i, mkWorkItem (Some 0%nat) None None None p false false false)) prios).

(** The order in which [Complete(0)] runs the items of
    [items_with_priorities prios] after they were submitted in order to a new
    queue without worker threads: the addresses of the items, first run
    first. *)
Definition drain_order (prios : list Z) : option (list nat) :=
  match
    res_bind
      (submit_all (seq 0 (length prios)) (WorkQueue_new (items_with_priorities prios)))
      (Complete 0)
  with
  | Ret s => Some (fst <$> executed s)
  | _ => None
  end.


(** ** Example states *)

(** The state a call leaves, for calls that are known to return. *)
Definition res_state (r : res WorkQueue) : WorkQueue :=
  match r with
  | Ret s => s
  | _ => WorkQueue_new ∅
  end.

(** A new queue without worker threads after the submission of two items, of
    priorities 5 and 1 (addresses 0 and 1); items of priorities 5 and 3 are
    allocated at addresses 2 and 3. *)
Definition example_two_submitted : WorkQueue :=
  res_state (submit_all [0; 1]%nat (WorkQueue_new (items_with_priorities [5; 1; 5; 3]))).

(** ** Closed forms *)

(** What [ReturnToPool] does to the store. *)
Definition reset_item (h : gmap nat WorkItem) (i : nat) : gmap nat WorkItem :=
  if pooled_ (h !!! i) then <[i := WorkItem_reset (h !!! i)]> h else h.

(** What [PurgeCompleted] leaves of a queue [s] whose live list has no
    duplicates: the purged items are the live items that pass its test, in
    live-list order. *)
Definition purged (priority0 : Z) (s : WorkQueue) : list nat :=
  filter (purgeable priority0 s) (workItems_ s).

Definition purge_result (priority0 : Z) (s : WorkQueue) (l : list nat) : WorkQueue :=
  set_events
    (events s ++ filter (λ i, sendEvent_ (deref s i) = true) (filter (purgeable priority0 s) l))
    (set_poolItems
       (poolItems_ s ++ filter (λ i, pooled_ (deref s i) = true) (filter (purgeable priority0 s) l))
       (set_heap (foldl reset_item (heap s) (filter (purgeable priority0 s) l)) s)).


(** The four items of priorities 5, 1, 5, 3 submitted to a new queue without
    worker threads. *)
Definition example_four_submitted : WorkQueue :=
  res_state (submit_all (seq 0 4) (WorkQueue_new (items_with_priorities [5; 1; 5; 3]))).

(** The same after the drain loop of [Complete(3)]: the three items of
    priority at least 3 have run and are flagged, nothing is purged yet. *)
Definition example_three_completed : WorkQueue :=
  Complete_loop 3 (queue_ example_four_submitted) example_four_submitted.


(** Every item of the pool is in the state [ReturnToPool] left it in. *)
Definition pool_reset (s : WorkQueue) : Prop :=
  ∀ i, i ∈ poolItems_ s → is_reset (deref s i).

(** A queue that holds one pooled item: item 0 taken from [GetFreeItem],
    given priority 7, an entry point and a context, and submitted. *)
Definition example_pooled_store : gmap nat WorkItem :=
  {[ 0%nat := mkWorkItem (Some 1%nat) (Some 2%nat) (Some 3%nat) None 7 true false true ]}.

Definition example_pooled_submitted : WorkQueue :=
  res_state (AddWorkItem (Some 0%nat) (WorkQueue_new example_pooled_store)).

(** The same after the item has run. *)
Definition example_pooled_completed : WorkQueue :=
  Complete_loop 0 (queue_ example_pooled_submitted) example_pooled_submitted.


(** A queue whose pool held 15 items at the last purge and holds 3 now. *)
Definition example_pool_shrunk : WorkQueue :=
  set_lastSize 15 (set_poolItems [7; 8; 9]%nat (WorkQueue_new ∅)).


(** Running the items of [l] one after the other on thread [threadIndex]. *)
Definition run_items (l : list nat) (threadIndex : nat) (s : WorkQueue) : WorkQueue :=
  foldl (λ s x, run_item x threadIndex s) s l.

(** The number of turns of the loop of [HandleBeginFrame] on queue [q] when
    the [k]-th reading of the timer is the next one: the loop goes on while
    the queue is not empty and the reading is under [budget]. *)
Fixpoint frame_turns (usec : nat → Z) (budget : Z) (k : nat) (q : list nat) : nat :=
  match q with
  | [] => 0%nat
  | _ :: q' => if usec k <? budget then S (frame_turns usec budget (S k) q') else 0%nat
  end.

(** One frame after the other; [clocks] gives each frame's timer. *)
Definition frames (clocks : list (nat → Z)) (s : WorkQueue) : WorkQueue :=
  foldl (λ s usec, HandleBeginFrame usec s) s clocks.


(** A timer for which every work item takes three milliseconds. *)
Definition example_clock (k : nat) : Z := Z.of_nat k * 3000.


(** ** The threads together *)

(** One turn of a worker in [WorkQueue::ProcessItems], for the [k]-th worker
    thread: [None] when it cannot move (it waits for [queueMutex_], or it has
    returned). [Time::Sleep(0)] changes nothing. *)
Definition set_worker (k : nat) (w : WorkerThread) (s : WorkQueue) : WorkQueue :=
  set_threads (<[k := w]> (threads s)) s.

Definition ProcessItems_step (k : nat) (s : WorkQueue) : option WorkQueue :=
  match threads s !! k with
  | None => None
  | Some w =>
      match pc w with
      | WIdle =>
          if shutDown_ s then
            Some (set_worker k (mkWorkerThread (index_ w) (wasActive w) WStopped) s)
          else if pausing_ s && negb (wasActive w) then Some s
          else
            match lock (WorkerId (index_ w)) s with
            | Ret s1 =>
                Some (set_worker k (mkWorkerThread (index_ w) (wasActive w) WLocked) s1)
            | _ => None
            end
      | WLocked =>
          match queue_ s with
          | item :: rest =>
              Some (set_worker k (mkWorkerThread (index_ w) true (WRun item))
                      (unlock (set_queue rest s)))
          | [] =>
              Some (set_worker k (mkWorkerThread (index_ w) false WIdle) (unlock s))
          end
      | WRun item =>
          Some (set_worker k (mkWorkerThread (index_ w) (wasActive w) (WMark item))
                  (call_workFunction item (index_ w) s))
      | WMark item =>
          Some (set_worker k (mkWorkerThread (index_ w) (wasActive w) WIdle)
                  (write_completed item true s))
      | WStopped => None
      end
  end.

(** Where the main thread stands: between two calls, or inside a call that
    lets the workers move before it returns. *)
Inductive mpc :=
| MReady
| MPause                                      (* Pause(): pausing_ set, waiting for the mutex *)
| MComplete_loop (priority0 : Z)              (* Complete(): at the head of the drain loop *)
| MComplete_locked (priority0 : Z)            (* ... holding the mutex in the loop *)
| MComplete_run (priority0 : Z) (item : nat)  (* ... item popped, mutex released *)
| MComplete_mark (priority0 : Z) (item : nat) (* ... workFunction_ returned *)
| MComplete_wait (priority0 : Z)              (* ... in the busy-wait *)
| MComplete_pause (priority0 : Z)             (* ... in Pause(), waiting for the mutex *)
| MComplete_purge (priority0 : Z)             (* ... before PurgeCompleted *)
| MDestroyed.

Record System := mkSystem {
  wq : WorkQueue;
  main : mpc
}.

(** What the application does on the main thread: the calls of the public
    interface, the frame event, and writing the public fields of an item it
    holds and has not submitted. *)
Inductive call :=
| CallCreateThreads (numThreads : nat)
| CallGetFreeItem
| CallAddWorkItem (item : option nat)
| CallRemoveWorkItem (item : option nat)
| CallRemoveWorkItems (items : list (option nat))
| CallPause
| CallResume
| CallComplete (priority0 : Z)
| CallHandleBeginFrame (usec : nat → Z)
| CallDestroy
| UserWrite (item : nat) (w : WorkItem).

Inductive action :=
| ACall (c : call)
| AMain
| AWorker (k : nat).

(** A pointer handed to the queue points to an allocated item, or is null. *)
Definition allocated (s : WorkQueue) (item : option nat) : bool :=
  match item with
  | Some x => bool_decide (x ∈ dom (heap s))
  | None => true
  end.

Definition ret_state (m : mpc) (r : res WorkQueue) : option System :=
  match r with
  | Ret s => Some (mkSystem s m)
  | _ => None
  end.

(** A call by the main thread. Calls that neither wait nor spin are one step;
    [Pause] and, when there are worker threads, [Complete] go on in
    [main_step]. *)
Definition call_step (c : call) (σ : System) : option System :=
  let s := wq σ in
  match main σ with
  | MReady =>
      match c with
      | CallCreateThreads n => ret_state MReady (CreateThreads n s)
      | CallGetFreeItem => Some (mkSystem (snd (GetFreeItem s)) MReady)
      | CallAddWorkItem item =>
          if allocated s item then ret_state MReady (AddWorkItem item s) else None
      | CallRemoveWorkItem item =>
          ret_state MReady (res_bind (RemoveWorkItem item s) (λ r, Ret (snd r)))
      | CallRemoveWorkItems items =>
          ret_state MReady (res_bind (RemoveWorkItems items s) (λ r, Ret (snd r)))
      | CallPause =>
          if paused_ s then Some σ else Some (mkSystem (Pause_request s) MPause)
      | CallResume => Some (mkSystem (Resume s) MReady)
      | CallComplete p =>
          if has_threads s
          then Some (mkSystem (Resume (set_completing true s)) (MComplete_loop p))
          else ret_state MReady (Complete p s)
      | CallHandleBeginFrame usec => Some (mkSystem (HandleBeginFrame usec s) MReady)
      | CallDestroy => Some (mkSystem (Resume (set_shutDown true s)) MDestroyed)
      | UserWrite x w =>
          if bool_decide (x ∈ dom (heap s) ∧ x ∉ workItems_ s)
          then Some (mkSystem
                       (set_heap (<[x := WorkItem_set_pooled (pooled_ (deref s x)) w]> (heap s)) s)
                       MReady)
          else None
      end
  | _ => None
  end.

(** The next step of the main thread inside [Pause] or [Complete]. *)
Definition main_step (σ : System) : option System :=
  let s := wq σ in
  match main σ with
  | MReady | MDestroyed => None
  | MPause => ret_state MReady (Pause_acquire s)
  | MComplete_loop p =>
      match queue_ s with
      | [] => Some (mkSystem s (MComplete_wait p))
      | _ :: _ => ret_state (MComplete_locked p) (lock MainThread s)
      end
  | MComplete_locked p =>
      match queue_ s with
      | item :: rest =>
          if p <=? priority s item
          then Some (mkSystem (unlock (set_queue rest s)) (MComplete_run p item))
          else Some (mkSystem (unlock s) (MComplete_wait p))
      | [] => Some (mkSystem (unlock s) (MComplete_wait p))
      end
  | MComplete_run p item =>
      Some (mkSystem (call_workFunction item 0 s) (MComplete_mark p item))
  | MComplete_mark p item =>
      Some (mkSystem (write_completed item true s) (MComplete_loop p))
  | MComplete_wait p =>
      if IsCompleted p s then
        match queue_ s with
        | [] =>
            if paused_ s then Some (mkSystem s (MComplete_purge p))
            else Some (mkSystem (Pause_request s) (MComplete_pause p))
        | _ :: _ => Some (mkSystem s (MComplete_purge p))
        end
      else Some σ
  | MComplete_pause p => ret_state (MComplete_purge p) (Pause_acquire s)
  | MComplete_purge p =>
      Some (mkSystem (set_completing false (PurgeCompleted p s)) MReady)
  end.

Definition step (a : action) (σ : System) : option System :=
  match a with
  | ACall c => call_step c σ
  | AMain => main_step σ
  | AWorker k =>
      match ProcessItems_step k (wq σ) with
      | Some s' => Some (mkSystem s' (main σ))
      | None => None
      end
  end.

Fixpoint run (tr : list action) (σ : System) : option System :=
  match tr with
  | [] => Some σ
  | a :: tr' =>
      match step a σ with
      | Some σ' => run tr' σ'
      | None => None
      end
  end.

(** The system after [WorkQueue::WorkQueue], and the states it can get to. *)
Definition initial (h : gmap nat WorkItem) : System := mkSystem (WorkQueue_new h) MReady.

Definition reachable (σ : System) : Prop :=
  ∃ h tr, run tr (initial h) = Some σ.

(** The items that were popped and are not yet flagged completed: the one the
    main thread holds inside [Complete], and the ones the workers hold. *)
Definition worker_item (w : WorkerThread) : option nat :=
  match pc w with
  | WRun x | WMark x => Some x
  | _ => None
  end.

Definition main_item (m : mpc) : list nat :=
  match m with
  | MComplete_run _ x | MComplete_mark _ x => [x]
  | _ => []
  end.

Definition in_flight (σ : System) : list nat :=
  main_item (main σ) ++ omap worker_item (threads (wq σ)).

(** The main thread is in a part of [Pause] or [Complete] it only gets to
    with [paused_] cleared. *)
Definition main_unpaused (m : mpc) : Prop :=
  match m with
  | MReady | MComplete_purge _ | MDestroyed => False
  | _ => True
  end.

(** The invariant of the queue, given the items [fl] in flight. *)
Record wq_inv (fl : list nat) (s : WorkQueue) : Prop := mk_wq_inv {
  inv_sorted : queue_sorted s;
  inv_live : queue_live s;
  inv_pending : queue_pending s;
  inv_nodup_live : NoDup (workItems_ s);
  inv_nodup_queue : NoDup (fl ++ queue_ s);
  inv_flight : ∀ x, x ∈ fl → x ∈ workItems_ s ∧ completed s x = false;
  inv_alloc : ∀ x, x ∈ workItems_ s → x ∈ dom (heap s);
  inv_accounted : ∀ x, x ∈ workItems_ s → x ∈ queue_ s ∨ completed s x = true ∨ x ∈ fl
}.

(** The discipline of [queueMutex_]: the main thread holds it exactly while
    the queue is paused or while it is inside the drain loop of [Complete];
    a worker holds it exactly between its [lock] and its [unlock]. *)
Record mutex_inv (s : WorkQueue) (m : mpc) : Prop := mk_mutex_inv {
  inv_paused : paused_ s = true → queueMutex_ s = Some MainThread;
  inv_unpaused : main_unpaused m → paused_ s = false;
  inv_main_locked : ∀ p, m = MComplete_locked p → queueMutex_ s = Some MainThread;
  inv_main_mutex :
    queueMutex_ s = Some MainThread →
    paused_ s = true ∨ ∃ p, m = MComplete_locked p;
  inv_worker_locked : ∀ k w,
    threads s !! k = Some w → pc w = WLocked →
    queueMutex_ s = Some (WorkerId (index_ w));
  inv_worker_mutex : ∀ i,
    queueMutex_ s = Some (WorkerId i) →
    ∃ k w, threads s !! k = Some w ∧ pc w = WLocked ∧ index_ w = i;
  inv_index : ∀ k w, threads s !! k = Some w → index_ w = S k
}.

(** The invariant of the system: the queue's, the mutex's, and what the
    busy-wait of [Complete] has established once it is left. *)
Record sys_inv (σ : System) : Prop := mk_sys_inv {
  inv_wq : wq_inv (in_flight σ) (wq σ);
  inv_mutex : mutex_inv (wq σ) (main σ);
  inv_barrier : ∀ p,
    main σ = MComplete_pause p ∨ main σ = MComplete_purge p →
    IsCompleted p (wq σ) = true
}.


(** The number of turns of the drain loop of [Complete] on queue [q]: the
    loop goes on while the front item has priority at least [priority0]. *)
Fixpoint complete_turns (prio : nat → Z) (priority0 : Z) (q : list nat) : nat :=
  match q with
  | [] => 0%nat
  | x :: q' => if priority0 <=? prio x then S (complete_turns prio priority0 q') else 0%nat
  end.


(** ** Example runs *)

(** One worker thread is created, item 0 is submitted and the worker pops
    it; then the main thread pauses the queue. *)
Definition example_trace_paused : list action :=
  [ACall (CallCreateThreads 1); ACall (CallAddWorkItem (Some 0%nat));
   AWorker 0; AWorker 0; ACall CallPause; AMain].

Definition example_paused : System :=
  default (initial ∅)
    (run example_trace_paused (initial (items_with_priorities [5; 1; 5; 3]))).

(** Two worker threads and the four items; the second worker pops the first
    item of the queue, and the main thread calls [Complete(3)] and is about
    to purge. *)
Definition example_trace_barrier : list action :=
  [ACall (CallCreateThreads 2);
   ACall (CallAddWorkItem (Some 0%nat)); ACall (CallAddWorkItem (Some 1%nat));
   ACall (CallAddWorkItem (Some 2%nat)); ACall (CallAddWorkItem (Some 3%nat));
   AWorker 1; AWorker 1; ACall (CallComplete 3);
   AMain; AMain; AMain; AMain; AMain; AMain; AMain; AMain; AMain; AMain;
   AMain; AWorker 1; AMain; AWorker 1; AMain].

Definition example_barrier : System :=
  default (initial ∅)
    (run example_trace_barrier (initial (items_with_priorities [5; 1; 5; 3]))).

(** The call of [Complete(priority0)] returns with the step [a] from [σ]. *)
Definition Complete_returns (priority0 : Z) (a : action) (σ σ' : System) : Prop :=
  step a σ = Some σ' ∧
  ((a = ACall (CallComplete priority0) ∧ main σ = MReady ∧ main σ' = MReady) ∨
   (a = AMain ∧ main σ = MComplete_purge priority0)).

(** The calls that end a pause. *)
Definition ends_pause (s : WorkQueue) (a : action) : Prop :=
  a = ACall CallResume ∨ a = ACall CallDestroy ∨
  (has_threads s = true ∧
   ((∃ x, a = ACall (CallAddWorkItem (Some x))) ∨ (∃ p, a = ACall (CallComplete p)))).


(** A worker that holds neither the mutex nor an item. *)
Definition quiet (w : WorkerThread) : Prop := pc w = WIdle ∨ pc w = WStopped.

(** A step that is not a new call of the main thread. *)
Definition internal (a : action) : Prop := a = AMain ∨ ∃ k, a = AWorker k.


(** From [σ] to [σ'] the [k]-th worker has become quiet, and nothing else
    about the threads has changed. *)
Definition settled (k : nat) (σ σ' : System) : Prop :=
  main σ' = main σ ∧
  length (threads (wq σ')) = length (threads (wq σ)) ∧
  (∃ w', threads (wq σ') !! k = Some w' ∧ quiet w') ∧
  (∀ j, j ≠ k → threads (wq σ') !! j = threads (wq σ) !! j).


(** ** Counting submissions and executions *)

(** How often [x] occurs in a list of items. *)
Definition occurrences (x : nat) (l : list nat) : nat :=
  length (filter (λ y, y = x) l).

(** The step [a] is a call of [AddWorkItem] on item [x]. *)
Definition is_submission (x : nat) (a : action) : bool :=
  match a with
  | ACall (CallAddWorkItem (Some y)) => bool_decide (y = x)
  | _ => false
  end.

Definition submissions (x : nat) (tr : list action) : nat :=
  length (filter (λ a, is_submission x a = true) tr).

(** How often the work function of [x] has been called. *)
Definition executions (x : nat) (s : WorkQueue) : nat :=
  occurrences x (fst <$> executed s).

(** The items that were taken from the queue and whose work function has
    not been called yet. *)
Definition awaiting_call (w : WorkerThread) : option nat :=
  match pc w with
  | WRun x => Some x
  | _ => None
  end.

Definition main_awaiting (m : mpc) : list nat :=
  match m with
  | MComplete_run _ x => [x]
  | _ => []
  end.

Definition awaiting (σ : System) : list nat :=
  main_awaiting (main σ) ++ omap awaiting_call (threads (wq σ)).

(** The calls of the work function of [x] made and still to be made. *)
Definition owed (x : nat) (σ : System) : nat :=
  (executions x (wq σ) + occurrences x (queue_ (wq σ)) + occurrences x (awaiting σ))%nat.


(** ** Parking the workers *)

(** What [Complete] has seen of the queue once it is past its busy-wait:
    it calls [Pause] on an empty queue only. *)
Definition parked_inv (σ : System) : Prop :=
  (∀ p, main σ = MComplete_pause p → queue_ (wq σ) = []) ∧
  (∀ p, main σ = MComplete_purge p → paused_ (wq σ) = true → queue_ (wq σ) = []).


(** ** The flags *)

(** [pausing_] is raised only while the main thread waits for the mutex
    inside [Pause]; [shutDown_] is raised by the destructor and by nothing
    else; a worker has returned from [ProcessItems] only if [shutDown_] is
    raised. *)
Definition flags_inv (σ : System) : Prop :=
  (pausing_ (wq σ) = true → main σ = MPause ∨ ∃ p, main σ = MComplete_pause p) ∧
  (shutDown_ (wq σ) = true ↔ main σ = MDestroyed) ∧
  (∀ k w, threads (wq σ) !! k = Some w → pc w = WStopped → shutDown_ (wq σ) = true).


(** ** Completed items have run *)

(** The work function of [x] has been called at least once. *)
Definition ran (s : WorkQueue) (x : nat) : Prop := x ∈ (fst <$> executed s).

(** A live item is flagged completed only after its work function was
    called, and so is every item a thread is about to flag. *)
Definition exec_inv (σ : System) : Prop :=
  (∀ x, x ∈ workItems_ (wq σ) → completed (wq σ) x = true → ran (wq σ) x) ∧
  (∀ k w x, threads (wq σ) !! k = Some w → pc w = WMark x → ran (wq σ) x) ∧
  (∀ p x, main σ = MComplete_mark p x → ran (wq σ) x).


(** ** The thread index passed to a work function *)

(** Every logged call of a work function was made with thread index 0 or
    with the index of a worker thread of the queue. *)
Definition log_inv (σ : System) : Prop :=
  ∀ x i, (x, i) ∈ executed (wq σ) →
         i = 0%nat ∨ ∃ k w, threads (wq σ) !! k = Some w ∧ index_ w = i.


(** ** Completion events *)

(** How often [E_WORKITEMCOMPLETED] has been sent for [x]. *)
Definition notifications (x : nat) (s : WorkQueue) : nat := occurrences x (events s).

(** An event was sent only for an item whose work function had been called. *)
Definition event_inv (σ : System) : Prop := ∀ x, x ∈ events (wq σ) → ran (wq σ) x.
(** ** Stores and fields *)

Lemma deref_write_completed x b s i :
  deref (write_completed x b s) i =
  if decide (x = i) then WorkItem_set_completed b (deref s i) else deref s i.
Proof.
  unfold deref, write_completed; simpl.
  destruct (decide (x = i)) as [->|Hne].
  - by rewrite lookup_total_insert_eq.
  - by rewrite lookup_total_insert_ne.
Qed.

Lemma priority_write_completed x b s i :
  priority (write_completed x b s) i = priority s i.
Proof.
  unfold priority. rewrite deref_write_completed. by destruct (decide (x = i)).
Qed.

Lemma completed_write_completed x b s i :
  completed (write_completed x b s) i = if decide (x = i) then b else completed s i.
Proof.
  unfold completed. rewrite deref_write_completed. by destruct (decide (x = i)).
Qed.

Lemma deref_ReturnToPool x s i :
  deref (ReturnToPool x s) i =
  if decide (x = i) then
    (if pooled_ (deref s i) then WorkItem_reset (deref s i) else deref s i)
  else deref s i.
Proof.
  unfold ReturnToPool.
  destruct (decide (x = i)) as [->|Hne].
  - destruct (pooled_ (deref s i)) eqn:Hp; [|done].
    unfold deref; simpl. by rewrite lookup_total_insert_eq.
  - destruct (pooled_ (deref s x)); [|done].
    unfold deref; simpl. by rewrite lookup_total_insert_ne.
Qed.

Lemma poolItems_ReturnToPool x s :
  poolItems_ (ReturnToPool x s) =
  if pooled_ (deref s x) then poolItems_ s ++ [x] else poolItems_ s.
Proof. unfold ReturnToPool. by destruct (pooled_ (deref s x)). Qed.

Lemma WorkItem_reset_is_reset w : is_reset (WorkItem_reset w).
Proof. by repeat split. Qed.

Lemma M_MAX_UNSIGNED_largest p : valid_priority p → p ≤ M_MAX_UNSIGNED.
Proof. unfold valid_priority. lia. Qed.

(** ** The insertion point *)

Lemma queue_insert_ext s s' x q :
  (∀ i, priority s' i = priority s i) →
  queue_insert s' x q = queue_insert s x q.
Proof.
  intros Hp. induction q as [|i q IH]; simpl; [done|].
  rewrite !Hp, IH. done.
Qed.

Lemma queue_insert_split s x q :
  ∃ before after,
    q = before ++ after ∧
    queue_insert s x q = before ++ x :: after ∧
    Forall (λ i, priority s x < priority s i) before ∧
    match after with
    | [] => True
    | j :: _ => priority s j ≤ priority s x
    end.
Proof.
  induction q as [|i q (before & after & Hq & Hins & Hbefore & Hafter)]; simpl.
  - by exists [], [].
  - destruct (priority s i <=? priority s x) eqn:Hle.
    + exists [], (i :: q). repeat split; [constructor|]. lia.
    + exists (i :: before), after. subst q. rewrite Hins.
      repeat split; [|done]. constructor; [lia|done].
Qed.


Lemma AddWorkItem_Ret x s s' :
  AddWorkItem (Some x) s = Ret s' →
  (x ∉ workItems_ s) ∧
  workItems_ s' = workItems_ s ++ [x] ∧
  queue_ s' = queue_insert s x (queue_ s) ∧
  heap s' = <[x := WorkItem_set_completed false (deref s x)]> (heap s) ∧
  poolItems_ s' = poolItems_ s ∧ threads s' = threads s ∧
  executed s' = executed s ∧ events s' = events s ∧
  shutDown_ s' = shutDown_ s ∧ pausing_ s' = pausing_ s.
Proof.
  unfold AddWorkItem. destruct (decide (x ∈ workItems_ s)); [done|].
  set (s1 := write_completed x false _).
  assert (Hq : ∀ s2, heap s2 = heap s1 → queue_insert s2 x (queue_ s) = queue_insert s x (queue_ s)).
  { intros s2 Hh. apply queue_insert_ext. intros i. unfold priority, deref.
    rewrite Hh. apply (priority_write_completed x false). }
  destruct (has_threads s1 && negb (paused_ s1)) eqn:Hc; simpl.
  - unfold lock; simpl. destruct (queueMutex_ s); simpl; [done|].
    intros [= <-]. rewrite Hq by done.
    unfold has_threads; simpl. by destruct (threads s) eqn:Ht; simpl.
  - intros [= <-]. rewrite Hq by done.
    unfold has_threads; simpl. by destruct (threads s) eqn:Ht; simpl.
Qed.

(** Every [priority_] is left as it was by a submission. *)
Lemma AddWorkItem_priority x s s' i :
  AddWorkItem (Some x) s = Ret s' → priority s' i = priority s i.
Proof.
  intros (_ & _ & _ & Hh & _)%AddWorkItem_Ret.
  unfold priority, deref. rewrite Hh.
  destruct (decide (x = i)) as [->|Hne].
  - by rewrite lookup_total_insert_eq.
  - by rewrite lookup_total_insert_ne.
Qed.

Lemma queue_insert_sorted s x q :
  StronglySorted (λ a b, priority s b ≤ priority s a) q →
  StronglySorted (λ a b, priority s b ≤ priority s a) (queue_insert s x q).
Proof.
  induction 1 as [|i q Hs IH Hall]; simpl.
  - repeat constructor.
  - destruct (priority s i <=? priority s x) eqn:Hle.
    + constructor; [by constructor|].
      constructor; [lia|]. eapply Forall_impl; [exact Hall|]. simpl. lia.
    + constructor; [done|].
      destruct (queue_insert_split s x q) as (b & a & -> & -> & _ & _).
      apply Forall_app in Hall as [Hb Ha].
      apply Forall_app. split; [done|]. constructor; [lia|done].
Qed.

Lemma elem_of_queue_insert s x q i :
  i ∈ queue_insert s x q ↔ i = x ∨ i ∈ q.
Proof.
  destruct (queue_insert_split s x q) as (b & a & -> & -> & _ & _).
  rewrite !elem_of_app, elem_of_cons. tauto.
Qed.

Lemma NoDup_queue_insert s x q :
  x ∉ q → NoDup q → NoDup (queue_insert s x q).
Proof.
  destruct (queue_insert_split s x q) as (b & a & -> & -> & _ & _).
  rewrite !NoDup_app, NoDup_cons. rewrite elem_of_app.
  intros Hx (Hb & Hba & Ha). split_and!; try done.
  - intros i Hi [->|Hia]%elem_of_cons; [tauto|]. by eapply Hba.
  - tauto.
Qed.

Lemma StronglySorted_ext_priority s s' q :
  (∀ i, priority s' i = priority s i) →
  StronglySorted (λ a b, priority s b ≤ priority s a) q →
  StronglySorted (λ a b, priority s' b ≤ priority s' a) q.
Proof.
  intros Hp. induction 1 as [|i q Hs IH Hall]; constructor; [done|].
  eapply Forall_impl; [exact Hall|]. simpl. intros j. by rewrite !Hp.
Qed.
Lemma AddWorkItem_returns x s :
  x ∉ workItems_ s →
  has_threads s = false ∨ paused_ s = true ∨ queueMutex_ s = None →
  ∃ s', AddWorkItem (Some x) s = Ret s'.
Proof.
  intros Hx Hfree. unfold AddWorkItem.
  destruct (decide (x ∈ workItems_ s)); [done|].
  assert (has_threads (write_completed x false (set_workItems (workItems_ s ++ [x]) s))
          = has_threads s) as -> by done.
  simpl. destruct (has_threads s) eqn:Ht, (paused_ s) eqn:Hp; simpl; eauto.
  unfold lock; simpl. destruct Hfree as [H | [H | H] ]; try congruence. rewrite H. simpl. eauto.
Qed.

(** C1 (amended). [AddWorkItem] on a non-null item that is not yet live puts
    it into the queue before the first existing entry whose priority is lower
    than or equal to the new item's: the entries before it have strictly
    higher priority, and in a sorted queue all the entries behind it have
    lower or equal priority, so the new item is served before the existing
    items of its own priority. Submitting priorities 5, 1, 5, 3 in that order
    and draining runs the items in priority order 5, 5, 3, 1, the second
    priority-5 item (address 2) before the first (address 0). *)
Theorem AddWorkItem_insertion_point :
  (∀ s x s',
     AddWorkItem (Some x) s = Ret s' →
     ∃ before after,
       queue_ s = before ++ after ∧
       queue_ s' = before ++ x :: after ∧
       Forall (λ i, priority s x < priority s i) before ∧
       match after with
       | [] => True
       | j :: _ => priority s j ≤ priority s x
       end ∧
       (queue_sorted s →
        Forall (λ j, priority s j ≤ priority s x) after ∧ queue_sorted s'))
  ∧ drain_order [5; 1; 5; 3] = Some [2; 0; 3; 1]%nat.
Proof.
  split; [|by vm_compute].
  intros s x s' Hadd.
  pose proof (AddWorkItem_Ret _ _ _ Hadd) as (_ & _ & Hq & _).
  destruct (queue_insert_split s x (queue_ s))
    as (before & after & Hsplit & Hins & Hbefore & Hafter).
  exists before, after. rewrite Hq. split_and!; try done.
  intros Hsorted. split.
  - unfold queue_sorted in Hsorted. rewrite Hsplit in Hsorted.
    apply StronglySorted_app_1_r in Hsorted.
    destruct after as [|j after]; [constructor|].
    apply StronglySorted_inv in Hsorted as [_ Hall].
    constructor; [done|]. eapply Forall_impl; [exact Hall|]. simpl. lia.
  - unfold queue_sorted. rewrite Hq.
    eapply (StronglySorted_ext_priority s); [intros; by eapply AddWorkItem_priority|].
    by apply queue_insert_sorted.
Qed.

(** C1, counterexample: with priorities 5 and 1 queued, a second item of
    priority 5 is put in front of the first one, where the insertion point of
    the specification would put it behind; the drain then runs the two
    priority-5 items in the reverse of their submission order. *)
Lemma AddWorkItem_equal_priority_goes_first :
  ∃ s',
    AddWorkItem (Some 2%nat) example_two_submitted = Ret s' ∧
    queue_ example_two_submitted = [0; 1]%nat ∧
    queue_ s' = [2; 0; 1]%nat ∧
    spec_queue_insert example_two_submitted 2 (queue_ example_two_submitted)
      = [0; 2; 1]%nat ∧
    queue_ s' ≠ spec_queue_insert example_two_submitted 2 (queue_ example_two_submitted) ∧
    drain_order [5; 1; 5; 3] = Some [2; 0; 3; 1]%nat ∧
    drain_order [5; 1; 5; 3] ≠ Some [0; 2; 3; 1]%nat.
Proof. eexists. split_and!; by vm_compute. Qed.

Lemma AddWorkItem_insertion_point_witness :
  ∃ s' before after,
    AddWorkItem (Some 2%nat) example_two_submitted = Ret s' ∧
    queue_ example_two_submitted = before ++ after ∧
    queue_ s' = before ++ 2%nat :: after ∧
    Forall (λ i, priority example_two_submitted 2 < priority example_two_submitted i) before ∧
    Forall (λ j, priority example_two_submitted j ≤ priority example_two_submitted 2) after.
Proof.
  assert (∃ s', AddWorkItem (Some 2%nat) example_two_submitted = Ret s') as [s' Hadd].
  { eexists. vm_compute. reflexivity. }
  assert (queue_sorted example_two_submitted) as Hsorted.
  { unfold queue_sorted. vm_compute. repeat constructor; discriminate. }
  destruct (proj1 AddWorkItem_insertion_point _ _ _ Hadd)
    as (before & after & H1 & H2 & H3 & _ & H5).
  exists s', before, after. split_and!; try done. by apply H5.
Defined.

(** ** Purging completed items *)

Lemma filter_ext_elem {A} (P Q : A → Prop) `{!∀ x, Decision (P x)}
    `{!∀ x, Decision (Q x)} (l : list A) :
  (∀ x, x ∈ l → P x ↔ Q x) → filter P l = filter Q l.
Proof.
  induction l as [|a l IH]; intros Hext; [done|].
  rewrite !filter_cons.
  rewrite IH by (intros x Hx; apply Hext; by right).
  pose proof (Hext a (list_elem_of_here a l)).
  destruct (decide (P a)), (decide (Q a)); tauto || done.
Qed.

Lemma heap_ReturnToPool i s : heap (ReturnToPool i s) = reset_item (heap s) i.
Proof.
  unfold ReturnToPool, reset_item, deref. by destruct (pooled_ (heap s !!! i)).
Qed.

Lemma ReturnToPool_eq i s :
  ReturnToPool i s =
  set_poolItems (if pooled_ (deref s i) then poolItems_ s ++ [i] else poolItems_ s)
    (set_heap (reset_item (heap s) i) s).
Proof.
  unfold ReturnToPool, reset_item, deref.
  destruct (pooled_ (heap s !!! i)); [done|]. by destruct s.
Qed.

Lemma lookup_total_reset_item h i j :
  reset_item h i !!! j =
  if decide (i = j) then
    (if pooled_ (h !!! j) then WorkItem_reset (h !!! j) else h !!! j)
  else h !!! j.
Proof.
  unfold reset_item. destruct (decide (i = j)) as [->|Hne].
  - destruct (pooled_ (h !!! j)); [|done]. by rewrite lookup_total_insert_eq.
  - destruct (pooled_ (h !!! i)); [|done]. by rewrite lookup_total_insert_ne.
Qed.

Lemma lookup_total_reset_items l : ∀ h j,
  foldl reset_item h l !!! j =
  if decide (j ∈ l) then
    (if pooled_ (h !!! j) then WorkItem_reset (h !!! j) else h !!! j)
  else h !!! j.
Proof.
  induction l as [|i l IH]; intros h j; simpl.
  - destruct (decide (j ∈ [])) as [Hin|]; [|done]. by apply elem_of_nil in Hin.
  - rewrite IH, !lookup_total_reset_item.
    destruct (decide (i = j)) as [->|Hne].
    + rewrite (decide_True (P := j ∈ j :: l)) by left.
      destruct (pooled_ (h !!! j)) eqn:Hp; simpl; rewrite ?Hp; by destruct (decide (j ∈ l)).
    + destruct (decide (j ∈ l)) as [Hin|Hin].
      * by rewrite (decide_True (P := j ∈ i :: l)) by (by right).
      * rewrite (decide_False (P := j ∈ i :: l)); [done|].
        intros [->|?]%elem_of_cons; done.
Qed.

Lemma PurgeCompleted_loop_eq priority0 l : ∀ s,
  NoDup l →
  PurgeCompleted_loop priority0 l s =
  (filter (λ i, ¬ purgeable priority0 s i) l, purge_result priority0 s l).
Proof.
  induction l as [|i l IH]; intros s Hnd.
  - simpl. unfold purge_result. rewrite !filter_nil; simpl. rewrite !app_nil_r.
    by destruct s.
  - apply NoDup_cons in Hnd as [Hi Hnd]. simpl.
    destruct (completed s i && (priority0 <=? priority s i)) eqn:Htest.
    + assert (purgeable priority0 s i) as Hpi.
      { apply andb_true_iff in Htest as [? ?%Z.leb_le]. by split. }
      set (s1 := if sendEvent_ (deref s i) then SendEvent i s else s).
      assert (∀ j, deref s1 j = deref s j) as Hs1.
      { intros j. unfold s1. by destruct (sendEvent_ (deref s i)). }
      assert (∀ j, j ∈ l → deref (ReturnToPool i s1) j = deref s j) as Hd.
      { intros j Hj. rewrite deref_ReturnToPool, Hs1.
        destruct (decide (i = j)) as [->|]; done. }
      rewrite IH by done. unfold purge_result.
      rewrite (filter_cons_True (purgeable priority0 s)) by done.
      rewrite (filter_cons_False (λ i, ¬ purgeable priority0 s i)) by tauto.
      assert (filter (purgeable priority0 (ReturnToPool i s1)) l
              = filter (purgeable priority0 s) l) as ->.
      { apply filter_ext_elem. intros j Hj.
        unfold purgeable, completed, priority. by rewrite Hd. }
      f_equal.
      { apply filter_ext_elem. intros j Hj.
        unfold purgeable, completed, priority. by rewrite Hd. }
      rewrite (filter_ext_elem (λ j, sendEvent_ (deref (ReturnToPool i s1) j) = true)
                 (λ j, sendEvent_ (deref s j) = true)).
      2:{ intros j [_ Hj]%list_elem_of_filter. by rewrite Hd. }
      rewrite (filter_ext_elem (λ j, pooled_ (deref (ReturnToPool i s1) j) = true)
                 (λ j, pooled_ (deref s j) = true)).
      2:{ intros j [_ Hj]%list_elem_of_filter. by rewrite Hd. }
      rewrite !filter_cons. rewrite ReturnToPool_eq, Hs1. simpl.
      unfold s1. destruct (sendEvent_ (deref s i)) eqn:Hse, (pooled_ (deref s i)) eqn:Hpo;
        simpl; rewrite <-?app_assoc; simpl; done.
    + assert (¬ purgeable priority0 s i) as Hpi.
      { intros [Hc Hp]. rewrite Hc in Htest. simpl in Htest. lia. }
      rewrite IH by done. unfold purge_result.
      rewrite (filter_cons_False (purgeable priority0 s)) by done.
      by rewrite (filter_cons_True (λ i, ¬ purgeable priority0 s i)) by done.
Qed.

Lemma PurgeCompleted_eq priority0 s :
  NoDup (workItems_ s) →
  PurgeCompleted priority0 s =
  set_workItems (filter (λ i, ¬ purgeable priority0 s i) (workItems_ s))
    (purge_result priority0 s (workItems_ s)).
Proof.
  intros Hnd. unfold PurgeCompleted. by rewrite PurgeCompleted_loop_eq.
Qed.

Lemma deref_purge_result priority0 s l i :
  deref (purge_result priority0 s l) i =
  if decide (i ∈ filter (purgeable priority0 s) l) then deref (ReturnToPool i s) i
  else deref s i.
Proof.
  rewrite deref_ReturnToPool, (decide_True (P := i = i)) by done.
  unfold purge_result, deref; simpl. apply lookup_total_reset_items.
Qed.

(** C5. On a live list without duplicates, [PurgeCompleted(p)] removes from
    the live list exactly the items that are completed and have priority at
    least [p]; the items that stay keep their order. Each removed item is
    handed to [ReturnToPool] (so the pooled ones are appended to the pool, in
    live-list order, and reset), and one completion event is sent for each
    removed item whose [sendEvent_] flag is set. Every item that is below the
    threshold or not completed keeps all its fields and its place in the live
    list; the queue is not touched. *)
Theorem PurgeCompleted_removes_completed priority0 s :
  NoDup (workItems_ s) →
  workItems_ (PurgeCompleted priority0 s)
    = filter (λ i, ¬ purgeable priority0 s i) (workItems_ s) ∧
  sublist (workItems_ (PurgeCompleted priority0 s)) (workItems_ s) ∧
  (∀ i, i ∈ workItems_ (PurgeCompleted priority0 s) ↔
        i ∈ workItems_ s ∧ ¬ (completed s i = true ∧ priority0 ≤ priority s i)) ∧
  poolItems_ (PurgeCompleted priority0 s)
    = poolItems_ s ++ filter (λ i, pooled_ (deref s i) = true) (purged priority0 s) ∧
  events (PurgeCompleted priority0 s)
    = events s ++ filter (λ i, sendEvent_ (deref s i) = true) (purged priority0 s) ∧
  (∀ i, i ∈ purged priority0 s →
        deref (PurgeCompleted priority0 s) i = deref (ReturnToPool i s) i) ∧
  (∀ i, priority s i < priority0 ∨ completed s i = false →
        deref (PurgeCompleted priority0 s) i = deref s i ∧
        (i ∈ workItems_ s → i ∈ workItems_ (PurgeCompleted priority0 s))) ∧
  queue_ (PurgeCompleted priority0 s) = queue_ s ∧
  executed (PurgeCompleted priority0 s) = executed s.
Proof.
  intros Hnd. rewrite PurgeCompleted_eq by done. simpl.
  split_and!; try done.
  - apply sublist_filter.
  - intros i. rewrite list_elem_of_filter. unfold purgeable. tauto.
  - intros i Hi. change (deref (set_workItems ?w ?t) i) with (deref t i).
    rewrite deref_purge_result. by rewrite decide_True.
  - intros i Hi. split.
    + change (deref (set_workItems ?w ?t) i) with (deref t i).
      rewrite deref_purge_result. rewrite decide_False; [done|].
      intros [[Hc Hp] _]%list_elem_of_filter. destruct Hi; [lia|congruence].
    + intros Hin. apply list_elem_of_filter. split; [|done].
      intros [Hc Hp]. destruct Hi; [lia|congruence].
Qed.

Lemma PurgeCompleted_removes_completed_witness :
  NoDup (workItems_ example_three_completed) ∧
  workItems_ (PurgeCompleted 3 example_three_completed) = [1%nat] ∧
  workItems_ (PurgeCompleted 3 example_three_completed)
    = filter (λ i, ¬ purgeable 3 example_three_completed i)
        (workItems_ example_three_completed).
Proof.
  assert (NoDup (workItems_ example_three_completed)) as Hnd.
  { apply (bool_decide_unpack _). by vm_compute. }
  split; [done|]. split; [by vm_compute|].
  by apply (PurgeCompleted_removes_completed 3 example_three_completed).
Defined.

(** ** The pool *)

Lemma ReturnToPool_pool_reset i s : pool_reset s → pool_reset (ReturnToPool i s).
Proof.
  intros Hpool j. rewrite poolItems_ReturnToPool, deref_ReturnToPool.
  destruct (decide (i = j)) as [->|Hne].
  - destruct (pooled_ (deref s j)) eqn:Hp; [intros _; apply WorkItem_reset_is_reset|].
    apply Hpool.
  - destruct (pooled_ (deref s i)); [|apply Hpool].
    intros [?|?%list_elem_of_singleton]%elem_of_app; [by apply Hpool|done].
Qed.

Lemma PurgeCompleted_pool_reset priority0 s :
  NoDup (workItems_ s) → pool_reset s → pool_reset (PurgeCompleted priority0 s).
Proof.
  intros Hnd Hpool j. rewrite PurgeCompleted_eq by done. simpl.
  change (deref (set_workItems ?w ?t) j) with (deref t j).
  rewrite deref_purge_result, deref_ReturnToPool, (decide_True (P := j = j)) by done.
  intros [Hj|[Hp Hj]%list_elem_of_filter]%elem_of_app.
  - destruct (decide _); [|by apply Hpool].
    destruct (pooled_ (deref s j)); [apply WorkItem_reset_is_reset|by apply Hpool].
  - rewrite decide_True, Hp by done. apply WorkItem_reset_is_reset.
Qed.

(** C4 (amended). [ReturnToPool] appends an item to the pool only if it is
    pooled, after clearing the entry point and the three context pointers,
    clearing [sendEvent_] and [completed_], and setting the priority to
    [M_MAX_UNSIGNED], which is the largest priority there is (no priority is
    above it), not the lowest; a non-pooled item is dropped and nothing
    changes; no other item is touched. So when the live list has no
    duplicates and the pool holds reset items only, purging a completed
    pooled item makes [GetFreeItem] return an item of the pool whose fields
    are all reset. *)
Theorem ReturnToPool_resets_pooled_item :
  (∀ s item,
     (pooled_ (deref s item) = true →
      poolItems_ (ReturnToPool item s) = poolItems_ s ++ [item] ∧
      is_reset (deref (ReturnToPool item s) item) ∧
      pooled_ (deref (ReturnToPool item s) item) = true ∧
      priority (ReturnToPool item s) item = M_MAX_UNSIGNED ∧
      (∀ p, valid_priority p → p ≤ priority (ReturnToPool item s) item)) ∧
     (pooled_ (deref s item) = false → ReturnToPool item s = s) ∧
     (∀ i, i ≠ item → deref (ReturnToPool item s) i = deref s i))
  ∧
  (∀ s priority0 x,
     NoDup (workItems_ s) → pool_reset s →
     x ∈ workItems_ s → pooled_ (deref s x) = true → purgeable priority0 s x →
     ∃ r s2,
       GetFreeItem (PurgeCompleted priority0 s) = (r, s2) ∧
       r ∈ poolItems_ (PurgeCompleted priority0 s) ∧
       x ∈ poolItems_ (PurgeCompleted priority0 s) ∧
       is_reset (deref s2 r) ∧
       (poolItems_ s = [] →
        r ∈ purged priority0 s ∧ pooled_ (deref s r) = true ∧
        deref s2 r = WorkItem_reset (deref s r))).
Proof.
  split.
  - intros s item. split_and!.
    + intros Hp. rewrite poolItems_ReturnToPool. unfold priority.
      rewrite deref_ReturnToPool, (decide_True (P := item = item)), Hp by done.
      split_and!; try done. intros p. apply M_MAX_UNSIGNED_largest.
    + intros Hp. unfold ReturnToPool. by rewrite Hp.
    + intros i Hne. rewrite deref_ReturnToPool. by rewrite decide_False.
  - intros s priority0 x Hnd Hpool Hx Hp Hpurge.
    pose proof (PurgeCompleted_pool_reset priority0 s Hnd Hpool) as Hpool'.
    assert (poolItems_ (PurgeCompleted priority0 s)
            = poolItems_ s ++ filter (λ i, pooled_ (deref s i) = true) (purged priority0 s))
      as Hpl by (by rewrite PurgeCompleted_eq).
    assert (∀ i, i ∈ purged priority0 s →
                 deref (PurgeCompleted priority0 s) i = deref (ReturnToPool i s) i) as Hd.
    { intros i Hi. rewrite PurgeCompleted_eq by done.
      change (deref (set_workItems ?w ?t) i) with (deref t i).
      rewrite deref_purge_result. by rewrite decide_True. }
    assert (x ∈ poolItems_ (PurgeCompleted priority0 s)) as Hxin.
    { rewrite Hpl. apply elem_of_app. right.
      apply list_elem_of_filter. split; [done|].
      apply list_elem_of_filter. by split. }
    unfold GetFreeItem.
    destruct (poolItems_ (PurgeCompleted priority0 s)) as [|r rest] eqn:Hl.
    { by apply elem_of_nil in Hxin. }
    exists r, (set_poolItems rest (PurgeCompleted priority0 s)).
    split_and!; try done.
    + left.
    + apply Hpool'. rewrite Hl. left.
    + intros Hempty. rewrite Hempty in Hpl. simpl in Hpl.
      assert (r ∈ filter (λ i, pooled_ (deref s i) = true) (purged priority0 s)) as Hr.
      { rewrite <-Hpl. left. }
      apply list_elem_of_filter in Hr as [Hrp Hr]. split_and!; try done.
      change (deref (set_poolItems ?w ?t) r) with (deref t r).
      rewrite Hd by done. rewrite deref_ReturnToPool, (decide_True (P := r = r)) by done.
      by rewrite Hrp.
Qed.

(** C4, counterexample: the priority [ReturnToPool] leaves in a pooled item
    is 4294967295, and it is not the lowest priority: priority 0 is below
    it, and no priority is above it. *)
Lemma ReturnToPool_priority_not_lowest :
  pooled_ (deref example_pooled_completed 0) = true ∧
  priority (ReturnToPool 0 example_pooled_completed) 0 = 4294967295 ∧
  ¬ spec_lowest_priority (priority (ReturnToPool 0 example_pooled_completed) 0) ∧
  (valid_priority 0 ∧ 0 < priority (ReturnToPool 0 example_pooled_completed) 0) ∧
  (∀ p, valid_priority p → p ≤ priority (ReturnToPool 0 example_pooled_completed) 0).
Proof.
  assert (priority (ReturnToPool 0 example_pooled_completed) 0 = 4294967295) as Hp
    by (by vm_compute).
  rewrite Hp. split_and!; try done.
  - intros Hlow. specialize (Hlow 0). unfold valid_priority, M_MAX_UNSIGNED in Hlow. lia.
  - unfold valid_priority, M_MAX_UNSIGNED. lia.
Qed.

Lemma ReturnToPool_resets_pooled_item_witness :
  ∃ r s2,
    GetFreeItem (PurgeCompleted 0 example_pooled_completed) = (r, s2) ∧
    r = 0%nat ∧
    is_reset (deref s2 r) ∧
    deref example_pooled_completed 0
      = mkWorkItem (Some 1%nat) (Some 2%nat) (Some 3%nat) None 7 true true true.
Proof.
  destruct (proj2 ReturnToPool_resets_pooled_item example_pooled_completed 0 0%nat)
    as (r & s2 & Hget & _ & _ & Hreset & _).
  - apply (bool_decide_unpack _). by vm_compute.
  - intros i Hi. by apply elem_of_nil in Hi.
  - apply (bool_decide_unpack _). by vm_compute.
  - by vm_compute.
  - split; by vm_compute.
  - exists r, s2. split_and!; try done.
    assert (fst (GetFreeItem (PurgeCompleted 0 example_pooled_completed)) = 0%nat) as H0
      by (by vm_compute).
    by rewrite Hget in H0.
Defined.


(** ** Trimming the pool *)

Lemma to_int_to_size_t_small z :
  - 2 ^ 31 ≤ z < 2 ^ 31 → to_int (to_size_t z) = z.
Proof.
  intros Hz. unfold to_int, to_size_t.
  change (2 ^ 64) with 18446744073709551616.
  change (2 ^ 32) with 4294967296. change (2 ^ 31) with 2147483648 in *.
  Z.to_euclidean_division_equations. lia.
Qed.

Lemma to_int_small z : - 2 ^ 31 ≤ z < 2 ^ 31 → to_int z = z.
Proof. intros Hz. unfold to_int. rewrite Z.mod_small; lia. Qed.

Lemma to_unsigned_small z : 0 ≤ z < 2 ^ 32 → to_unsigned z = z.
Proof. intros Hz. unfold to_unsigned. by rewrite Z.mod_small. Qed.

Lemma PurgePool_loop_keep difference tolerance i pool :
  difference ≤ tolerance → PurgePool_loop difference tolerance i pool = pool.
Proof.
  intros Hd. destruct pool as [|x pool]; simpl; [done|].
  by rewrite (proj2 (Z.ltb_ge tolerance difference)) by lia.
Qed.

Lemma PurgePool_loop_drop difference tolerance pool : ∀ i,
  tolerance < difference → 0 ≤ difference < 2 ^ 31 → 0 ≤ i ≤ difference →
  PurgePool_loop difference tolerance i pool = drop (Z.to_nat (difference - i)) pool.
Proof.
  induction pool as [|x pool IH]; intros i Ht Hd Hi; simpl.
  - by rewrite drop_nil.
  - rewrite (proj2 (Z.ltb_lt tolerance difference)) by lia.
    rewrite (to_unsigned_small difference) by lia. simpl.
    destruct (i <? difference) eqn:Hlt.
    + apply Z.ltb_lt in Hlt. rewrite to_unsigned_small by lia.
      rewrite IH by lia.
      replace (difference - i) with (Z.succ (difference - (i + 1))) by lia.
      by rewrite Z2Nat.inj_succ by lia.
    + apply Z.ltb_ge in Hlt. by replace (difference - i) with 0 by lia.
Qed.

(** C9. With the sizes in the range of [int]: [PurgePool] removes entries
    only if [lastSize_], the size recorded by the previous purge, exceeds the
    current size of the pool by more than [tolerance_] (10 from the
    constructor on); it then drops entries from the front, as many as that
    difference or the whole pool if it is shorter, and never more than the
    difference; otherwise the pool is left as it is. In both cases it records
    the size the pool had on entry in [lastSize_], and touches nothing but
    the pool and [lastSize_]. *)
Theorem PurgePool_hysteresis s :
  0 ≤ lastSize_ s < 2 ^ 31 →
  Z.of_nat (length (poolItems_ s)) < 2 ^ 31 →
  0 ≤ tolerance_ s →
  (tolerance_ s < lastSize_ s - Z.of_nat (length (poolItems_ s)) →
   poolItems_ (PurgePool s)
     = drop (Z.to_nat (lastSize_ s - Z.of_nat (length (poolItems_ s)))) (poolItems_ s)) ∧
  (lastSize_ s - Z.of_nat (length (poolItems_ s)) ≤ tolerance_ s →
   poolItems_ (PurgePool s) = poolItems_ s) ∧
  (length (poolItems_ (PurgePool s)) ≤ length (poolItems_ s))%nat ∧
  Z.of_nat (length (poolItems_ s)) - Z.of_nat (length (poolItems_ (PurgePool s)))
    ≤ Z.max 0 (lastSize_ s - Z.of_nat (length (poolItems_ s))) ∧
  (poolItems_ (PurgePool s) ≠ poolItems_ s →
   tolerance_ s < lastSize_ s - Z.of_nat (length (poolItems_ s))) ∧
  lastSize_ (PurgePool s) = Z.of_nat (length (poolItems_ s)) ∧
  tolerance_ (PurgePool s) = tolerance_ s ∧
  PurgePool s
    = set_lastSize (lastSize_ (PurgePool s)) (set_poolItems (poolItems_ (PurgePool s)) s) ∧
  (∀ h, tolerance_ (WorkQueue_new h) = 10).
Proof.
  intros Hlast Hlen Htol.
  set (n := Z.of_nat (length (poolItems_ s))) in *.
  assert (0 ≤ n) as Hn by (unfold n; lia).
  assert (poolItems_ (PurgePool s)
          = PurgePool_loop (lastSize_ s - n) (tolerance_ s) 0 (poolItems_ s)) as Hpool.
  { unfold PurgePool; simpl. fold n. by rewrite to_int_to_size_t_small by lia. }
  assert (tolerance_ s < lastSize_ s - n →
          poolItems_ (PurgePool s) = drop (Z.to_nat (lastSize_ s - n)) (poolItems_ s)) as Hdrop.
  { intros Hd. rewrite Hpool, PurgePool_loop_drop by lia. by rewrite Z.sub_0_r. }
  assert (lastSize_ s - n ≤ tolerance_ s → poolItems_ (PurgePool s) = poolItems_ s) as Hkeep.
  { intros Hd. by rewrite Hpool, PurgePool_loop_keep. }
  assert (lastSize_ (PurgePool s) = n) as Hsize.
  { unfold PurgePool; simpl. fold n. by rewrite to_int_small by lia. }
  split_and!; try done.
  - destruct (Z_lt_le_dec (tolerance_ s) (lastSize_ s - n)) as [Hd|Hd].
    + rewrite Hdrop by done. rewrite length_drop. lia.
    + by rewrite Hkeep.
  - destruct (Z_lt_le_dec (tolerance_ s) (lastSize_ s - n)) as [Hd|Hd].
    + rewrite Hdrop by done. rewrite length_drop. fold n. lia.
    + rewrite Hkeep by done. fold n. lia.
  - intros Hne. destruct (Z_lt_le_dec (tolerance_ s) (lastSize_ s - n)) as [Hd|Hd]; [done|].
    by rewrite Hkeep in Hne.
Qed.

Lemma PurgePool_hysteresis_witness :
  poolItems_ (PurgePool example_pool_shrunk) = [] ∧
  lastSize_ (PurgePool example_pool_shrunk) = 3 ∧
  poolItems_ (PurgePool (PurgePool example_pool_shrunk)) = [] ∧
  poolItems_ (PurgePool (set_lastSize 13 example_pool_shrunk)) = [7; 8; 9]%nat.
Proof.
  split_and!.
  - rewrite (proj1 (PurgePool_hysteresis example_pool_shrunk
                      ltac:(by vm_compute) ltac:(by vm_compute) ltac:(by vm_compute)));
      by vm_compute.
  - by vm_compute.
  - by vm_compute.
  - by vm_compute.
Defined.

(** ** Removal *)


Lemma erase_not_elem_of x l : x ∉ l → erase x l = l.
Proof.
  induction l as [|y l IH]; simpl; [done|].
  intros [Hne Hl]%not_elem_of_cons. rewrite decide_False by done. by rewrite IH.
Qed.

Lemma erase_filter x l : NoDup l → erase x l = filter (λ y, y ≠ x) l.
Proof.
  induction 1 as [|y l Hy Hnd IH]; simpl; [done|].
  rewrite filter_cons. destruct (decide (x = y)) as [->|Hne].
  - rewrite decide_False by tauto. rewrite <-IH. by rewrite erase_not_elem_of.
  - rewrite decide_True by done. by rewrite IH.
Qed.

Lemma elem_of_erase x l i : NoDup l → i ∈ erase x l ↔ i ∈ l ∧ i ≠ x.
Proof. intros Hnd. rewrite erase_filter by done. rewrite list_elem_of_filter. tauto. Qed.

Lemma elem_of_erase_1 x l i : i ∈ erase x l → i ∈ l.
Proof.
  induction l as [|y l IH]; simpl; [done|].
  destruct (decide (x = y)); [by right|].
  intros [->|?]%elem_of_cons; [left|right; auto].
Qed.

Lemma NoDup_erase x l : NoDup l → NoDup (erase x l).
Proof. intros Hnd. rewrite erase_filter by done. by apply NoDup_filter. Qed.


Lemma StronglySorted_erase {R : nat → nat → Prop} x l :
  StronglySorted R l → StronglySorted R (erase x l).
Proof.
  induction 1 as [|y l Hs IH Hall]; simpl; [constructor|].
  destruct (decide (x = y)); [done|]. constructor; [done|].
  apply Forall_forall. intros i Hi%elem_of_erase_1.
  by eapply Forall_forall in Hall.
Qed.

(** What the two [find]s and the three statements they guard do. *)
Lemma remove_found_true x s :
  x ∈ queue_ s → x ∈ workItems_ s →
  remove_found x s =
  (true, set_workItems (erase x (workItems_ s))
           (ReturnToPool x (set_queue (erase x (queue_ s)) s))).
Proof.
  intros Hq Hl. unfold remove_found. by rewrite !decide_True by done.
Qed.

Lemma remove_found_false x s :
  x ∉ queue_ s → remove_found x s = (false, s).
Proof. intros Hq. unfold remove_found. by rewrite decide_False by done. Qed.

Lemma remove_found_fields x s b s' :
  remove_found x s = (b, s') →
  queueMutex_ s' = queueMutex_ s ∧ threads s' = threads s ∧
  paused_ s' = paused_ s ∧ pausing_ s' = pausing_ s ∧ shutDown_ s' = shutDown_ s ∧
  executed s' = executed s ∧ events s' = events s.
Proof.
  unfold remove_found. repeat case_decide; intros [= <- <-]; try done.
  rewrite ReturnToPool_eq. done.
Qed.


Lemma set_queueMutex_None_id s : queueMutex_ s = None → set_queueMutex None s = s.
Proof. destruct s; simpl. by intros ->. Qed.


Lemma example_four_submitted_lists :
  queue_ example_four_submitted = [2; 0; 3; 1]%nat ∧
  workItems_ example_four_submitted = [0; 1; 2; 3]%nat ∧
  queueMutex_ example_four_submitted = None.
Proof. split_and!; by vm_compute. Qed.



(** ** The frame hook *)

Lemma run_items_fields l i : ∀ s,
  queue_ (run_items l i s) = queue_ s ∧
  workItems_ (run_items l i s) = workItems_ s ∧
  poolItems_ (run_items l i s) = poolItems_ s ∧
  threads (run_items l i s) = threads s ∧
  queueMutex_ (run_items l i s) = queueMutex_ s ∧
  paused_ (run_items l i s) = paused_ s ∧
  pausing_ (run_items l i s) = pausing_ s ∧
  shutDown_ (run_items l i s) = shutDown_ s ∧
  maxNonThreadedWorkMs_ (run_items l i s) = maxNonThreadedWorkMs_ s ∧
  events (run_items l i s) = events s ∧
  executed (run_items l i s) = executed s ++ ((λ x, (x, i)) <$> l).
Proof.
  induction l as [|x l IH]; intros s; simpl.
  - by rewrite app_nil_r.
  - destruct (IH (run_item x i s)) as (-> & -> & -> & -> & -> & -> & -> & -> & -> & -> & ->).
    simpl. by rewrite <-app_assoc.
Qed.

Lemma deref_run_items l i : ∀ s x,
  deref (run_items l i s) x =
  if decide (x ∈ l) then WorkItem_set_completed true (deref s x) else deref s x.
Proof.
  induction l as [|y l IH]; intros s x.
  - change (run_items [] i s) with s.
    by destruct (decide (x ∈ [])) as [?%elem_of_nil|].
  - change (run_items (y :: l) i s) with (run_items l i (run_item y i s)).
    rewrite IH. unfold run_item. rewrite !deref_write_completed.
    change (deref (call_workFunction y i s) x) with (deref s x).
    destruct (decide (y = x)) as [->|Hne].
    + rewrite (decide_True (P := x ∈ x :: l)) by left. by destruct (decide (x ∈ l)).
    + destruct (decide (x ∈ l)) as [Hin|Hin].
      * by rewrite (decide_True (P := x ∈ y :: l)) by (by right).
      * rewrite (decide_False (P := x ∈ y :: l)); [done|].
        intros [->|?]%elem_of_cons; done.
Qed.

Lemma priority_run_items l i s x : priority (run_items l i s) x = priority s x.
Proof. unfold priority. rewrite deref_run_items. by destruct (decide (x ∈ l)). Qed.

Lemma set_queue_id s : set_queue (queue_ s) s = s.
Proof. by destruct s. Qed.

Lemma HandleBeginFrame_loop_eq usec q : ∀ k s,
  HandleBeginFrame_loop usec k q s =
  let n := frame_turns usec (maxNonThreadedWorkMs_ s * 1000) k q in
  match n with
  | O => s
  | S _ => run_items (take n q) 0 (set_queue (drop n q) s)
  end.
Proof.
  induction q as [|x q IH]; intros k s; simpl; [done|].
  destruct (usec k <? maxNonThreadedWorkMs_ s * 1000) eqn:Hlt; [|done].
  rewrite IH. simpl.
  destruct (frame_turns usec (maxNonThreadedWorkMs_ s * 1000) (S k) q) eqn:Hn; simpl.
  - by rewrite drop_0.
  - done.
Qed.

Lemma frame_turns_spec usec budget q : ∀ k,
  (frame_turns usec budget k q ≤ length q)%nat ∧
  (∀ j, (j < frame_turns usec budget k q)%nat → usec (k + j)%nat < budget) ∧
  ((frame_turns usec budget k q < length q)%nat →
   budget ≤ usec (k + frame_turns usec budget k q)%nat).
Proof.
  induction q as [|x q IH]; intros k; simpl.
  - split_and!; [lia|intros; lia|lia].
  - destruct (usec k <? budget) eqn:Hlt.
    + apply Z.ltb_lt in Hlt. destruct (IH (S k)) as (Hle & Hunder & Hover).
      split_and!; [lia| |].
      * intros [|j] Hj; [by rewrite Nat.add_0_r|].
        replace (k + S j)%nat with (S k + j)%nat by lia. apply Hunder. lia.
      * intros Hn. replace (k + S _)%nat
          with (S k + frame_turns usec budget (S k) q)%nat by lia.
        apply Hover. lia.
    + apply Z.ltb_ge in Hlt. split_and!; [lia|intros; lia|].
      intros _. by rewrite Nat.add_0_r.
Qed.
Lemma PurgeCompleted_loop_fields priority0 l : ∀ s kept s',
  PurgeCompleted_loop priority0 l s = (kept, s') →
  queue_ s' = queue_ s ∧ executed s' = executed s ∧ threads s' = threads s ∧
  maxNonThreadedWorkMs_ s' = maxNonThreadedWorkMs_ s ∧
  queueMutex_ s' = queueMutex_ s ∧ paused_ s' = paused_ s ∧
  pausing_ s' = pausing_ s ∧ shutDown_ s' = shutDown_ s.
Proof.
  induction l as [|i l IH]; intros s kept s'; simpl.
  - by intros [= <- <-].
  - destruct (completed s i && (priority0 <=? priority s i)).
    + intros Hloop. apply IH in Hloop. rewrite ReturnToPool_eq in Hloop.
      simpl in Hloop. by destruct (sendEvent_ (deref s i)).
    + destruct (PurgeCompleted_loop priority0 l s) as [kept' s''] eqn:Hloop.
      intros [= <- <-]. by eapply IH.
Qed.

Lemma PurgeCompleted_fields priority0 s :
  queue_ (PurgeCompleted priority0 s) = queue_ s ∧
  executed (PurgeCompleted priority0 s) = executed s ∧
  threads (PurgeCompleted priority0 s) = threads s ∧
  maxNonThreadedWorkMs_ (PurgeCompleted priority0 s) = maxNonThreadedWorkMs_ s ∧
  queueMutex_ (PurgeCompleted priority0 s) = queueMutex_ s ∧
  paused_ (PurgeCompleted priority0 s) = paused_ s ∧
  pausing_ (PurgeCompleted priority0 s) = pausing_ s ∧
  shutDown_ (PurgeCompleted priority0 s) = shutDown_ s.
Proof.
  unfold PurgeCompleted.
  destruct (PurgeCompleted_loop priority0 (workItems_ s) s) as [kept s'] eqn:Hloop.
  by apply PurgeCompleted_loop_fields in Hloop.
Qed.

Lemma HandleBeginFrame_fields usec s :
  queue_ (HandleBeginFrame usec s) = queue_ (HandleBeginFrame_work usec s) ∧
  executed (HandleBeginFrame usec s) = executed (HandleBeginFrame_work usec s) ∧
  threads (HandleBeginFrame usec s) = threads (HandleBeginFrame_work usec s) ∧
  maxNonThreadedWorkMs_ (HandleBeginFrame usec s)
    = maxNonThreadedWorkMs_ (HandleBeginFrame_work usec s).
Proof.
  destruct (PurgeCompleted_fields 0 (HandleBeginFrame_work usec s))
    as (H1 & H2 & H3 & H4 & _).
  split_and!; [exact H1|exact H2|exact H3|exact H4].
Qed.

Lemma HandleBeginFrame_work_spec usec s :
  has_threads s = false →
  ∃ n,
    n = frame_turns usec (maxNonThreadedWorkMs_ s * 1000) 0 (queue_ s) ∧
    HandleBeginFrame_work usec s = run_items (take n (queue_ s)) 0 (set_queue (drop n (queue_ s)) s).
Proof.
  intros Ht. eexists. split; [done|].
  unfold HandleBeginFrame_work. rewrite Ht, HandleBeginFrame_loop_eq. simpl.
  destruct (frame_turns _ _ _ _); [|done].
  rewrite take_0, drop_0. simpl. by rewrite set_queue_id.
Qed.

(** C10. The frame hook is its fallback work followed by [PurgeCompleted(0)]
    and then [PurgePool()], with or without worker threads; with worker
    threads the fallback does nothing. Without worker threads it runs on the
    calling thread (index 0) the first [n] items of the queue, in queue
    order, and flags each of them completed, where the timer read under the
    budget of [maxNonThreadedWorkMs_] milliseconds (5 from the constructor
    on) before each of the [n] items, and either the queue is then empty or
    the next reading has reached the budget. When every frame's first timer
    reading is under the budget, as many frames as there are queued items
    empty the queue, and the items have run in queue order. *)
Theorem HandleBeginFrame_fallback :
  (∀ usec s,
     HandleBeginFrame usec s = PurgePool (PurgeCompleted 0 (HandleBeginFrame_work usec s))) ∧
  (∀ usec s, has_threads s = true → HandleBeginFrame_work usec s = s) ∧
  (∀ usec s,
     has_threads s = false →
     ∃ n : nat,
       (n ≤ length (queue_ s))%nat ∧
       queue_ (HandleBeginFrame_work usec s) = drop n (queue_ s) ∧
       executed (HandleBeginFrame_work usec s)
         = executed s ++ ((λ x, (x, 0%nat)) <$> take n (queue_ s)) ∧
       (∀ x, x ∈ take n (queue_ s) → completed (HandleBeginFrame_work usec s) x = true) ∧
       (∀ x, x ∉ take n (queue_ s) →
             deref (HandleBeginFrame_work usec s) x = deref s x) ∧
       (∀ j, (j < n)%nat → usec j < maxNonThreadedWorkMs_ s * 1000) ∧
       ((n < length (queue_ s))%nat → maxNonThreadedWorkMs_ s * 1000 ≤ usec n) ∧
       (queue_ s ≠ [] → usec 0%nat < maxNonThreadedWorkMs_ s * 1000 → (0 < n)%nat)) ∧
  (∀ clocks s,
     has_threads s = false →
     Forall (λ usec : nat → Z, usec 0%nat < maxNonThreadedWorkMs_ s * 1000) clocks →
     (length (queue_ s) ≤ length clocks)%nat →
     queue_ (frames clocks s) = [] ∧
     executed (frames clocks s) = executed s ++ ((λ x, (x, 0%nat)) <$> queue_ s)) ∧
  (∀ h, maxNonThreadedWorkMs_ (WorkQueue_new h) = 5).
Proof.
  split_and!; try done.
  - intros usec s Ht. unfold HandleBeginFrame_work. by rewrite Ht.
  - intros usec s Ht.
    destruct (HandleBeginFrame_work_spec usec s Ht) as (n & Hn & ->).
    destruct (frame_turns_spec usec (maxNonThreadedWorkMs_ s * 1000) (queue_ s) 0%nat)
      as (Hle & Hunder & Hover).
    rewrite <-Hn in Hle, Hunder, Hover.
    destruct (run_items_fields (take n (queue_ s)) 0 (set_queue (drop n (queue_ s)) s))
      as (-> & _ & _ & _ & _ & _ & _ & _ & _ & _ & ->).
    exists n. split_and!; try done.
    + intros x Hx. unfold completed. rewrite deref_run_items. by rewrite decide_True.
    + intros x Hx. rewrite deref_run_items. by rewrite decide_False.
    + intros Hq Hu. destruct (queue_ s) as [|x q]; [done|]. simpl in Hn.
      apply Z.ltb_lt in Hu. rewrite Hu in Hn. lia.
  - intros clocks. induction clocks as [|usec clocks IH]; intros s Ht Hall Hlen.
    + simpl in *. destruct (queue_ s); [|simpl in Hlen; lia].
      by rewrite app_nil_r.
    + apply Forall_cons in Hall as [Hu Hall].
      change (frames (usec :: clocks) s) with (frames clocks (HandleBeginFrame usec s)).
      destruct (HandleBeginFrame_fields usec s) as (Hq0 & He0 & Hth0 & Hms0).
      destruct (HandleBeginFrame_work_spec usec s Ht) as (n & Hn & Hw).
      destruct (run_items_fields (take n (queue_ s)) 0 (set_queue (drop n (queue_ s)) s))
        as (Hq1 & _ & _ & Hth1 & _ & _ & _ & _ & Hms1 & _ & He1).
      assert (queue_ (HandleBeginFrame usec s) = drop n (queue_ s)) as Hq
        by (by rewrite Hq0, Hw, Hq1).
      assert (executed (HandleBeginFrame usec s)
              = executed s ++ ((λ x, (x, 0%nat)) <$> take n (queue_ s))) as He
        by (by rewrite He0, Hw, He1).
      assert (threads (HandleBeginFrame usec s) = threads s) as Hth
        by (by rewrite Hth0, Hw, Hth1).
      assert (maxNonThreadedWorkMs_ (HandleBeginFrame usec s) = maxNonThreadedWorkMs_ s)
        as Hms by (by rewrite Hms0, Hw, Hms1).
      clear Hq0 He0 Hth0 Hms0 Hq1 He1 Hth1 Hms1 Hw.
      assert (queue_ s = [] ∨ (0 < n)%nat) as Hpos.
      { destruct (queue_ s) as [|x q]; [by left|right]. simpl in Hn.
        apply Z.ltb_lt in Hu. rewrite Hu in Hn. lia. }
      destruct (IH (HandleBeginFrame usec s)) as (Hq' & He').
      * unfold has_threads in *. by rewrite Hth.
      * by rewrite Hms.
      * rewrite Hq, length_drop. simpl in Hlen. destruct Hpos as [->|?]; simpl; lia.
      * split; [done|]. rewrite He', He, Hq, <-app_assoc, <-fmap_app.
        by rewrite take_drop.
Qed.

Lemma HandleBeginFrame_fallback_witness :
  has_threads example_four_submitted = false ∧
  queue_ (HandleBeginFrame example_clock example_four_submitted) = [3; 1]%nat ∧
  queue_ (frames (replicate 4 example_clock) example_four_submitted) = [] ∧
  executed (frames (replicate 4 example_clock) example_four_submitted)
    = [(2, 0); (0, 0); (3, 0); (1, 0)]%nat.
Proof.
  destruct example_four_submitted_lists as (Hq & Hl & Hm).
  assert (has_threads example_four_submitted = false) as Ht by (by vm_compute).
  destruct (proj1 (proj2 (proj2 (proj2 HandleBeginFrame_fallback)))
              (replicate 4 example_clock) example_four_submitted Ht) as (Hq' & He').
  - repeat constructor.
  - rewrite Hq. simpl. lia.
  - split_and!; [done|by vm_compute|done|]. rewrite He', Hq. by vm_compute.
Defined.

(** ** The invariant of the queue *)

Lemma StronglySorted_ext_elem {A} (R R' : A → A → Prop) l :
  (∀ a b, a ∈ l → b ∈ l → R a b → R' a b) →
  StronglySorted R l → StronglySorted R' l.
Proof.
  intros Hext Hs. induction Hs as [|a l Hs IH Hall]; constructor.
  - apply IH. intros x y Hx Hy. apply Hext; by right.
  - apply Forall_forall. intros b Hb. apply Hext; [left|by right|].
    by eapply Forall_forall in Hall.
Qed.

(** The invariant reads the store at live items only. *)
Lemma wq_inv_heap_ext fl s s' :
  queue_ s' = queue_ s → workItems_ s' = workItems_ s →
  (∀ x, x ∈ workItems_ s → deref s' x = deref s x ∧ x ∈ dom (heap s')) →
  wq_inv fl s → wq_inv fl s'.
Proof.
  intros Hq Hl Hd [Hs Hlive Hp Hnl Hnq Hf Ha Hacc].
  assert (∀ x, x ∈ workItems_ s → priority s' x = priority s x) as Hprio.
  { intros x Hx. unfold priority. by rewrite (proj1 (Hd x Hx)). }
  assert (∀ x, x ∈ workItems_ s → completed s' x = completed s x) as Hcompl.
  { intros x Hx. unfold completed. by rewrite (proj1 (Hd x Hx)). }
  split.
  - unfold queue_sorted. rewrite Hq.
    eapply StronglySorted_ext_elem; [|exact Hs]. simpl.
    intros a b Ha' Hb'. rewrite !Hprio by auto. done.
  - unfold queue_live. by rewrite Hq, Hl.
  - unfold queue_pending. rewrite Hq. intros x Hx. rewrite Hcompl by auto. auto.
  - by rewrite Hl.
  - by rewrite Hq.
  - intros x Hx. destruct (Hf x Hx) as [Hin Hc]. rewrite Hl, Hcompl by done. done.
  - rewrite Hl. intros x Hx. by apply Hd.
  - rewrite Hl, Hq. intros x Hx. rewrite Hcompl by done. auto.
Qed.

Lemma wq_inv_ext fl s s' :
  heap s' = heap s → queue_ s' = queue_ s → workItems_ s' = workItems_ s →
  wq_inv fl s → wq_inv fl s'.
Proof.
  intros Hh Hq Hl Hinv. apply (wq_inv_heap_ext fl s s'); try done.
  intros x Hx. unfold deref. rewrite Hh. split; [done|]. by apply (inv_alloc _ _ Hinv).
Qed.

Lemma wq_inv_perm fl fl' s : fl ≡ₚ fl' → wq_inv fl s → wq_inv fl' s.
Proof.
  intros Hperm [Hs Hlive Hp Hnl Hnq Hf Ha Hacc]. split; try done.
  - by rewrite <-Hperm.
  - intros x Hx. apply Hf. by rewrite Hperm.
  - intros x Hx. rewrite <-Hperm. auto.
Qed.

Lemma wq_inv_initial h : wq_inv [] (WorkQueue_new h).
Proof.
  split; simpl; try done; try (by intros x ?%elem_of_nil); try constructor.
Qed.

Lemma wq_inv_AddWorkItem fl s x s' :
  wq_inv fl s → x ∈ dom (heap s) →
  AddWorkItem (Some x) s = Ret s' → wq_inv fl s'.
Proof.
  intros [Hs Hlive Hp Hnl Hnq Hf Ha Hacc] Hdom Hadd.
  pose proof (λ i, AddWorkItem_priority x s s' i Hadd) as Hprio.
  apply AddWorkItem_Ret in Hadd as (Hx & Hl' & Hq' & Hh' & _).
  assert (∀ i, completed s' i = if decide (x = i) then false else completed s i) as Hcompl.
  { intros i. unfold completed, deref. rewrite Hh'.
    destruct (decide (x = i)) as [->|Hne].
    - by rewrite lookup_total_insert_eq.
    - by rewrite lookup_total_insert_ne. }
  assert (x ∉ queue_ s) as Hxq by (intros ?; by apply Hx, Hlive).
  assert (x ∉ fl) as Hxf by (intros ?; by apply Hx, Hf).
  apply NoDup_app in Hnq as (Hnf & Hdisj & Hnq).
  split.
  - unfold queue_sorted. rewrite Hq'.
    apply (StronglySorted_ext_priority s); [done|]. by apply queue_insert_sorted.
  - intros i. rewrite Hq', Hl', elem_of_queue_insert, elem_of_app, list_elem_of_singleton.
    intros [->|Hi]; auto.
  - intros i. rewrite Hq', elem_of_queue_insert, Hcompl.
    intros [->|Hi]; [by rewrite decide_True|].
    rewrite decide_False by (by intros <-). auto.
  - rewrite Hl'. apply NoDup_app. split_and!; [done| |apply NoDup_singleton].
    intros i Hi ->%list_elem_of_singleton. done.
  - rewrite Hq'. apply NoDup_app. split_and!; [done| |by apply NoDup_queue_insert].
    intros i Hi [->|Hiq]%elem_of_queue_insert; [done|]. by eapply Hdisj.
  - intros i Hi. destruct (Hf i Hi) as [Hin Hc]. rewrite Hl', Hcompl.
    rewrite decide_False by (by intros <-). split; [|done].
    apply elem_of_app. by left.
  - rewrite Hl', Hh'. intros i [Hi| ->%list_elem_of_singleton]%elem_of_app.
    + rewrite dom_insert. apply elem_of_union. right. auto.
    + rewrite dom_insert. apply elem_of_union. left. by apply elem_of_singleton.
  - rewrite Hl', Hq'. intros i [Hi| ->%list_elem_of_singleton]%elem_of_app.
    + rewrite elem_of_queue_insert, Hcompl.
      rewrite decide_False by (by intros <-).
      destruct (Hacc i Hi) as [?|[?|?]]; auto.
    + left. apply elem_of_queue_insert. by left.
Qed.

Lemma wq_inv_remove_found fl s x b s' :
  wq_inv fl s → remove_found x s = (b, s') → wq_inv fl s'.
Proof.
  intros Hinv Hrem. pose proof Hinv as [Hs Hlive Hp Hnl Hnq Hf Ha Hacc].
  destruct (decide (x ∈ queue_ s)) as [Hxq|Hxq].
  2:{ rewrite remove_found_false in Hrem by done. by injection Hrem as <- <-. }
  rewrite remove_found_true in Hrem by auto. injection Hrem as <- <-.
  apply NoDup_app in Hnq as (Hnf & Hdisj & Hnq).
  assert (x ∉ fl) as Hxf by (intros ?; by eapply Hdisj).
  assert (∀ i, i ≠ x →
    deref (set_workItems (erase x (workItems_ s))
             (ReturnToPool x (set_queue (erase x (queue_ s)) s))) i = deref s i) as Hd.
  { intros i Hne. change (deref (set_workItems ?w ?t) i) with (deref t i).
    rewrite deref_ReturnToPool. rewrite decide_False by done. done. }
  rewrite ReturnToPool_eq in *. 
  split; simpl.
  - unfold queue_sorted; simpl.
    eapply (StronglySorted_ext_elem (λ a b, priority s b ≤ priority s a)).
    + intros a b [Ha' Hane]%elem_of_erase [Hb' Hbne]%elem_of_erase; try done.
      unfold priority. by rewrite !Hd.
    + by apply StronglySorted_erase.
  - intros i [Hi Hne]%elem_of_erase; [|done]. simpl. apply elem_of_erase; auto.
  - intros i [Hi Hne]%elem_of_erase; [|done]. unfold completed. rewrite Hd by done.
    by apply Hp.
  - by apply NoDup_erase.
  - apply NoDup_app. split_and!; [done| |by apply NoDup_erase].
    intros i Hi Hie%elem_of_erase_1. by eapply Hdisj.
  - intros i Hi. destruct (Hf i Hi) as [Hin Hc].
    assert (i ≠ x) by (by intros ->).
    unfold completed. rewrite Hd by done. split; [|done]. apply elem_of_erase; auto.
  - intros i [Hi Hne]%elem_of_erase; [|done].
    unfold reset_item. destruct (pooled_ (heap s !!! x)); [|auto].
    rewrite dom_insert. apply elem_of_union. right. auto.
  - intros i [Hi Hne]%elem_of_erase; [|done]. unfold completed. rewrite Hd by done.
    destruct (Hacc i Hi) as [?|[?|?]]; auto. left. apply elem_of_erase; auto.
Qed.

Lemma wq_inv_RemoveWorkItems_loop fl items : ∀ removed s n s',
  wq_inv fl s → RemoveWorkItems_loop items removed s = (n, s') → wq_inv fl s'.
Proof.
  induction items as [|[x|] items IH]; intros removed s n s' Hinv; simpl.
  - by intros [= _ <-].
  - destruct (remove_found x s) as [b s1] eqn:Hrem. intros Hloop.
    eapply IH; [|exact Hloop]. by eapply wq_inv_remove_found.
  - by apply IH.
Qed.

Lemma RemoveWorkItems_loop_fields items : ∀ removed s n s',
  RemoveWorkItems_loop items removed s = (n, s') →
  queueMutex_ s' = queueMutex_ s ∧ threads s' = threads s ∧
  paused_ s' = paused_ s ∧ pausing_ s' = pausing_ s ∧ shutDown_ s' = shutDown_ s ∧
  executed s' = executed s ∧ events s' = events s.
Proof.
  induction items as [|[x|] items IH]; intros removed s n s'; simpl.
  - by intros [= _ <-].
  - destruct (remove_found x s) as [b s1] eqn:Hrem. intros Hloop.
    apply IH in Hloop. apply remove_found_fields in Hrem.
    destruct Hloop as (-> & -> & -> & -> & -> & -> & ->). done.
  - by apply IH.
Qed.

Lemma wq_inv_pop fl s x q :
  wq_inv fl s → queue_ s = x :: q → wq_inv (x :: fl) (set_queue q s).
Proof.
  intros [Hs Hlive Hp Hnl Hnq Hf Ha Hacc] Hq.
  unfold queue_sorted, queue_live, queue_pending in *. rewrite Hq in *.
  apply StronglySorted_inv in Hs as [Hs _].
  split; simpl; try done.
  - intros i Hi. apply Hlive. by right.
  - intros i Hi. apply (Hp i). by right.
  - eapply NoDup_Permutation_proper; [|exact Hnq].
    by rewrite <-Permutation_middle.
  - intros i [->|Hi]%elem_of_cons; [|auto].
    split; [apply Hlive; left|apply (Hp x); left].
  - intros i Hi. rewrite elem_of_cons.
    destruct (Hacc i Hi) as [[->|?]%elem_of_cons|[?|?]]; auto.
Qed.

Lemma wq_inv_mark fl s x :
  wq_inv (x :: fl) s → wq_inv fl (write_completed x true s).
Proof.
  intros [Hs Hlive Hp Hnl Hnq Hf Ha Hacc].
  apply NoDup_cons in Hnq as [Hx Hnq].
  apply not_elem_of_app in Hx as [Hxf Hxq].
  split; simpl; try done.
  - unfold queue_sorted; simpl.
    eapply StronglySorted_ext_elem; [|exact Hs]. simpl.
    intros a b _ _. by rewrite !priority_write_completed.
  - intros i Hi. rewrite completed_write_completed.
    rewrite decide_False by (by intros <-). by apply Hp.
  - intros i Hi. rewrite completed_write_completed.
    rewrite decide_False by (by intros <-). apply Hf. by right.
  - intros i Hi. rewrite dom_insert. apply elem_of_union. right. auto.
  - intros i Hi. rewrite completed_write_completed.
    destruct (decide (x = i)) as [->|Hne]; [auto|].
    destruct (Hacc i Hi) as [?|[?|[->|?]%elem_of_cons]]; auto.
Qed.

Lemma wq_inv_run_item fl s x q i :
  wq_inv fl s → queue_ s = x :: q → wq_inv fl (run_item x i (set_queue q s)).
Proof.
  intros Hinv Hq. apply wq_inv_mark.
  eapply wq_inv_ext; [| | |by apply wq_inv_pop]; done.
Qed.

Lemma wq_inv_Complete_loop fl priority0 q : ∀ s,
  queue_ s = q → wq_inv fl s → wq_inv fl (Complete_loop priority0 q s).
Proof.
  induction q as [|x q IH]; intros s Hq Hinv; simpl; [done|].
  destruct (priority0 <=? priority s x); [|done].
  apply IH; [done|]. by apply wq_inv_run_item.
Qed.

Lemma wq_inv_HandleBeginFrame_loop fl usec q : ∀ k s,
  queue_ s = q → wq_inv fl s → wq_inv fl (HandleBeginFrame_loop usec k q s).
Proof.
  induction q as [|x q IH]; intros k s Hq Hinv; simpl; [done|].
  destruct (usec k <? maxNonThreadedWorkMs_ s * 1000); [|done].
  apply IH; [done|]. by apply wq_inv_run_item.
Qed.

Lemma dom_reset_item h i : dom (reset_item h i) = dom h.
Proof.
  unfold reset_item. destruct (pooled_ (h !!! i)) eqn:Hp; [|done].
  apply dom_insert_lookup_L.
  destruct (h !! i) as [w|] eqn:Hw; [done|].
  by rewrite lookup_total_alt, Hw in Hp.
Qed.

Lemma dom_reset_items l : ∀ h, dom (foldl reset_item h l) = dom h.
Proof.
  induction l as [|i l IH]; intros h; simpl; [done|]. by rewrite IH, dom_reset_item.
Qed.

Lemma wq_inv_PurgeCompleted fl priority0 s :
  wq_inv fl s → wq_inv fl (PurgeCompleted priority0 s).
Proof.
  intros Hinv. pose proof Hinv as [Hs Hlive Hp Hnl Hnq Hf Ha Hacc].
  rewrite PurgeCompleted_eq by done.
  set (s' := set_workItems _ _).
  assert (∀ i, ¬ purgeable priority0 s i → deref s' i = deref s i) as Hd.
  { intros i Hi. unfold s'. change (deref (set_workItems ?w ?t) i) with (deref t i).
    rewrite deref_purge_result. rewrite decide_False; [done|].
    by intros [? _]%list_elem_of_filter. }
  assert (∀ i, i ∈ queue_ s → ¬ purgeable priority0 s i) as Hqn.
  { intros i Hi [Hc _]. rewrite (Hp i Hi) in Hc. done. }
  assert (∀ i, i ∈ fl → ¬ purgeable priority0 s i) as Hfn.
  { intros i Hi [Hc _]. rewrite (proj2 (Hf i Hi)) in Hc. done. }
  split.
  - unfold queue_sorted. 
    eapply (StronglySorted_ext_elem (λ a b, priority s b ≤ priority s a)); [|exact Hs].
    intros a b Ha' Hb'. unfold priority. rewrite !Hd by auto. done.
  - intros i Hi. apply list_elem_of_filter. split; [by apply Hqn|by apply Hlive].
  - intros i Hi. unfold completed. rewrite Hd by auto. by apply Hp.
  - by apply NoDup_filter.
  - done.
  - intros i Hi. destruct (Hf i Hi) as [Hin Hc]. unfold completed.
    rewrite Hd by auto. split; [|done]. apply list_elem_of_filter. auto.
  - intros i [Hi Hin]%list_elem_of_filter. unfold s', purge_result. simpl.
    rewrite dom_reset_items. auto.
  - intros i [Hi Hin]%list_elem_of_filter. unfold completed. rewrite Hd by done.
    by apply Hacc.
Qed.

Lemma wq_inv_GetFreeItem fl s : wq_inv fl s → wq_inv fl (snd (GetFreeItem s)).
Proof.
  intros Hinv. unfold GetFreeItem. destruct (poolItems_ s) as [|i rest]; simpl.
  - apply (wq_inv_heap_ext fl s); try done. intros x Hx.
    pose proof (inv_alloc _ _ Hinv x Hx) as Hdom.
    assert (fresh (dom (heap s)) ≠ x) as Hne.
    { intros Heq. rewrite <-Heq in Hdom. by apply is_fresh in Hdom. }
    unfold deref. simpl. rewrite lookup_total_insert_ne by done. split; [done|].
    rewrite dom_insert. apply elem_of_union. by right.
  - by apply (wq_inv_ext fl s).
Qed.

Lemma wq_inv_UserWrite fl s x w :
  wq_inv fl s → x ∉ workItems_ s →
  wq_inv fl (set_heap (<[x := w]> (heap s)) s).
Proof.
  intros Hinv Hx. apply (wq_inv_heap_ext fl s); try done. intros i Hi.
  assert (x ≠ i) as Hne by (by intros ->).
  unfold deref. simpl. rewrite lookup_total_insert_ne by done. split; [done|].
  rewrite dom_insert. apply elem_of_union. right. by apply (inv_alloc _ _ Hinv).
Qed.

(** ** Items in flight *)

Lemma omap_insert_perm {A B} (f : A → option B) (l : list A) : ∀ k a a',
  l !! k = Some a →
  option_list (f a) ++ omap f (<[k := a']> l) ≡ₚ option_list (f a') ++ omap f l.
Proof.
  induction l as [|a0 l IH]; intros k a a' Hk; [done|].
  destruct k as [|k]; simpl in *.
  - injection Hk as ->. destruct (f a), (f a'); simpl; try done. apply perm_swap.
  - specialize (IH k a a' Hk).
    destruct (f a0) as [b0|]; simpl; [|done].
    rewrite <-!Permutation_middle. by f_equiv.
Qed.

Lemma omap_insert_same {A B} (f : A → option B) (l : list A) k a a' :
  l !! k = Some a → f a' = f a → omap f (<[k := a']> l) ≡ₚ omap f l.
Proof.
  intros Hk Hf. pose proof (omap_insert_perm f l k a a' Hk) as Hperm.
  rewrite Hf in Hperm. by apply (inj (app _)) in Hperm.
Qed.

Lemma omap_insert_Some {A B} (f : A → option B) (l : list A) k a a' b :
  l !! k = Some a → f a = None → f a' = Some b →
  omap f (<[k := a']> l) ≡ₚ b :: omap f l.
Proof.
  intros Hk Hf Hf'. pose proof (omap_insert_perm f l k a a' Hk) as Hperm.
  by rewrite Hf, Hf' in Hperm.
Qed.

Lemma omap_insert_None {A B} (f : A → option B) (l : list A) k a a' b :
  l !! k = Some a → f a = Some b → f a' = None →
  b :: omap f (<[k := a']> l) ≡ₚ omap f l.
Proof.
  intros Hk Hf Hf'. pose proof (omap_insert_perm f l k a a' Hk) as Hperm.
  by rewrite Hf, Hf' in Hperm.
Qed.

(** ** The completion test *)

Lemma IsCompleted_loop_true priority0 s l :
  IsCompleted_loop priority0 s l = true ↔
  ∀ i, i ∈ l → priority0 ≤ priority s i → completed s i = true.
Proof.
  induction l as [|i l IH]; simpl.
  - split; [intros _ i []%elem_of_nil|done].
  - destruct (priority0 <=? priority s i) eqn:Hle, (completed s i) eqn:Hc; simpl.
    + rewrite IH. split.
      * intros Hall j [->|Hj]%elem_of_cons; auto.
      * intros Hall j Hj. apply Hall. by right.
    + split; [done|]. intros Hall. apply Z.leb_le in Hle.
      specialize (Hall i (list_elem_of_here _ _) Hle). congruence.
    + apply Z.leb_gt in Hle. rewrite IH. split.
      * intros Hall j [->|Hj]%elem_of_cons; [lia|auto].
      * intros Hall j Hj. apply Hall. by right.
    + apply Z.leb_gt in Hle. rewrite IH. split.
      * intros Hall j [->|Hj]%elem_of_cons; [lia|auto].
      * intros Hall j Hj. apply Hall. by right.
Qed.

Lemma IsCompleted_true priority0 s :
  IsCompleted priority0 s = true ↔
  ∀ i, i ∈ workItems_ s → priority0 ≤ priority s i → completed s i = true.
Proof. apply IsCompleted_loop_true. Qed.

Lemma IsCompleted_mono priority0 s s' :
  workItems_ s' = workItems_ s →
  (∀ i, i ∈ workItems_ s → priority s' i = priority s i) →
  (∀ i, i ∈ workItems_ s → completed s i = true → completed s' i = true) →
  IsCompleted priority0 s = true → IsCompleted priority0 s' = true.
Proof.
  rewrite !IsCompleted_true. intros Hl Hp Hc Hall i Hi Hle.
  rewrite Hl in Hi. rewrite Hp in Hle by done. auto.
Qed.

(** ** The invariant of the system *)

Lemma mutex_inv_worker s m k w w' s' :
  mutex_inv s m → threads s !! k = Some w →
  threads s' = <[k := w']> (threads s) → index_ w' = index_ w →
  paused_ s' = paused_ s →
  (queueMutex_ s' = queueMutex_ s ∧ (pc w' = WLocked ↔ pc w = WLocked)) ∨
  (queueMutex_ s = None ∧ queueMutex_ s' = Some (WorkerId (index_ w)) ∧ pc w' = WLocked) ∨
  (pc w = WLocked ∧ queueMutex_ s' = None ∧ pc w' ≠ WLocked) →
  mutex_inv s' m.
Proof.
  intros [Hpaused Hunp Hml Hmm Hwl Hwm Hidx] Hk Hth Hi Hp Hcases.
  assert (k < length (threads s))%nat as Hlen by (by eapply lookup_lt_Some).
  assert (∀ k' w'', threads s' !! k' = Some w'' →
            (k' = k ∧ w'' = w') ∨ (k' ≠ k ∧ threads s !! k' = Some w'')) as Hlook.
  { intros k' w''. rewrite Hth. destruct (decide (k' = k)) as [->|Hne].
    - rewrite list_lookup_insert_eq by done. intros [= <-]. by left.
    - rewrite list_lookup_insert_ne by done. by right. }
  assert (threads s' !! k = Some w') as Hk'.
  { rewrite Hth. by rewrite list_lookup_insert_eq. }
  split.
  - rewrite Hp. intros Hpa. specialize (Hpaused Hpa).
    destruct Hcases as [[-> _]|[(Hn & _ & _)|(Hl & _ & _)]]; [done|congruence|].
    specialize (Hwl k w Hk Hl). congruence.
  - by rewrite Hp.
  - intros p Hm. specialize (Hml p Hm).
    destruct Hcases as [[-> _]|[(Hn & _ & _)|(Hl & _ & _)]]; [done|congruence|].
    specialize (Hwl k w Hk Hl). congruence.
  - rewrite Hp. intros Hmx. apply Hmm.
    destruct Hcases as [[<- _]|[(_ & Hn & _)|(_ & Hn & _)]]; [done|congruence|congruence].
  - intros k' w'' Hk'' Hl'. destruct (Hlook k' w'' Hk'') as [[-> ->]|[Hne Hk3]].
    + rewrite Hi. destruct Hcases as [[-> Hl]|[(_ & -> & _)|(_ & _ & Hnl)]]; [|done|done].
      by apply (Hwl k w Hk), Hl.
    + pose proof (Hwl k' w'' Hk3 Hl') as Hw''.
      destruct Hcases as [[-> _]|[(Hn & _ & _)|(Hl & _ & _)]]; [done|congruence|].
      pose proof (Hwl k w Hk Hl) as Hw.
      pose proof (Hidx k' w'' Hk3) as Hi1. pose proof (Hidx k w Hk) as Hi2.
      rewrite Hw in Hw''. injection Hw'' as Heq. lia.
  - intros i Hmi.
    destruct Hcases as [[Hm Hl]|[(_ & Hm & Hl)|(_ & Hm & _)]].
    + rewrite Hm in Hmi. destruct (Hwm i Hmi) as (k0 & w0 & Hk0 & Hl0 & Hi0).
      destruct (decide (k0 = k)) as [->|Hne].
      * assert (w0 = w) as -> by congruence. exists k, w'. split_and!; [done| |congruence].
        by apply Hl.
      * exists k0, w0. split_and!; try done. rewrite Hth.
        by rewrite list_lookup_insert_ne.
    + rewrite Hm in Hmi. injection Hmi as <-. by exists k, w'.
    + congruence.
  - intros k' w'' Hk''. destruct (Hlook k' w'' Hk'') as [[-> ->]|[Hne Hk3]]; [|eauto].
    rewrite Hi. eauto.
Qed.

Lemma in_flight_set_worker σ k w w' s' :
  threads (wq σ) !! k = Some w →
  threads s' = <[k := w']> (threads (wq σ)) →
  option_list (worker_item w) ++ in_flight (mkSystem s' (main σ))
    ≡ₚ option_list (worker_item w') ++ in_flight σ.
Proof.
  intros Hk Hth. unfold in_flight; simpl. rewrite Hth.
  rewrite !(Permutation_app_swap_app (option_list _)).
  f_equiv. by apply omap_insert_perm.
Qed.

(** A worker's step that leaves the store, the queue and the live list alone,
    and holds the same item (or none) before and after. *)
Lemma wq_inv_worker_same σ k w w' s' :
  wq_inv (in_flight σ) (wq σ) →
  threads (wq σ) !! k = Some w →
  threads s' = <[k := w']> (threads (wq σ)) →
  worker_item w' = worker_item w →
  heap s' = heap (wq σ) → queue_ s' = queue_ (wq σ) →
  workItems_ s' = workItems_ (wq σ) →
  wq_inv (in_flight (mkSystem s' (main σ))) s'.
Proof.
  intros Hinv Hk Hth Hitem Hh Hq Hl.
  pose proof (in_flight_set_worker σ k w w' s' Hk Hth) as Hperm.
  rewrite Hitem in Hperm. apply Permutation_app_inv_l in Hperm.
  eapply wq_inv_perm; [symmetry; exact Hperm|]. by eapply wq_inv_ext.
Qed.

Lemma IsCompleted_ext priority0 s s' :
  heap s' = heap s → workItems_ s' = workItems_ s →
  IsCompleted priority0 s' = IsCompleted priority0 s.
Proof.
  intros Hh Hl. unfold IsCompleted. rewrite Hl.
  assert (∀ i, priority s' i = priority s i) as Hp
    by (intros i; unfold priority, deref; by rewrite Hh).
  assert (∀ i, completed s' i = completed s i) as Hc
    by (intros i; unfold completed, deref; by rewrite Hh).
  clear Hl. induction (workItems_ s) as [|i l IH]; cbn [IsCompleted_loop]; [done|].
  by rewrite Hp, Hc, IH.
Qed.

Lemma IsCompleted_write_completed priority0 x s :
  IsCompleted priority0 s = true →
  IsCompleted priority0 (write_completed x true s) = true.
Proof.
  apply IsCompleted_mono; [done| |].
  - intros i _. apply priority_write_completed.
  - intros i _ Hc. rewrite completed_write_completed. by destruct (decide (x = i)).
Qed.

Lemma sys_inv_worker σ k s' :
  sys_inv σ → ProcessItems_step k (wq σ) = Some s' →
  sys_inv (mkSystem s' (main σ)).
Proof.
  intros [Hwq Hmx Hbar]. unfold ProcessItems_step.
  destruct (threads (wq σ) !! k) as [w|] eqn:Hk; [|done].
  destruct (pc w) as [| |x|x|] eqn:Hpc; [| | | |done].
  - (* at the head of the loop *)
    destruct (shutDown_ (wq σ)).
    { intros [= <-]. split; simpl.
      - eapply wq_inv_worker_same; try done. unfold worker_item. by rewrite Hpc.
      - eapply mutex_inv_worker; [done..|]. left. simpl. rewrite Hpc. by split.
      - intros p Hp. erewrite IsCompleted_ext; [by apply Hbar|done..]. }
    destruct (pausing_ (wq σ) && negb (wasActive w)).
    { intros [= <-]. by destruct σ. }
    unfold lock. destruct (queueMutex_ (wq σ)) eqn:Hm; [done|].
    intros [= <-]. split; simpl.
    + eapply wq_inv_worker_same; try done. unfold worker_item. by rewrite Hpc.
    + eapply mutex_inv_worker; [done..|]. right. left. by split_and!.
    + intros p Hp. erewrite IsCompleted_ext; [by apply Hbar|done..].
  - (* holding the mutex *)
    destruct (queue_ (wq σ)) as [|x rest] eqn:Hq.
    { intros [= <-]. split; simpl.
      - eapply wq_inv_worker_same; try done. unfold worker_item. by rewrite Hpc.
      - eapply mutex_inv_worker; [done..|]. right. right. by split_and!.
      - intros p Hp. erewrite IsCompleted_ext; [by apply Hbar|done..]. }
    intros [= <-]. split; simpl.
    + pose proof (in_flight_set_worker σ k w
        (mkWorkerThread (index_ w) true (WRun x)) 
        (set_worker k (mkWorkerThread (index_ w) true (WRun x))
           (unlock (set_queue rest (wq σ)))) Hk eq_refl) as Hperm.
      unfold worker_item at 1 2 in Hperm. rewrite Hpc in Hperm. simpl in Hperm.
      eapply wq_inv_perm; [symmetry; exact Hperm|].
      eapply wq_inv_ext; [| | |by apply (wq_inv_pop _ _ x rest Hwq)]; done.
    + eapply mutex_inv_worker; [done..|]. right. right. by split_and!.
    + intros p Hp. erewrite IsCompleted_ext; [by apply Hbar|done..].
  - (* about to call the work function *)
    intros [= <-]. split; simpl.
    + eapply wq_inv_worker_same; try done. unfold worker_item. by rewrite Hpc.
    + eapply mutex_inv_worker; [done..|]. left. simpl. rewrite Hpc. by split.
    + intros p Hp. erewrite IsCompleted_ext; [by apply Hbar|done..].
  - (* about to set completed_ *)
    intros [= <-]. split; simpl.
    + pose proof (in_flight_set_worker σ k w
        (mkWorkerThread (index_ w) (wasActive w) WIdle)
        (set_worker k (mkWorkerThread (index_ w) (wasActive w) WIdle)
           (write_completed x true (wq σ))) Hk eq_refl) as Hperm.
      unfold worker_item at 1 2 in Hperm. rewrite Hpc in Hperm. simpl in Hperm.
      eapply wq_inv_ext; [| | |apply (wq_inv_mark _ (wq σ) x)]; try done.
      eapply wq_inv_perm; [symmetry; exact Hperm|]. done.
    + eapply mutex_inv_worker; [done..|]. left. simpl. rewrite Hpc. by split.
    + intros p Hp.
      erewrite (IsCompleted_ext _ (write_completed x true (wq σ))); [|done..].
      apply IsCompleted_write_completed. by apply Hbar.
Qed.

Lemma mutex_inv_main s m s' m' :
  mutex_inv s m → threads s' = threads s →
  (paused_ s' = true → queueMutex_ s' = Some MainThread) →
  (main_unpaused m' → paused_ s' = false) →
  (∀ p, m' = MComplete_locked p → queueMutex_ s' = Some MainThread) →
  (queueMutex_ s' = Some MainThread → paused_ s' = true ∨ ∃ p, m' = MComplete_locked p) →
  (queueMutex_ s' = queueMutex_ s ∨
   (queueMutex_ s = None ∧ queueMutex_ s' = Some MainThread) ∨
   (queueMutex_ s = Some MainThread ∧
    (queueMutex_ s' = None ∨ queueMutex_ s' = Some MainThread))) →
  mutex_inv s' m'.
Proof.
  intros [Hpaused Hunp Hml Hmm Hwl Hwm Hidx] Hth H1 H2 H3 H4 Hmx.
  split; try done.
  - rewrite Hth. intros k w Hk Hl. specialize (Hwl k w Hk Hl).
    destruct Hmx as [->|[[? ?]|[? ?]]]; congruence.
  - rewrite Hth. intros i Hi. apply Hwm.
    destruct Hmx as [<-|[[? ?]|[? [?|?]]]]; congruence.
  - by rewrite Hth.
Qed.

(** A step of the main thread that holds no item before or after and leaves
    the store, the queue and the live list alone. *)
Lemma wq_inv_main_same s m s' m' :
  wq_inv (main_item m ++ omap worker_item (threads s)) s →
  main_item m' = main_item m → threads s' = threads s →
  heap s' = heap s → queue_ s' = queue_ s → workItems_ s' = workItems_ s →
  wq_inv (in_flight (mkSystem s' m')) s'.
Proof.
  intros Hinv Hm Hth Hh Hq Hl. unfold in_flight; simpl. rewrite Hm, Hth.
  by eapply wq_inv_ext.
Qed.

Ltac mutex_goal :=
  solve [ done | congruence | left; mutex_goal | right; mutex_goal
        | split; mutex_goal | eexists; mutex_goal ].

Ltac mutex_side :=
  simpl in *; intros;
  repeat match goal with
    | H : True → _ |- _ => specialize (H I)
    | H : ?a = ?a → _ |- _ => specialize (H eq_refl)
    | H : ∀ p, MComplete_locked _ = MComplete_locked p → _ |- _ =>
        specialize (H _ eq_refl)
    | H : ?a = ?b → _, H' : ?a = ?b |- _ => specialize (H H')
    | H : _ ∨ _ |- _ => destruct H
    | H : ∃ _, _ |- _ => destruct H
    end;
  mutex_goal.

Ltac mutex_main := eapply mutex_inv_main; [eassumption|done|..]; mutex_side.

Lemma sys_inv_main σ σ' :
  sys_inv σ → main_step σ = Some σ' → sys_inv σ'.
Proof.
  intros [Hwq Hmx Hbar]. pose proof Hmx as [Hpaused Hunp Hml Hmm Hwl Hwm Hidx].
  unfold in_flight in Hwq. unfold main_step. destruct (main σ) as [| |p|p|p x|p x|p|p|p|] eqn:Hmain; try done.
  - (* Pause: the mutex is taken *)
    unfold Pause_acquire, lock. destruct (queueMutex_ (wq σ)) eqn:Hm; [done|].
    simpl. intros [= <-]. split; simpl.
    + by eapply wq_inv_main_same.
    + mutex_main.
    + by intros p [?|?].
  - (* Complete: head of the drain loop *)
    destruct (queue_ (wq σ)) as [|x rest] eqn:Hq.
    { intros [= <-]. split; simpl.
      - by eapply wq_inv_main_same.
      - mutex_main.
      - by intros q [?|?]. }
    unfold lock. destruct (queueMutex_ (wq σ)) eqn:Hm; [done|].
    simpl. intros [= <-]. split; simpl.
    + by eapply wq_inv_main_same.
    + mutex_main.
    + by intros q [?|?].
  - (* Complete: under the mutex *)
    assert (paused_ (wq σ) = false) as Hnp by (by apply Hunp).
    destruct (queue_ (wq σ)) as [|x rest] eqn:Hq.
    { intros [= <-]. split; simpl.
      - by eapply wq_inv_main_same.
      - mutex_main.
      - by intros q [?|?]. }
    destruct (p <=? priority (wq σ) x).
    + intros [= <-]. split; simpl.
      * unfold in_flight; simpl. simpl in Hwq.
        eapply wq_inv_ext; [| | |apply (wq_inv_pop _ _ x rest Hwq Hq)]; try done.
      * mutex_main.
      * by intros q [?|?].
    + intros [= <-]. split; simpl.
      * by eapply wq_inv_main_same.
      * mutex_main.
      * by intros q [?|?].
  - (* Complete: the work function is called *)
    intros [= <-]. split; simpl.
    + by eapply wq_inv_main_same.
    + mutex_main.
    + by intros q [?|?].
  - (* Complete: completed_ is set *)
    intros [= <-]. split; simpl.
    + unfold in_flight; simpl. simpl in Hwq.
      eapply wq_inv_ext; [| | |apply (wq_inv_mark _ (wq σ) x)]; try done.
    + mutex_main.
    + by intros q [?|?].
  - (* Complete: the busy-wait *)
    destruct (IsCompleted p (wq σ)) eqn:Hc.
    2:{ intros [= <-]. by destruct σ; simpl in *; subst. }
    assert (paused_ (wq σ) = false) as Hnp by (by apply Hunp).
    rewrite Hnp.
    destruct (queue_ (wq σ)) as [|x rest] eqn:Hq.
    + intros [= <-]. split; simpl.
      * by eapply wq_inv_main_same.
      * mutex_main.
      * intros q [[= <-]|?]; [|done].
        by erewrite (IsCompleted_ext _ (wq σ)).
    + intros [= <-]. split; simpl.
      * by eapply wq_inv_main_same.
      * mutex_main.
      * by intros q [?|[= <-]].
  - (* Complete: Pause takes the mutex *)
    unfold Pause_acquire, lock. destruct (queueMutex_ (wq σ)) eqn:Hm; [done|].
    simpl. intros [= <-]. split; simpl.
    + by eapply wq_inv_main_same.
    + mutex_main.
    + intros q [?|[= <-]]; [done|].
      erewrite (IsCompleted_ext _ (wq σ)); [|done..]. apply Hbar. by left.
  - (* Complete: the purge *)
    intros [= <-].
    destruct (PurgeCompleted_fields p (wq σ)) as (Hq & He & Hth & Hms & Hmu & Hpa & Hpg & Hsd).
    split; simpl.
    + unfold in_flight; simpl. simpl in Hwq. rewrite Hth.
      eapply wq_inv_ext; [| | |apply (wq_inv_PurgeCompleted _ p _ Hwq)]; done.
    + eapply mutex_inv_main; [eassumption|exact Hth|..]; simpl;
        rewrite ?Hmu, ?Hpa; mutex_side.
    + by intros q [?|?].
Qed.

Lemma complete_turns_ext prio prio' priority0 q :
  (∀ x, prio' x = prio x) →
  complete_turns prio' priority0 q = complete_turns prio priority0 q.
Proof. intros Hp. induction q as [|x q IH]; simpl; [done|]. by rewrite Hp, IH. Qed.

Lemma Complete_loop_eq priority0 q : ∀ s,
  Complete_loop priority0 q s =
  match complete_turns (priority s) priority0 q with
  | O => s
  | S n => run_items (take (S n) q) 0 (set_queue (drop (S n) q) s)
  end.
Proof.
  induction q as [|x q IH]; intros s; simpl; [done|].
  destruct (priority0 <=? priority s x) eqn:Hle; [|done].
  rewrite IH.
  rewrite (complete_turns_ext (priority s)).
  2:{ intros i. unfold run_item. by rewrite priority_write_completed. }
  destruct (complete_turns (priority s) priority0 q) eqn:Hn; simpl.
  - by rewrite drop_0.
  - done.
Qed.

Lemma complete_turns_spec prio priority0 q :
  (complete_turns prio priority0 q ≤ length q)%nat ∧
  (∀ x, x ∈ take (complete_turns prio priority0 q) q → priority0 ≤ prio x) ∧
  match drop (complete_turns prio priority0 q) q with
  | [] => True
  | x :: _ => prio x < priority0
  end.
Proof.
  induction q as [|x q (Hle & Htake & Hdrop)]; simpl.
  - split_and!; [lia|by intros x ?%elem_of_nil|done].
  - destruct (priority0 <=? prio x) eqn:Hp; simpl.
    + apply Z.leb_le in Hp. split_and!; [lia| |done].
      intros y [->|Hy]%elem_of_cons; auto.
    + apply Z.leb_gt in Hp. split_and!; [lia|by intros y ?%elem_of_nil|done].
Qed.

Lemma Complete_loop_fields priority0 s :
  threads (Complete_loop priority0 (queue_ s) s) = threads s ∧
  queueMutex_ (Complete_loop priority0 (queue_ s) s) = queueMutex_ s ∧
  paused_ (Complete_loop priority0 (queue_ s) s) = paused_ s ∧
  workItems_ (Complete_loop priority0 (queue_ s) s) = workItems_ s.
Proof.
  rewrite Complete_loop_eq. destruct (complete_turns _ _ _); [done|].
  by destruct (run_items_fields (take (S n) (queue_ s)) 0 (set_queue (drop (S n) (queue_ s)) s))
    as (_ & -> & _ & -> & -> & -> & _).
Qed.

Lemma HandleBeginFrame_work_fields usec s :
  threads (HandleBeginFrame_work usec s) = threads s ∧
  queueMutex_ (HandleBeginFrame_work usec s) = queueMutex_ s ∧
  paused_ (HandleBeginFrame_work usec s) = paused_ s.
Proof.
  unfold HandleBeginFrame_work. destruct (has_threads s); [done|].
  rewrite HandleBeginFrame_loop_eq. simpl. destruct (frame_turns _ _ _ _); [done|].
  by destruct (run_items_fields (take (S n) (queue_ s)) 0 (set_queue (drop (S n) (queue_ s)) s))
    as (_ & _ & _ & -> & -> & -> & _).
Qed.

Lemma AddWorkItem_mutex x s s' :
  AddWorkItem (Some x) s = Ret s' →
  if has_threads s
  then paused_ s' = false ∧ queueMutex_ s' = None ∧
       (paused_ s = true ∨ queueMutex_ s = None)
  else paused_ s' = paused_ s ∧ queueMutex_ s' = queueMutex_ s.
Proof.
  unfold AddWorkItem. destruct (decide (x ∈ workItems_ s)); [done|].
  assert (has_threads (write_completed x false (set_workItems (workItems_ s ++ [x]) s))
          = has_threads s) as -> by done.
  simpl. destruct (has_threads s) eqn:Ht, (paused_ s) eqn:Hp; simpl.
  - unfold has_threads in *. simpl. rewrite Ht. intros [= <-]. simpl. auto.
  - unfold lock. simpl. destruct (queueMutex_ s) eqn:Hm; simpl; [done|].
    unfold has_threads in *. simpl. rewrite Ht. intros [= <-]. simpl. auto.
  - unfold has_threads in *. simpl. rewrite Ht. by intros [= <-].
  - unfold has_threads in *. simpl. rewrite Ht. by intros [= <-].
Qed.

Lemma wq_inv_set_queueMutex fl v s : wq_inv fl s → wq_inv fl (set_queueMutex v s).
Proof. by apply wq_inv_ext. Qed.

Lemma sys_inv_call c σ σ' :
  sys_inv σ → call_step c σ = Some σ' → sys_inv σ'.
Proof.
  intros [Hwq Hmx Hbar]. pose proof Hmx as [Hpaused Hunp Hml Hmm Hwl Hwm Hidx].
  unfold in_flight in Hwq. unfold call_step.
  destruct (main σ) eqn:Hmain; try done. simpl in Hwq.
  destruct c as [n| |item|item|items| | |p|usec| |x w].
  - (* CreateThreads *)
    unfold CreateThreads. destruct (has_threads (wq σ)) eqn:Ht.
    { simpl. intros [= <-]. split; simpl; [done| |by intros p [?|?]].
      eapply mutex_inv_main; [eassumption|done|..]; mutex_side. }
    assert (threads (wq σ) = []) as Hnil.
    { unfold has_threads in Ht. by destruct (threads (wq σ)). }
    assert (omap worker_item (map (λ i, mkWorkerThread (S i) false WIdle) (seq 0 n)) = [])
      as Hidle.
    { generalize 0%nat. induction n as [|n IH]; intros j; simpl; [done|]. apply IH. }
    assert (∀ k w,
      map (λ i, mkWorkerThread (S i) false WIdle) (seq 0 n) !! k = Some w →
      w = mkWorkerThread (S k) false WIdle) as Hnew.
    { intros k w. rewrite list_lookup_fmap.
      destruct (seq 0 n !! k) as [j|] eqn:Hj; [|done].
      apply lookup_seq in Hj as [-> _]. simpl. by intros [= <-]. }
    unfold Pause. destruct (paused_ (wq σ)) eqn:Hp.
    + simpl. intros [= <-]. split; simpl; [| |by intros p [?|?]].
      * unfold in_flight. simpl. rewrite Hidle. rewrite Hnil in Hwq. simpl in Hwq.
        eapply wq_inv_ext; [| | |exact Hwq]; done.
      * split; simpl; [mutex_side|mutex_side|mutex_side|mutex_side| |mutex_side|].
        -- intros k w Hk Hl. apply Hnew in Hk. by subst w.
        -- intros k w Hk. apply Hnew in Hk. by subst w.
    + unfold Pause_acquire, Pause_request, lock. simpl.
      destruct (queueMutex_ (wq σ)) eqn:Hm; [done|]. simpl.
      intros [= <-]. split; simpl; [| |by intros p [?|?]].
      * unfold in_flight. simpl. rewrite Hidle. rewrite Hnil in Hwq. simpl in Hwq.
        eapply wq_inv_ext; [| | |exact Hwq]; done.
      * split; simpl; [mutex_side|mutex_side|mutex_side|mutex_side| |mutex_side|].
        -- intros k w Hk Hl. apply Hnew in Hk. by subst w.
        -- intros k w Hk. apply Hnew in Hk. by subst w.
  - (* GetFreeItem *)
    intros [= <-]. split; simpl; [| |by intros p [?|?]].
    + unfold in_flight; simpl.
      replace (threads (GetFreeItem (wq σ)).2) with (threads (wq σ))
        by (unfold GetFreeItem; by destruct (poolItems_ (wq σ))).
      by apply wq_inv_GetFreeItem.
    + eapply mutex_inv_main; [eassumption|..];
        unfold GetFreeItem; destruct (poolItems_ (wq σ)); mutex_side.
  - (* AddWorkItem *)
    destruct (allocated (wq σ) item) eqn:Hal; [|done].
    destruct (AddWorkItem item (wq σ)) as [s'| |] eqn:Hadd; [|done..].
    simpl. intros [= <-]. destruct item as [x|].
    + pose proof (AddWorkItem_mutex _ _ _ Hadd) as Hmu.
      pose proof (AddWorkItem_Ret _ _ _ Hadd) as (_ & _ & _ & _ & _ & Hth & _).
      apply bool_decide_eq_true in Hal.
      split; simpl; [| |by intros p [?|?]].
      * unfold in_flight; simpl. rewrite Hth. by eapply wq_inv_AddWorkItem.
      * destruct (has_threads (wq σ));
          [destruct Hmu as (Hp' & Hm' & Hor)|destruct Hmu as (Hp' & Hm')];
          (eapply mutex_inv_main; [eassumption|done|..]); rewrite ?Hp', ?Hm'; mutex_side.
    + injection Hadd as <-. split; simpl; [eapply wq_inv_ext; [| | |exact Hwq]; done| |by intros p [?|?]].
      eapply mutex_inv_main; [eassumption|done|..]; mutex_side.
  - (* RemoveWorkItem *)
    destruct item as [x|]; simpl.
    2:{ intros [= <-]. split; simpl; [done| |by intros p [?|?]].
        eapply mutex_inv_main; [eassumption|done|..]; mutex_side. }
    unfold lock_guard, lock. destruct (queueMutex_ (wq σ)) eqn:Hm; [done|]. simpl.
    destruct (remove_found x (set_queueMutex (Some MainThread) (wq σ)))
      as [b s1] eqn:Hrem. simpl. intros [= <-].
    pose proof (remove_found_fields _ _ _ _ Hrem) as (Hmu & Hth & Hpa & _).
    simpl in Hmu, Hth, Hpa.
    split; simpl; [| |by intros p [?|?]].
    + unfold in_flight; simpl. rewrite Hth.
      apply wq_inv_set_queueMutex.
      eapply wq_inv_remove_found; [|exact Hrem]. by apply wq_inv_set_queueMutex.
    + eapply mutex_inv_main; [eassumption|exact Hth|..]; simpl; rewrite ?Hpa; mutex_side.
  - (* RemoveWorkItems *)
    unfold RemoveWorkItems, lock_guard, lock.
    destruct (queueMutex_ (wq σ)) eqn:Hm; [done|]. simpl.
    destruct (RemoveWorkItems_loop items 0 (set_queueMutex (Some MainThread) (wq σ)))
      as [b s1] eqn:Hrem. simpl. intros [= <-].
    pose proof (RemoveWorkItems_loop_fields _ _ _ _ _ Hrem) as (Hmu & Hth & Hpa & _).
    simpl in Hmu, Hth, Hpa.
    split; simpl; [| |by intros p [?|?]].
    + unfold in_flight; simpl. rewrite Hth.
      apply wq_inv_set_queueMutex.
      eapply wq_inv_RemoveWorkItems_loop; [|exact Hrem]. by apply wq_inv_set_queueMutex.
    + eapply mutex_inv_main; [eassumption|exact Hth|..]; simpl; rewrite ?Hpa; mutex_side.
  - (* Pause *)
    destruct (paused_ (wq σ)) eqn:Hp.
    { intros [= <-]. split; [by unfold in_flight; rewrite Hmain|by rewrite Hmain|].
      rewrite Hmain. by intros p [?|?]. }
    intros [= <-]. split; simpl; [eapply wq_inv_ext; [| | |exact Hwq]; done| |by intros p [?|?]].
    eapply mutex_inv_main; [eassumption|done|..]; mutex_side.
  - (* Resume *)
    intros [= <-]. unfold Resume. destruct (paused_ (wq σ)) eqn:Hp.
    + split; simpl; [eapply wq_inv_ext; [| | |exact Hwq]; done| |by intros p [?|?]].
      eapply mutex_inv_main; [eassumption|done|..]; mutex_side.
    + split; simpl; [done| |by intros p [?|?]].
      eapply mutex_inv_main; [eassumption|done|..]; mutex_side.
  - (* Complete *)
    destruct (has_threads (wq σ)) eqn:Ht.
    + intros [= <-]. unfold Resume. simpl. destruct (paused_ (wq σ)) eqn:Hp.
      * split; simpl; [eapply wq_inv_ext; [| | |exact Hwq]; done| |by intros q [?|?]].
        eapply mutex_inv_main; [eassumption|done|..]; mutex_side.
      * split; simpl; [eapply wq_inv_ext; [| | |exact Hwq]; done| |by intros q [?|?]].
        eapply mutex_inv_main; [eassumption|done|..]; mutex_side.
    + unfold Complete.
      assert (has_threads (set_completing true (wq σ)) = false) as -> by done.
      simpl. intros [= <-].
      pose (s0 := set_completing true (wq σ)).
      change (Complete_loop p (queue_ (wq σ)) (set_completing true (wq σ)))
        with (Complete_loop p (queue_ s0) s0).
      destruct (Complete_loop_fields p s0) as (Hth1 & Hmu1 & Hpa1 & _).
      set (s1 := Complete_loop p (queue_ s0) s0) in *.
      destruct (PurgeCompleted_fields p s1) as (_ & _ & Hth & _ & Hmu & Hpa & _).
      split; simpl; [| |by intros q [?|?]].
      * unfold in_flight; simpl. rewrite Hth, Hth1.
        apply (wq_inv_ext _ (PurgeCompleted p s1)); try done.
        apply wq_inv_PurgeCompleted. apply wq_inv_Complete_loop; [done|].
        eapply wq_inv_ext; [| | |exact Hwq]; done.
      * eapply mutex_inv_main; [eassumption|etrans; [exact Hth|exact Hth1]|..]; simpl;
          rewrite ?Hmu, ?Hpa, ?Hmu1, ?Hpa1; mutex_side.
  - (* HandleBeginFrame *)
    intros [= <-].
    destruct (HandleBeginFrame_work_fields usec (wq σ)) as (Hth1 & Hmu1 & Hpa1).
    destruct (PurgeCompleted_fields 0 (HandleBeginFrame_work usec (wq σ)))
      as (_ & _ & Hth & _ & Hmu & Hpa & _).
    split; simpl; [| |by intros q [?|?]].
    + unfold in_flight; simpl. rewrite Hth, Hth1.
      apply (wq_inv_ext _ (PurgeCompleted 0 (HandleBeginFrame_work usec (wq σ)))); try done.
      apply wq_inv_PurgeCompleted. unfold HandleBeginFrame_work.
      destruct (has_threads (wq σ)); [done|]. by apply wq_inv_HandleBeginFrame_loop.
    + eapply mutex_inv_main; [eassumption|etrans; [exact Hth|exact Hth1]|..]; simpl;
        rewrite ?Hmu, ?Hpa, ?Hmu1, ?Hpa1; mutex_side.
  - (* the destructor *)
    intros [= <-]. unfold Resume. simpl. destruct (paused_ (wq σ)) eqn:Hp.
    + split; simpl; [eapply wq_inv_ext; [| | |exact Hwq]; done| |by intros q [?|?]].
      eapply mutex_inv_main; [eassumption|done|..]; mutex_side.
    + split; simpl; [eapply wq_inv_ext; [| | |exact Hwq]; done| |by intros q [?|?]].
      eapply mutex_inv_main; [eassumption|done|..]; mutex_side.
  - (* a user write *)
    destruct (bool_decide _) eqn:Hok; [|done].
    apply bool_decide_eq_true in Hok as [Hdom Hx]. intros [= <-].
    split; simpl; [| |by intros q [?|?]].
    + unfold in_flight; simpl. by apply wq_inv_UserWrite.
    + eapply mutex_inv_main; [eassumption|done|..]; mutex_side.
Qed.

Lemma sys_inv_step a σ σ' : sys_inv σ → step a σ = Some σ' → sys_inv σ'.
Proof.
  intros Hinv. destruct a as [c| |k]; simpl.
  - by apply sys_inv_call.
  - by apply sys_inv_main.
  - destruct (ProcessItems_step k (wq σ)) as [s'|] eqn:Hs; [|done].
    intros [= <-]. by eapply sys_inv_worker.
Qed.

Lemma sys_inv_initial h : sys_inv (initial h).
Proof.
  split; simpl.
  - apply wq_inv_initial.
  - by split.
  - by intros p [?|?].
Qed.

Lemma sys_inv_run tr : ∀ σ σ', sys_inv σ → run tr σ = Some σ' → sys_inv σ'.
Proof.
  induction tr as [|a tr IH]; intros σ σ' Hinv; simpl.
  - by intros [= <-].
  - destruct (step a σ) as [σ1|] eqn:Hstep; [|done].
    apply IH. by eapply sys_inv_step.
Qed.

Lemma sys_inv_reachable σ : reachable σ → sys_inv σ.
Proof. intros (h & tr & Hrun). eapply sys_inv_run; [apply sys_inv_initial|done]. Qed.

Lemma run_app tr1 tr2 σ :
  run (tr1 ++ tr2) σ = match run tr1 σ with Some σ1 => run tr2 σ1 | None => None end.
Proof.
  revert σ. induction tr1 as [|a tr1 IH]; intros σ; simpl; [done|].
  destruct (step a σ); [apply IH|done].
Qed.

Lemma reachable_step a σ σ' : reachable σ → step a σ = Some σ' → reachable σ'.
Proof.
  intros (h & tr & Hrun) Hstep. exists h, (tr ++ [a]).
  rewrite run_app, Hrun. simpl. by rewrite Hstep.
Qed.

Lemma wq_inv_combined fl s : wq_inv fl s → combined_inv s.
Proof. intros [Hs Hl Hp _ _ _ _ _]. by split_and!. Qed.

Lemma wq_inv_NoDup fl s : wq_inv fl s → NoDup (workItems_ s) ∧ NoDup (queue_ s).
Proof.
  intros [_ _ _ Hnl Hnq _ _ _]. split; [done|].
  by apply NoDup_app in Hnq as (_ & _ & ?).
Qed.

(** C7. Along every run of the system, each step takes a state with the
    combined invariant to a state with the combined invariant, whatever the
    step is: a call of the main thread ([AddWorkItem], [RemoveWorkItem],
    [RemoveWorkItems], [Complete], the frame hook, and the others), a step
    of the main thread inside [Complete] (its dequeue steps and its
    [PurgeCompleted]), or a step of a worker. The combined invariant says
    that the queue is in non-increasing priority order, that every queued
    item is in the live list and that no queued item is flagged completed;
    so the front item has the largest priority in the queue. [PurgeCompleted]
    with any threshold keeps the invariant of the queue as well. *)
Theorem operations_preserve_combined_inv :
  (∀ σ a σ',
     reachable σ → step a σ = Some σ' →
     combined_inv (wq σ) ∧ combined_inv (wq σ') ∧
     (∀ x rest, queue_ (wq σ') = x :: rest →
                ∀ y, y ∈ rest → priority (wq σ') y ≤ priority (wq σ') x)) ∧
  (∀ fl s priority0,
     wq_inv fl s →
     wq_inv fl (PurgeCompleted priority0 s) ∧ combined_inv (PurgeCompleted priority0 s)).
Proof.
  split.
  - intros σ a σ' Hreach Hstep.
    pose proof (sys_inv_reachable σ Hreach) as Hinv.
    pose proof (sys_inv_step a σ σ' Hinv Hstep) as Hinv'.
    destruct Hinv as [Hwq _ _]. destruct Hinv' as [Hwq' _ _].
    split_and!; [by eapply wq_inv_combined..|].
    intros x rest Hq y Hy. destruct Hwq' as [Hs _ _ _ _ _ _ _].
    unfold queue_sorted in Hs. rewrite Hq in Hs.
    apply StronglySorted_inv in Hs as [_ Hall].
    by eapply Forall_forall in Hall.
  - intros fl s priority0 Hinv.
    pose proof (wq_inv_PurgeCompleted fl priority0 s Hinv) as Hinv'.
    split; [done|]. by eapply wq_inv_combined.
Qed.

(** C8. [AddWorkItem] of an item that is already in the live list fails its
    assertion, and the system has no next state for such a call; so in every
    state the system can get to, neither the live list nor the queue holds
    an item twice. *)
Theorem AddWorkItem_rejects_duplicate :
  (∀ s x, x ∈ workItems_ s → AddWorkItem (Some x) s = AssertFail) ∧
  (∀ σ x, x ∈ workItems_ (wq σ) → step (ACall (CallAddWorkItem (Some x))) σ = None) ∧
  (∀ σ, reachable σ → NoDup (workItems_ (wq σ)) ∧ NoDup (queue_ (wq σ))).
Proof.
  split_and!.
  - intros s x Hx. unfold AddWorkItem. by rewrite decide_True.
  - intros σ x Hx. simpl. unfold call_step. destruct (main σ); try done.
    destruct (allocated (wq σ) (Some x)); [|done].
    unfold AddWorkItem. by rewrite decide_True.
  - intros σ Hreach. destruct (sys_inv_reachable σ Hreach) as [Hwq _ _].
    by eapply wq_inv_NoDup.
Qed.

Lemma example_paused_reachable : reachable example_paused.
Proof.
  exists (items_with_priorities [5; 1; 5; 3]), example_trace_paused. by vm_compute.
Qed.

Lemma example_barrier_reachable : reachable example_barrier.
Proof.
  exists (items_with_priorities [5; 1; 5; 3]), example_trace_barrier. by vm_compute.
Qed.

Lemma operations_preserve_combined_inv_witness :
  ∃ σ',
    step AMain example_barrier = Some σ' ∧
    queue_ (wq example_barrier) = [1%nat] ∧
    combined_inv (wq example_barrier) ∧ combined_inv (wq σ').
Proof.
  assert (∃ σ', step AMain example_barrier = Some σ') as [σ' Hstep].
  { eexists. by vm_compute. }
  destruct (proj1 operations_preserve_combined_inv example_barrier AMain σ'
              example_barrier_reachable Hstep) as (Hinv & Hinv' & _).
  exists σ'. split_and!; try done.
Defined.

Lemma AddWorkItem_rejects_duplicate_witness :
  workItems_ (wq example_paused) = [0%nat] ∧
  AddWorkItem (Some 0%nat) (wq example_paused) = AssertFail ∧
  NoDup (workItems_ (wq example_paused)) ∧ NoDup (queue_ (wq example_paused)).
Proof.
  assert (workItems_ (wq example_paused) = [0%nat]) as Hl by (by vm_compute).
  split_and!; [done| |..].
  - apply (proj1 AddWorkItem_rejects_duplicate). rewrite Hl. left.
  - by apply (proj2 (proj2 AddWorkItem_rejects_duplicate) _ example_paused_reachable).
  - by apply (proj2 (proj2 AddWorkItem_rejects_duplicate) _ example_paused_reachable).
Defined.

(** ** The pause gate *)

Lemma worker_item_in_flight σ k w x :
  threads (wq σ) !! k = Some w → worker_item w = Some x → x ∈ in_flight σ.
Proof.
  intros Hk Hw. unfold in_flight. apply elem_of_app. right.
  apply list_elem_of_omap. exists w. split; [|done]. by eapply list_elem_of_lookup_2.
Qed.

Lemma in_flight_not_queued σ x :
  wq_inv (in_flight σ) (wq σ) → x ∈ in_flight σ → x ∉ queue_ (wq σ).
Proof.
  intros [_ _ _ _ Hnq _ _ _] Hx. apply NoDup_app in Hnq as (_ & Hdisj & _). auto.
Qed.

Lemma paused_worker_step σ k σ' :
  sys_inv σ → paused_ (wq σ) = true → step (AWorker k) σ = Some σ' →
  sys_inv σ' ∧ paused_ (wq σ') = true ∧
  queue_ (wq σ') = queue_ (wq σ) ∧ workItems_ (wq σ') = workItems_ (wq σ) ∧
  (∀ x, x ∈ queue_ (wq σ) → deref (wq σ') x = deref (wq σ) x) ∧
  (∀ e, e ∈ executed (wq σ') → e ∈ executed (wq σ) ∨ e.1 ∉ queue_ (wq σ)).
Proof.
  intros Hinv Hp Hstep. split; [by eapply sys_inv_step|].
  destruct Hinv as [Hwq [Hpaused _ _ _ Hwl _ _] _].
  specialize (Hpaused Hp). revert Hstep. simpl. unfold ProcessItems_step.
  destruct (threads (wq σ) !! k) as [w|] eqn:Hk; [|done].
  destruct (pc w) as [| |x|x|] eqn:Hpc; [| | | |done].
  - destruct (shutDown_ (wq σ)); [intros [= <-]; simpl; by split_and!; auto|].
    destruct (pausing_ (wq σ) && negb (wasActive w));
      [intros [= <-]; simpl; by split_and!; auto|].
    unfold lock. by rewrite Hpaused.
  - specialize (Hwl k w Hk Hpc). congruence.
  - intros [= <-]. simpl. split_and!; try done.
    intros e [He| ->%list_elem_of_singleton]%elem_of_app; [by left|right]. simpl.
    apply in_flight_not_queued; [done|].
    eapply worker_item_in_flight; [done|]. unfold worker_item. by rewrite Hpc.
  - intros [= <-]. simpl. split_and!; try done; [|by left].
    intros y Hy. change (deref (set_worker ?a ?b ?t) y) with (deref t y).
    rewrite deref_write_completed, decide_False; [done|]. intros <-.
    revert Hy. apply in_flight_not_queued; [done|].
    eapply worker_item_in_flight; [done|]. unfold worker_item. by rewrite Hpc.
Qed.

Lemma paused_worker_steps ks : ∀ σ σ',
  sys_inv σ → paused_ (wq σ) = true → run (AWorker <$> ks) σ = Some σ' →
  paused_ (wq σ') = true ∧
  queue_ (wq σ') = queue_ (wq σ) ∧ workItems_ (wq σ') = workItems_ (wq σ) ∧
  (∀ x, x ∈ queue_ (wq σ) → deref (wq σ') x = deref (wq σ) x) ∧
  (∀ e, e ∈ executed (wq σ') → e ∈ executed (wq σ) ∨ e.1 ∉ queue_ (wq σ)).
Proof.
  induction ks as [|k ks IH]; intros σ σ' Hinv Hp; simpl.
  - intros [= <-]. split_and!; auto.
  - destruct (match ProcessItems_step k (wq σ) with
              | Some s' => Some (mkSystem s' (main σ))
              | None => None
              end) as [σ1|] eqn:Hstep; [|done].
    intros Hrun.
    destruct (paused_worker_step σ k σ1 Hinv Hp Hstep)
      as (Hinv1 & Hp1 & Hq1 & Hl1 & Hd1 & He1).
    destruct (IH σ1 σ' Hinv1 Hp1 Hrun) as (Hp' & Hq' & Hl' & Hd' & He').
    rewrite Hq1 in Hq', Hd', He'. rewrite Hl1 in Hl'. split_and!; try done.
    + intros x Hx. rewrite Hd' by done. auto.
    + intros e He. destruct (He' e He) as [?|?]; auto.
Qed.

Lemma pause_ended_by σ a σ' :
  sys_inv σ → paused_ (wq σ) = true → step a σ = Some σ' →
  paused_ (wq σ') = false → ends_pause (wq σ) a.
Proof.
  intros Hinv Hp Hstep Hp'. destruct a as [c| |k].
  - destruct Hinv as [_ [Hpaused _ _ _ _ _ _] _]. specialize (Hpaused Hp).
    revert Hstep. simpl. unfold call_step. destruct (main σ); try done.
    unfold ends_pause.
    destruct c as [n| |[x|]|[x|]|items| | |p|usec| |x w].
    + unfold CreateThreads, Pause. rewrite Hp.
      destruct (has_threads (wq σ)); simpl; intros [= <-]; simpl in Hp'; congruence.
    + intros [= <-]. unfold GetFreeItem in Hp'.
      destruct (poolItems_ (wq σ)); simpl in Hp'; congruence.
    + destruct (allocated _ _); [|done].
      destruct (AddWorkItem (Some x) (wq σ)) as [s'| |] eqn:Hadd; [|done..].
      simpl. intros [= <-]. apply AddWorkItem_mutex in Hadd.
      destruct (has_threads (wq σ)); [eauto 10|]. simpl in Hp'.
      destruct Hadd. congruence.
    + destruct (allocated _ _); [|done]. simpl. intros [= <-]. simpl in Hp'. congruence.
    + simpl. unfold lock_guard, lock. by rewrite Hpaused.
    + simpl. intros [= <-]. simpl in Hp'. congruence.
    + unfold RemoveWorkItems, lock_guard, lock. by rewrite Hpaused.
    + rewrite Hp. intros [= <-]. congruence.
    + auto.
    + destruct (has_threads (wq σ)) eqn:Ht; [eauto 10|].
      unfold Complete.
      assert (has_threads (set_completing true (wq σ)) = false) as -> by done.
      simpl. intros [= <-]. simpl in Hp'.
      destruct (PurgeCompleted_fields p
        (Complete_loop p (queue_ (wq σ)) (set_completing true (wq σ))))
        as (_ & _ & _ & _ & _ & Hpa & _).
      destruct (Complete_loop_fields p (set_completing true (wq σ)))
        as (_ & _ & Hpa1 & _).
      simpl in Hpa1. rewrite Hpa, Hpa1 in Hp'. congruence.
    + intros [= <-]. simpl in Hp'.
      destruct (PurgeCompleted_fields 0 (HandleBeginFrame_work usec (wq σ)))
        as (_ & _ & _ & _ & _ & Hpa & _).
      destruct (HandleBeginFrame_work_fields usec (wq σ)) as (_ & _ & Hpa1).
      rewrite Hpa, Hpa1 in Hp'. congruence.
    + auto.
    + destruct (bool_decide _); [|done]. intros [= <-]. simpl in Hp'. congruence.
  - destruct Hinv as [_ [_ Hunp _ _ _ _ _] _].
    revert Hstep. simpl. unfold main_step.
    destruct (main σ) eqn:Hmain; try done;
      try (specialize (Hunp I); congruence).
    intros [= <-]. simpl in Hp'.
    destruct (PurgeCompleted_fields priority0 (wq σ)) as (_ & _ & _ & _ & _ & Hpa & _).
    congruence.
  - destruct (paused_worker_step σ k σ' Hinv Hp Hstep) as (_ & ? & _). congruence.
Qed.

(** C3 (amended). In every paused state the system can get to, a worker's
    step leaves the queue and the live list as they are, leaves every field
    of every queued item as it is (its [completed_] flag too), runs the entry
    point of no queued item, and leaves the queue paused; the same holds for
    any number of worker steps in a row. A worker that popped an item before
    the pause may still run it and flag it completed. The pause ends only by
    a call of the main thread: [Resume] or the destructor, and, when there
    are worker threads, [AddWorkItem] of a non-null item or [Complete]. *)
Theorem paused_workers_leave_queue :
  (∀ σ k σ',
     reachable σ → paused_ (wq σ) = true → step (AWorker k) σ = Some σ' →
     paused_ (wq σ') = true ∧
     queue_ (wq σ') = queue_ (wq σ) ∧ workItems_ (wq σ') = workItems_ (wq σ) ∧
     (∀ x, x ∈ queue_ (wq σ) → deref (wq σ') x = deref (wq σ) x) ∧
     (∀ e, e ∈ executed (wq σ') → e ∈ executed (wq σ) ∨ e.1 ∉ queue_ (wq σ))) ∧
  (∀ σ ks σ',
     reachable σ → paused_ (wq σ) = true → run (AWorker <$> ks) σ = Some σ' →
     paused_ (wq σ') = true ∧
     queue_ (wq σ') = queue_ (wq σ) ∧ workItems_ (wq σ') = workItems_ (wq σ) ∧
     (∀ x, x ∈ queue_ (wq σ) → deref (wq σ') x = deref (wq σ) x) ∧
     (∀ e, e ∈ executed (wq σ') → e ∈ executed (wq σ) ∨ e.1 ∉ queue_ (wq σ))) ∧
  (∀ σ a σ',
     reachable σ → paused_ (wq σ) = true → step a σ = Some σ' →
     paused_ (wq σ') = false → ends_pause (wq σ) a).
Proof.
  split_and!.
  - intros σ k σ' Hreach Hp Hstep.
    by destruct (paused_worker_step σ k σ' (sys_inv_reachable σ Hreach) Hp Hstep)
      as (_ & ?).
  - intros σ ks σ' Hreach Hp Hrun.
    by apply (paused_worker_steps ks σ σ' (sys_inv_reachable σ Hreach) Hp Hrun).
  - intros σ a σ' Hreach. by apply pause_ended_by, sys_inv_reachable.
Qed.

(** C3, counterexample: a worker that popped item 0 before the main thread
    paused the queue runs it and flags it completed while the queue is
    paused; and item 1, submitted while the queue is paused, is popped, run
    and flagged completed by the worker although [Resume] is never called,
    because [AddWorkItem] itself releases the mutex and clears [paused_]. *)
Lemma worker_completes_item_while_paused :
  ∃ σ1 σ2 σ3,
    run example_trace_paused (initial (items_with_priorities [5; 1; 5; 3]))
      = Some example_paused ∧
    paused_ (wq example_paused) = true ∧
    step (AWorker 0) example_paused = Some σ1 ∧
    step (AWorker 0) σ1 = Some σ2 ∧
    paused_ (wq σ1) = true ∧ paused_ (wq σ2) = true ∧
    executed (wq example_paused) = [] ∧ executed (wq σ1) = [(0, 1)]%nat ∧
    completed (wq σ1) 0 = false ∧ completed (wq σ2) 0 = true ∧
    run [ACall (CallAddWorkItem (Some 1%nat)); AWorker 0; AWorker 0; AWorker 0; AWorker 0] σ2
      = Some σ3 ∧
    completed (wq σ2) 1 = false ∧ completed (wq σ3) 1 = true ∧
    executed (wq σ3) = [(0, 1); (1, 1)]%nat.
Proof. do 3 eexists. split_and!; vm_compute; reflexivity. Qed.

Lemma paused_workers_leave_queue_witness :
  ∃ σ',
    paused_ (wq example_paused) = true ∧
    run (AWorker <$> [0; 0]%nat) example_paused = Some σ' ∧
    paused_ (wq σ') = true ∧ queue_ (wq σ') = queue_ (wq example_paused).
Proof.
  assert (paused_ (wq example_paused) = true) as Hp by (by vm_compute).
  assert (∃ σ', run (AWorker <$> [0; 0]%nat) example_paused = Some σ') as [σ' Hrun].
  { eexists. vm_compute. reflexivity. }
  destruct (proj1 (proj2 paused_workers_leave_queue) example_paused [0; 0]%nat σ'
              example_paused_reachable Hp Hrun) as (Hp' & Hq' & _).
  by exists σ'.
Defined.

(** ** The completion barrier *)

Lemma PurgeCompleted_barrier priority0 s :
  NoDup (workItems_ s) → IsCompleted priority0 s = true →
  IsCompleted priority0 (PurgeCompleted priority0 s) = true ∧
  (∀ i, i ∈ workItems_ (PurgeCompleted priority0 s) →
        priority (PurgeCompleted priority0 s) i < priority0).
Proof.
  intros Hnd Hc. rewrite IsCompleted_true in Hc.
  assert (∀ i, i ∈ workItems_ (PurgeCompleted priority0 s) →
               priority (PurgeCompleted priority0 s) i < priority0) as Hlow.
  { intros i. rewrite PurgeCompleted_eq by done. simpl.
    intros [Hnp Hi]%list_elem_of_filter. unfold priority.
    change (deref (set_workItems ?w ?t) i) with (deref t i).
    rewrite deref_purge_result, decide_False by (by intros [? _]%list_elem_of_filter).
    fold (priority s i). destruct (Z_lt_le_dec (priority s i) priority0) as [?|Hle]; [done|].
    destruct Hnp. split; auto. }
  split; [|done]. apply IsCompleted_true. intros i Hi Hle.
  specialize (Hlow i Hi). lia.
Qed.

Lemma Complete_loop_queue priority0 s :
  queue_ (Complete_loop priority0 (queue_ s) s)
    = drop (complete_turns (priority s) priority0 (queue_ s)) (queue_ s) ∧
  (∀ x, priority (Complete_loop priority0 (queue_ s) s) x = priority s x) ∧
  (∀ x, x ∉ take (complete_turns (priority s) priority0 (queue_ s)) (queue_ s) →
        deref (Complete_loop priority0 (queue_ s) s) x = deref s x).
Proof.
  rewrite Complete_loop_eq.
  destruct (complete_turns (priority s) priority0 (queue_ s)) as [|n] eqn:Hn.
  - by rewrite drop_0.
  - destruct (run_items_fields (take (S n) (queue_ s)) 0
                (set_queue (drop (S n) (queue_ s)) s)) as (-> & _).
    split_and!; [done| |].
    + intros x. by rewrite priority_run_items.
    + intros x Hx. rewrite deref_run_items. by rewrite decide_False.
Qed.

Lemma Complete_loop_barrier priority0 s :
  wq_inv [] s → IsCompleted priority0 (Complete_loop priority0 (queue_ s) s) = true.
Proof.
  intros Hinv.
  pose proof (wq_inv_Complete_loop [] priority0 (queue_ s) s eq_refl Hinv)
    as [Hs _ _ _ _ _ _ Hacc].
  destruct (Complete_loop_queue priority0 s) as (Hq & Hp & _).
  destruct (complete_turns_spec (priority s) priority0 (queue_ s)) as (_ & _ & Hdrop).
  set (s1 := Complete_loop priority0 (queue_ s) s) in *.
  assert (∀ i, i ∈ queue_ s1 → priority s1 i < priority0) as Hlow.
  { unfold queue_sorted in Hs. rewrite Hq in *.
    destruct (drop _ (queue_ s)) as [|x rest]; [by intros i ?%elem_of_nil|].
    apply StronglySorted_inv in Hs as [_ Hall].
    intros i [->|Hi]%elem_of_cons; [by rewrite Hp|].
    eapply Forall_forall in Hall; [|exact Hi]. simpl in Hall. rewrite (Hp x) in Hall. lia. }
  apply IsCompleted_true. intros i Hi Hle.
  destruct (Hacc i Hi) as [Hiq|[?|[]%elem_of_nil]]; [|done].
  specialize (Hlow i Hiq). lia.
Qed.

Lemma Complete_no_threads priority0 s :
  has_threads s = false →
  Complete priority0 s
    = Ret (set_completing false
             (PurgeCompleted priority0
                (Complete_loop priority0 (queue_ s) (set_completing true s)))).
Proof.
  intros Ht. unfold Complete.
  assert (has_threads (set_completing true s) = false) as -> by done. done.
Qed.

Lemma in_flight_no_threads σ :
  has_threads (wq σ) = false → main σ = MReady → in_flight σ = [].
Proof.
  unfold has_threads, in_flight. intros Ht ->. by destruct (threads (wq σ)).
Qed.

(** ** The barrier returns *)

Lemma set_queueMutex_unlock v s :
  queueMutex_ s = None → unlock (set_queueMutex v s) = s.
Proof. destruct s; simpl. by intros ->. Qed.

Lemma set_queue_unlock v q s :
  queueMutex_ s = None → unlock (set_queue q (set_queueMutex v s)) = set_queue q s.
Proof. destruct s; simpl. by intros ->. Qed.

(** With the mutex free and nobody else moving, the drain loop that locks
    does what the plain drain loop does. *)
Lemma Complete_loop_locked_free priority0 q : ∀ s,
  queueMutex_ s = None →
  Complete_loop_locked priority0 q s = Ret (Complete_loop priority0 q s).
Proof.
  induction q as [|x q IH]; intros s Hm; simpl; [done|].
  unfold lock. rewrite Hm. simpl.
  change (priority (set_queueMutex (Some MainThread) s) x) with (priority s x).
  destruct (priority0 <=? priority s x).
  - rewrite set_queue_unlock by done. by apply IH.
  - by rewrite set_queueMutex_unlock.
Qed.

Lemma run_main n σ σ1 :
  main_step σ = Some σ1 → run (replicate (S n) AMain) σ = run (replicate n AMain) σ1.
Proof. intros Hs. simpl. by rewrite Hs. Qed.

(** The steps of the main thread through the drain loop of [Complete]. *)
Lemma Complete_loop_locked_run priority0 q : ∀ s s2,
  queue_ s = q → Complete_loop_locked priority0 q s = Ret s2 →
  ∃ n, run (replicate n AMain) (mkSystem s (MComplete_loop priority0))
       = Some (mkSystem s2 (MComplete_wait priority0)).
Proof.
  induction q as [|x q IH]; intros s s2 Hq; simpl.
  - intros [= <-]. exists 1%nat.
    erewrite run_main; [done|]. unfold main_step; simpl. by rewrite Hq.
  - unfold lock. destruct (queueMutex_ s) eqn:Hm; [done|]. simpl.
    destruct (priority0 <=? priority (set_queueMutex (Some MainThread) s) x) eqn:Hle.
    + intros Hloop. apply IH in Hloop as [n Hrun]; [|done].
      exists (S (S (S (S n)))).
      erewrite run_main; [|unfold main_step, lock; simpl; by rewrite Hq, Hm].
      erewrite run_main; [|unfold main_step; simpl; by rewrite Hq, Hle].
      erewrite run_main; [|unfold main_step; simpl; done].
      erewrite run_main; [|unfold main_step; simpl; done].
      exact Hrun.
    + intros [= <-]. exists 2%nat.
      erewrite run_main; [|unfold main_step, lock; simpl; by rewrite Hq, Hm].
      erewrite run_main; [done|]. unfold main_step; simpl. by rewrite Hq, Hle.
Qed.

(** The steps of the main thread after the drain loop. *)
Lemma Complete_tail_run priority0 s :
  IsCompleted priority0 s = true →
  (queue_ s = [] → paused_ s = false → queueMutex_ s = None) →
  ∃ n s3,
    run (replicate n AMain) (mkSystem s (MComplete_wait priority0))
      = Some (mkSystem (set_completing false (PurgeCompleted priority0 s3)) MReady) ∧
    match queue_ s with [] => Pause s | _ :: _ => Ret s end = Ret s3.
Proof.
  intros Hc Hfree. destruct (queue_ s) as [|x q] eqn:Hq.
  - unfold Pause. destruct (paused_ s) eqn:Hp.
    + exists 2%nat, s. split; [|done].
      erewrite run_main; [|unfold main_step; simpl; by rewrite Hc, Hq, Hp].
      erewrite run_main; [done|]. by unfold main_step.
    + specialize (Hfree eq_refl eq_refl).
      exists 3%nat, (set_pausing false (set_paused true
                      (set_queueMutex (Some MainThread) (Pause_request s)))).
      split.
      * erewrite run_main; [|unfold main_step; simpl; by rewrite Hc, Hq, Hp].
        erewrite run_main;
          [|unfold main_step, Pause_acquire, Pause_request, lock; simpl; by rewrite Hfree].
        erewrite run_main; [done|]. by unfold main_step.
      * unfold Pause_acquire, Pause_request, lock. simpl. by rewrite Hfree.
  - exists 2%nat, s. split; [|done].
    erewrite run_main; [|unfold main_step; simpl; by rewrite Hc, Hq].
    erewrite run_main; [done|]. by unfold main_step.
Qed.

Lemma Complete_tail_fields s s3 :
  match queue_ s with [] => Pause s | _ :: _ => Ret s end = Ret s3 →
  heap s3 = heap s ∧ workItems_ s3 = workItems_ s.
Proof.
  destruct (queue_ s); [|by intros [= <-]].
  unfold Pause. destruct (paused_ s); [by intros [= <-]|].
  unfold Pause_acquire, Pause_request, lock. simpl.
  destruct (queueMutex_ s); [done|]. by intros [= <-].
Qed.

(** The function [Complete] is what the steps of the main thread do when no
    worker moves during the call. *)
Lemma Complete_run_alone priority0 s s' :
  has_threads s = true → Complete priority0 s = Ret s' →
  ∃ n, run (ACall (CallComplete priority0) :: replicate n AMain) (mkSystem s MReady)
       = Some (mkSystem s' MReady).
Proof.
  intros Ht. unfold Complete.
  assert (has_threads (set_completing true s) = true) as -> by done.
  set (s1 := Resume (set_completing true s)).
  destruct (Complete_loop_locked priority0 (queue_ s1) s1) as [s2| |] eqn:Hloop; [|done..].
  simpl. destruct (IsCompleted priority0 s2) eqn:Hc; [|done].
  destruct (Complete_loop_locked_run priority0 (queue_ s1) s1 s2 eq_refl Hloop) as [n1 Hrun1].
  destruct (match queue_ s2 with [] => Pause s2 | _ :: _ => Ret s2 end) as [s3| |] eqn:Hp;
    [|done..].
  simpl. intros [= <-].
  destruct (Complete_tail_run priority0 s2 Hc) as (n2 & s3' & Hrun2 & Hp').
  { intros Hq Hpa. rewrite Hq in Hp. unfold Pause in Hp. rewrite Hpa in Hp.
    unfold Pause_acquire, Pause_request, lock in Hp. simpl in Hp.
    by destruct (queueMutex_ s2). }
  rewrite Hp in Hp'. injection Hp' as <-.
  exists (n1 + n2)%nat.
  change (run (ACall (CallComplete priority0) :: ?tr) (mkSystem s MReady))
    with (match call_step (CallComplete priority0) (mkSystem s MReady) with
          | Some σ' => run tr σ'
          | None => None
          end).
  unfold call_step. simpl. rewrite Ht.
  fold s1. rewrite replicate_add, run_app, Hrun1. exact Hrun2.
Qed.

Lemma run_worker n k σ s' :
  ProcessItems_step k (wq σ) = Some s' →
  run (replicate (S n) (AWorker k)) σ = run (replicate n (AWorker k)) (mkSystem s' (main σ)).
Proof. intros Hs. simpl. by rewrite Hs. Qed.

Lemma settled_trans k σ σ1 σ2 :
  (main σ1 = main σ ∧
   length (threads (wq σ1)) = length (threads (wq σ)) ∧
   (∀ j, j ≠ k → threads (wq σ1) !! j = threads (wq σ) !! j)) →
  settled k σ1 σ2 → settled k σ σ2.
Proof.
  intros (Hm & Hl & Ho) (Hm' & Hl' & Hk' & Ho'). unfold settled.
  split_and!; [congruence|congruence|done|].
  intros j Hj. rewrite Ho' by done. auto.
Qed.

Lemma set_worker_moved k w w' s s1 :
  threads s !! k = Some w → threads s1 = threads s →
  threads (set_worker k w' s1) !! k = Some w' ∧
  length (threads (set_worker k w' s1)) = length (threads s) ∧
  (∀ j, j ≠ k → threads (set_worker k w' s1) !! j = threads s !! j).
Proof.
  intros Hk Hth. simpl. rewrite Hth.
  assert (k < length (threads s))%nat by (by eapply lookup_lt_Some).
  split_and!.
  - by rewrite list_lookup_insert_eq.
  - by rewrite length_insert.
  - intros j Hj. by rewrite list_lookup_insert_ne.
Qed.

Lemma settle_mark σ k w x :
  threads (wq σ) !! k = Some w → pc w = WMark x →
  ∃ n σ', run (replicate n (AWorker k)) σ = Some σ' ∧ settled k σ σ'.
Proof.
  intros Hk Hpc. exists 1%nat. eexists. split.
  - erewrite run_worker; [done|]. unfold ProcessItems_step. by rewrite Hk, Hpc.
  - destruct (set_worker_moved k w (mkWorkerThread (index_ w) (wasActive w) WIdle)
                (wq σ) (write_completed x true (wq σ)) Hk eq_refl) as (Hk' & Hl & Ho).
    split_and!; try done. eexists. split; [exact Hk'|]. by left.
Qed.

Lemma settle_run σ k w x :
  threads (wq σ) !! k = Some w → pc w = WRun x →
  ∃ n σ', run (replicate n (AWorker k)) σ = Some σ' ∧ settled k σ σ'.
Proof.
  intros Hk Hpc.
  destruct (set_worker_moved k w (mkWorkerThread (index_ w) (wasActive w) (WMark x))
              (wq σ) (call_workFunction x (index_ w) (wq σ)) Hk eq_refl) as (Hk' & Hl & Ho).
  set (σ1 := mkSystem (set_worker k (mkWorkerThread (index_ w) (wasActive w) (WMark x))
                         (call_workFunction x (index_ w) (wq σ))) (main σ)).
  destruct (settle_mark σ1 k _ x Hk' eq_refl) as (n & σ' & Hrun & Hset).
  exists (S n), σ'. split.
  - erewrite run_worker; [exact Hrun|]. unfold ProcessItems_step. by rewrite Hk, Hpc.
  - eapply settled_trans; [|exact Hset]. by split_and!.
Qed.

Lemma settle_locked σ k w :
  threads (wq σ) !! k = Some w → pc w = WLocked →
  ∃ n σ', run (replicate n (AWorker k)) σ = Some σ' ∧ settled k σ σ'.
Proof.
  intros Hk Hpc. destruct (queue_ (wq σ)) as [|x rest] eqn:Hq.
  - exists 1%nat. eexists. split.
    + erewrite run_worker; [done|]. unfold ProcessItems_step. by rewrite Hk, Hpc, Hq.
    + destruct (set_worker_moved k w (mkWorkerThread (index_ w) false WIdle)
                  (wq σ) (unlock (wq σ)) Hk eq_refl) as (Hk' & Hl & Ho).
      split_and!; try done. eexists. split; [exact Hk'|]. by left.
  - destruct (set_worker_moved k w (mkWorkerThread (index_ w) true (WRun x))
                (wq σ) (unlock (set_queue rest (wq σ))) Hk eq_refl) as (Hk' & Hl & Ho).
    set (σ1 := mkSystem (set_worker k (mkWorkerThread (index_ w) true (WRun x))
                           (unlock (set_queue rest (wq σ)))) (main σ)).
    destruct (settle_run σ1 k _ x Hk' eq_refl) as (n & σ' & Hrun & Hset).
    exists (S n), σ'. split.
    + erewrite run_worker; [exact Hrun|]. unfold ProcessItems_step. by rewrite Hk, Hpc, Hq.
    + eapply settled_trans; [|exact Hset]. by split_and!.
Qed.

Lemma settle_worker σ k w :
  threads (wq σ) !! k = Some w →
  ∃ n σ', run (replicate n (AWorker k)) σ = Some σ' ∧ settled k σ σ'.
Proof.
  intros Hk. destruct (pc w) as [| |x|x|] eqn:Hpc.
  - exists 0%nat, σ. split; [done|]. split_and!; try done. exists w. split; [done|by left].
  - by eapply settle_locked.
  - by eapply settle_run.
  - by eapply settle_mark.
  - exists 0%nat, σ. split; [done|]. split_and!; try done. exists w. split; [done|by right].
Qed.

Lemma Forall_internal_workers n k : Forall internal (replicate n (AWorker k)).
Proof. apply Forall_replicate. right. by exists k. Qed.

Lemma Forall_internal_main n : Forall internal (replicate n AMain).
Proof. apply Forall_replicate. by left. Qed.

(** The workers can be brought, one after the other, to where they hold
    neither the mutex nor an item. *)
Lemma settle_workers m : ∀ σ,
  ∃ tr σ',
    run tr σ = Some σ' ∧ Forall internal tr ∧ main σ' = main σ ∧
    length (threads (wq σ')) = length (threads (wq σ)) ∧
    (∀ j w, (j < m)%nat → threads (wq σ') !! j = Some w → quiet w).
Proof.
  induction m as [|m IH]; intros σ.
  - exists [], σ. split_and!; try done. intros j w Hj. lia.
  - destruct (IH σ) as (tr & σ1 & Hrun & Hint & Hm & Hl & Hq).
    destruct (threads (wq σ1) !! m) as [w|] eqn:Hk.
    + destruct (settle_worker σ1 m w Hk) as (n & σ2 & Hrun2 & Hm2 & Hl2 & (w' & Hk' & Hq') & Ho).
      exists (tr ++ replicate n (AWorker m)), σ2. split_and!.
      * by rewrite run_app, Hrun.
      * apply Forall_app. split; [done|apply Forall_internal_workers].
      * congruence.
      * congruence.
      * intros j w0 Hj Hw0. destruct (decide (j = m)) as [->|Hne].
        -- congruence.
        -- rewrite Ho in Hw0 by done. apply (Hq j w0); [lia|done].
    + exists tr, σ1. split_and!; try done.
      intros j w0 Hj Hw0. destruct (decide (j = m)) as [->|Hne]; [congruence|].
      apply (Hq j w0); [lia|done].
Qed.

Lemma quiet_no_items (l : list WorkerThread) :
  (∀ j w, l !! j = Some w → quiet w) → omap worker_item l = [].
Proof.
  induction l as [|w l IH]; intros Hq; simpl; [done|].
  assert (worker_item w = None) as ->.
  { unfold worker_item. by destruct (Hq 0%nat w eq_refl) as [->| ->]. }
  apply IH. intros j w' Hj. by apply (Hq (S j) w').
Qed.

(** With every worker quiet and the main thread at the head of the drain
    loop of [Complete], the main thread gets through the call on its own,
    and the barrier holds when it is back. *)
Lemma Complete_returns_when_quiet σ priority0 :
  sys_inv σ → main σ = MComplete_loop priority0 →
  (∀ j w, threads (wq σ) !! j = Some w → quiet w) →
  ∃ n σ', run (replicate n AMain) σ = Some σ' ∧ main σ' = MReady ∧
          IsCompleted priority0 (wq σ') = true.
Proof.
  intros [Hwq [Hpaused Hunp Hml Hmm Hwl Hwm Hidx] Hbar] Hmain Hquiet.
  rewrite Hmain in *. simpl in Hunp. specialize (Hunp I).
  assert (queueMutex_ (wq σ) = None) as Hfree.
  { destruct (queueMutex_ (wq σ)) as [[|i]|] eqn:Hm; [| |done].
    - destruct (Hmm eq_refl) as [?|[p ?]]; congruence.
    - destruct (Hwm i eq_refl) as (k & w & Hk & Hl & _).
      destruct (Hquiet k w Hk) as [?|?]; congruence. }
  unfold in_flight in Hwq. rewrite Hmain, quiet_no_items in Hwq by done. simpl in Hwq.
  pose proof (Complete_loop_locked_free priority0 (queue_ (wq σ)) (wq σ) Hfree) as Hloop.
  destruct (Complete_loop_locked_run priority0 (queue_ (wq σ)) (wq σ) _ eq_refl Hloop)
    as (n1 & Hrun1).
  destruct (Complete_loop_fields priority0 (wq σ)) as (_ & Hmu & Hpa & Hli).
  pose proof (Complete_loop_barrier priority0 (wq σ) Hwq) as Hc1.
  destruct (Complete_tail_run priority0 (Complete_loop priority0 (queue_ (wq σ)) (wq σ)) Hc1)
    as (n2 & s3 & Hrun2 & Hp3).
  { intros _ _. by rewrite Hmu. }
  apply Complete_tail_fields in Hp3 as [Hh3 Hl3].
  exists (n1 + n2)%nat,
    (mkSystem (set_completing false (PurgeCompleted priority0 s3)) MReady).
  split_and!; [|done|].
  - rewrite replicate_add, run_app.
    replace σ with (mkSystem (wq σ) (MComplete_loop priority0))
      by (destruct σ; simpl in *; by subst).
    rewrite Hrun1. exact Hrun2.
  - cbn [wq]. rewrite (IsCompleted_ext priority0 (PurgeCompleted priority0 s3)) by done.
    eapply proj1, PurgeCompleted_barrier.
    + rewrite Hl3, Hli. by destruct Hwq.
    + by rewrite (IsCompleted_ext priority0 _ s3 Hh3 Hl3).
Qed.

(** A call of [Complete] can always return: there are steps of the workers
    and of the main thread after which the main thread is back, and then
    the barrier holds. *)
Lemma Complete_can_return σ priority0 :
  sys_inv σ → main σ = MReady →
  ∃ tr σ',
    Forall internal tr ∧
    run (ACall (CallComplete priority0) :: tr) σ = Some σ' ∧ main σ' = MReady ∧
    IsCompleted priority0 (wq σ') = true.
Proof.
  intros Hinv Hmain.
  destruct (has_threads (wq σ)) eqn:Ht.
  - assert (step (ACall (CallComplete priority0)) σ
            = Some (mkSystem (Resume (set_completing true (wq σ)))
                      (MComplete_loop priority0))) as Hcall.
    { simpl. unfold call_step. by rewrite Hmain, Ht. }
    pose proof (sys_inv_step _ _ _ Hinv Hcall) as Hinv0.
    destruct (settle_workers
                (length (threads (Resume (set_completing true (wq σ)))))
                (mkSystem (Resume (set_completing true (wq σ))) (MComplete_loop priority0)))
      as (tr & σ1 & Hrun & Hint & Hm & Hl & Hq).
    pose proof (sys_inv_run _ _ _ Hinv0 Hrun) as Hinv1.
    destruct (Complete_returns_when_quiet σ1 priority0 Hinv1 Hm)
      as (n & σ' & Hrun' & Hm' & Hc').
    { intros j w Hj. apply (Hq j w); [|done].
      simpl in Hl. rewrite <-Hl. by eapply lookup_lt_Some. }
    exists (tr ++ replicate n AMain), σ'. split_and!; [|..|done|done].
    + apply Forall_app. split; [done|apply Forall_internal_main].
    + change (run (ACall (CallComplete priority0) :: ?t) σ)
        with (match step (ACall (CallComplete priority0)) σ with
              | Some σ0 => run t σ0
              | None => None
              end).
      by rewrite Hcall, run_app, Hrun.
  - destruct Hinv as [Hwq _ _].
    rewrite in_flight_no_threads in Hwq by done.
    exists [], (mkSystem (set_completing false
                           (PurgeCompleted priority0
                              (Complete_loop priority0 (queue_ (wq σ))
                                 (set_completing true (wq σ))))) MReady).
    split_and!; [done| |done|].
    + simpl. unfold call_step. by rewrite Hmain, Ht, Complete_no_threads.
    + cbn [wq].
      rewrite (IsCompleted_ext priority0
                 (PurgeCompleted priority0
                    (Complete_loop priority0 (queue_ (wq σ)) (set_completing true (wq σ)))))
        by done.
      eapply proj1, PurgeCompleted_barrier.
      * destruct (Complete_loop_fields priority0 (set_completing true (wq σ)))
          as (_ & _ & _ & Hl). simpl in Hl. rewrite Hl. by destruct Hwq.
      * apply (Complete_loop_barrier priority0 (set_completing true (wq σ))).
        eapply wq_inv_ext; [| | |exact Hwq]; done.
Qed.

(** ** The barrier *)

(** C2. [IsCompleted(p)] is true exactly when no live item has priority at
    least [p] and is not flagged completed. In every run of the system, when
    a call of [Complete(p)] returns (at once when there are no worker
    threads, after its purge when there are), [IsCompleted(p)] is true and
    every live item of priority at least [p] is flagged completed. Without
    worker threads the call always returns, and every queued item of
    priority below [p] is still in the queue and in the live list, with all
    its fields as they were. With or without worker threads a call can
    always return: from every reachable state in which the main thread is
    free there are steps of the workers and of the main thread that bring
    the call to its end, where [IsCompleted(p)] is true. *)
Theorem Complete_barrier :
  (∀ priority0 s,
     IsCompleted priority0 s = true ↔
     ∀ i, i ∈ workItems_ s → ¬ (priority0 ≤ priority s i ∧ completed s i = false)) ∧
  (∀ σ a σ' priority0,
     reachable σ → Complete_returns priority0 a σ σ' →
     IsCompleted priority0 (wq σ') = true ∧
     (∀ i, i ∈ workItems_ (wq σ') → priority0 ≤ priority (wq σ') i →
           completed (wq σ') i = true)) ∧
  (∀ σ priority0,
     reachable σ → main σ = MReady → has_threads (wq σ) = false →
     ∃ σ',
       Complete_returns priority0 (ACall (CallComplete priority0)) σ σ' ∧
       (∀ x, x ∈ queue_ (wq σ) → priority (wq σ) x < priority0 →
             x ∈ queue_ (wq σ') ∧ x ∈ workItems_ (wq σ') ∧
             deref (wq σ') x = deref (wq σ) x)) ∧
  (∀ σ priority0,
     reachable σ → main σ = MReady →
     ∃ tr σ',
       Forall internal tr ∧
       run (ACall (CallComplete priority0) :: tr) σ = Some σ' ∧
       main σ' = MReady ∧ IsCompleted priority0 (wq σ') = true).
Proof.
  split_and!; [| | |intros σ priority0 Hreach Hm;
                     by apply Complete_can_return; [apply sys_inv_reachable|]].
  - intros priority0 s. rewrite IsCompleted_true. split.
    + intros Hall i Hi [Hle Hc]. rewrite Hall in Hc by done. done.
    + intros Hall i Hi Hle. destruct (completed s i) eqn:Hc; [done|].
      destruct (Hall i Hi). by split.
  - intros σ a σ' priority0 Hreach [Hstep Hret].
    pose proof (sys_inv_reachable σ Hreach) as [Hwq Hmx Hbar].
    assert (IsCompleted priority0 (wq σ') = true) as Hc;
      [|split; [done|by apply IsCompleted_true]].
    destruct Hret as [(-> & Hm & Hm')|[-> Hm]].
    + revert Hstep. simpl. unfold call_step. rewrite Hm.
      destruct (has_threads (wq σ)) eqn:Ht.
      { intros [= <-]. done. }
      rewrite Complete_no_threads by done. simpl. intros [= <-]. simpl.
      rewrite in_flight_no_threads in Hwq by done.
      rewrite (IsCompleted_ext priority0
                 (PurgeCompleted priority0
                    (Complete_loop priority0 (queue_ (wq σ)) (set_completing true (wq σ)))))
        by done.
      eapply proj1, PurgeCompleted_barrier.
      * destruct (Complete_loop_fields priority0 (set_completing true (wq σ)))
          as (_ & _ & _ & Hl). simpl in Hl. rewrite Hl. by destruct Hwq.
      * apply (Complete_loop_barrier priority0 (set_completing true (wq σ))).
        eapply wq_inv_ext; [| | |exact Hwq]; done.
    + revert Hstep. simpl. unfold main_step. rewrite Hm. intros [= <-]. simpl.
      rewrite (IsCompleted_ext priority0 (PurgeCompleted priority0 (wq σ))) by done.
      eapply proj1, PurgeCompleted_barrier; [by destruct Hwq|].
      apply Hbar. by right.
  - intros σ priority0 Hreach Hm Ht.
    pose proof (sys_inv_reachable σ Hreach) as [Hwq Hmx Hbar].
    eexists. split.
    { split; [|left; split_and!; [done|done|]].
      - simpl. unfold call_step. rewrite Hm, Ht.
        rewrite Complete_no_threads by done. simpl. done.
      - done. }
    intros x Hx Hlow. cbn [wq].
    pose (s0 := set_completing true (wq σ)).
    change (Complete_loop priority0 (queue_ (wq σ)) (set_completing true (wq σ)))
      with (Complete_loop priority0 (queue_ s0) s0).
    destruct (Complete_loop_queue priority0 s0) as (Hq & Hp & Hd).
    destruct (Complete_loop_fields priority0 s0) as (_ & _ & _ & Hl).
    destruct (complete_turns_spec (priority s0) priority0 (queue_ s0)) as (_ & Htake & _).
    set (s1 := Complete_loop priority0 (queue_ s0) s0) in *.
    change (queue_ s0) with (queue_ (wq σ)) in *.
    change (workItems_ s0) with (workItems_ (wq σ)) in *.
    assert (∀ i, priority s0 i = priority (wq σ) i) as Hp0 by done.
    assert (∀ i, deref s0 i = deref (wq σ) i) as Hd0 by done.
    assert (x ∉ take (complete_turns (priority s0) priority0 (queue_ (wq σ))) (queue_ (wq σ)))
      as Hnt.
    { intros Hin. specialize (Htake x Hin). rewrite Hp0 in Htake. lia. }
    assert (NoDup (workItems_ s1)) as Hnd by (rewrite Hl; by destruct Hwq).
    assert (¬ purgeable priority0 s1 x) as Hnp.
    { intros [_ Hle]. rewrite Hp, Hp0 in Hle. lia. }
    destruct (PurgeCompleted_fields priority0 s1) as (Hq' & _).
    split_and!.
    + change (queue_ (set_completing false ?t)) with (queue_ t). rewrite Hq', Hq.
      rewrite <-(take_drop (complete_turns (priority s0) priority0 (queue_ (wq σ)))
                   (queue_ (wq σ))) in Hx.
      apply elem_of_app in Hx as [?|?]; done.
    + change (workItems_ (set_completing false ?t)) with (workItems_ t).
      rewrite PurgeCompleted_eq by done.
      change (workItems_ (set_workItems ?w ?t)) with w.
      apply list_elem_of_filter.
      split; [done|]. rewrite Hl. destruct Hwq as [_ Hlive _ _ _ _ _ _]. by apply Hlive.
    + change (deref (set_completing false ?t) x) with (deref t x).
      rewrite PurgeCompleted_eq by done.
      change (deref (set_workItems ?w ?t) x) with (deref t x).
      rewrite deref_purge_result, decide_False by (by intros [? _]%list_elem_of_filter).
      by rewrite Hd, Hd0.
Qed.

Lemma Complete_barrier_witness :
  ∃ σ',
    Complete_returns 3 AMain example_barrier σ' ∧
    IsCompleted 3 (wq σ') = true ∧
    queue_ (wq σ') = [1%nat] ∧ workItems_ (wq σ') = [1%nat] ∧
    completed (wq σ') 1 = false.
Proof.
  assert (∃ σ', step AMain example_barrier = Some σ') as [σ' Hstep].
  { eexists. vm_compute. reflexivity. }
  assert (Complete_returns 3 AMain example_barrier σ') as Hret.
  { split; [done|]. right. split; [done|]. vm_compute. reflexivity. }
  destruct (proj1 (proj2 Complete_barrier) example_barrier AMain σ' 3
              example_barrier_reachable Hret) as (Hc & _).
  exists σ'. split_and!; [done|done|..].
  - assert (queue_ ∘ wq <$> step AMain example_barrier = Some [1%nat]) as Hq
      by (vm_compute; reflexivity).
    rewrite Hstep in Hq. by injection Hq.
  - assert (workItems_ ∘ wq <$> step AMain example_barrier = Some [1%nat]) as Hl
      by (vm_compute; reflexivity).
    rewrite Hstep in Hl. by injection Hl.
  - assert ((λ σ, completed (wq σ) 1) <$> step AMain example_barrier = Some false) as Hl
      by (vm_compute; reflexivity).
    rewrite Hstep in Hl. by injection Hl.
Defined.

(** * Further properties of the work queue *)

(** ** Creating the worker threads *)

Lemma has_threads_nil s : has_threads s = false ↔ threads s = [].
Proof. unfold has_threads. by destruct (threads s). Qed.

Lemma mutex_free_without_threads σ :
  sys_inv σ → main σ = MReady → has_threads (wq σ) = false →
  paused_ (wq σ) = false → queueMutex_ (wq σ) = None.
Proof.
  intros [_ [_ _ _ Hmm _ Hwm _] _] Hm Ht%has_threads_nil Hp.
  destruct (queueMutex_ (wq σ)) as [[|i]|] eqn:Hmx; [| |done].
  - destruct (Hmm eq_refl) as [?|[p ?]]; congruence.
  - destruct (Hwm i eq_refl) as (k & w & Hk & _). by rewrite Ht in Hk.
Qed.

(** X1. [CreateThreads] does nothing when worker threads exist. Otherwise it
    pauses the queue and starts [numThreads] workers with the indices
    1, 2, ..., each at the head of its loop; the queue, the live list, the
    pool and the items are as before, and when at least one worker was
    started a further call changes nothing. The call waits when the mutex
    is held and the queue is not paused; in a state the system can reach
    with the main thread free that never happens. *)
Theorem CreateThreads_once :
  (∀ n s, has_threads s = true → CreateThreads n s = Ret s) ∧
  (∀ n s,
     has_threads s = false → paused_ s = true ∨ queueMutex_ s = None →
     ∃ s',
       CreateThreads n s = Ret s' ∧
       length (threads s') = n ∧
       (∀ k w, threads s' !! k = Some w →
               index_ w = S k ∧ wasActive w = false ∧ pc w = WIdle) ∧
       paused_ s' = true ∧
       (paused_ s = false → queueMutex_ s' = Some MainThread ∧ pausing_ s' = false) ∧
       (paused_ s = true → queueMutex_ s' = queueMutex_ s) ∧
       queue_ s' = queue_ s ∧ workItems_ s' = workItems_ s ∧
       poolItems_ s' = poolItems_ s ∧ heap s' = heap s ∧
       ((0 < n)%nat → ∀ m, CreateThreads m s' = Ret s')) ∧
  (∀ n s,
     has_threads s = false → paused_ s = false → queueMutex_ s ≠ None →
     CreateThreads n s = Blocked) ∧
  (∀ σ n,
     reachable σ → main σ = MReady →
     ∃ σ', step (ACall (CallCreateThreads n)) σ = Some σ' ∧ main σ' = MReady).
Proof.
  assert (∀ n s,
     has_threads s = false → paused_ s = true ∨ queueMutex_ s = None →
     ∃ s1, Pause s = Ret s1 ∧
       CreateThreads n s
         = Ret (set_threads (map (λ i, mkWorkerThread (S i) false WIdle) (seq 0 n)) s1) ∧
       paused_ s1 = true ∧
       (paused_ s = false → queueMutex_ s1 = Some MainThread ∧ pausing_ s1 = false) ∧
       (paused_ s = true → s1 = s) ∧
       queue_ s1 = queue_ s ∧ workItems_ s1 = workItems_ s ∧
       poolItems_ s1 = poolItems_ s ∧ heap s1 = heap s) as Hcreate.
  { intros n s Ht Hfree. unfold CreateThreads, Pause. rewrite Ht.
    destruct (paused_ s) eqn:Hp.
    - exists s. by split_and!.
    - destruct Hfree as [?|Hfree]; [done|].
      unfold Pause_acquire, Pause_request, lock. simpl. rewrite Hfree. simpl.
      eexists. split_and!; done. }
  split_and!.
  - intros n s Ht. unfold CreateThreads. by rewrite Ht.
  - intros n s Ht Hfree.
    destruct (Hcreate n s Ht Hfree) as (s1 & _ & -> & Hp1 & Hm1 & Hs1 & Hq & Hl & Hpo & Hh).
    eexists. split; [done|]. simpl. split_and!; try done.
    + by rewrite length_map, length_seq.
    + intros k w Hk. apply list_lookup_fmap_Some in Hk as (i & -> & Hi).
      apply lookup_seq in Hi as [-> _]. done.
    + intros Hp. by rewrite (Hs1 Hp).
    + intros Hn m. unfold CreateThreads, has_threads. simpl.
      destruct n as [|n]; [lia|]. done.
  - intros n s Ht Hp Hm. unfold CreateThreads, Pause. rewrite Ht, Hp.
    unfold Pause_acquire, Pause_request, lock. simpl.
    by destruct (queueMutex_ s).
  - intros σ n Hreach Hm. pose proof (sys_inv_reachable σ Hreach) as Hinv.
    simpl. unfold call_step. rewrite Hm.
    destruct (has_threads (wq σ)) eqn:Ht.
    + unfold CreateThreads. rewrite Ht. by eexists.
    + destruct (Hcreate n (wq σ) Ht) as (s1 & _ & -> & _).
      { destruct (paused_ (wq σ)) eqn:Hp; [by left|right].
        by apply mutex_free_without_threads. }
      by eexists.
Qed.

Lemma CreateThreads_once_witness :
  ∃ s',
    CreateThreads 2 (WorkQueue_new ∅) = Ret s' ∧
    length (threads s') = 2%nat ∧ paused_ s' = true ∧
    CreateThreads 4 s' = Ret s'.
Proof.
  destruct (proj1 (proj2 CreateThreads_once) 2%nat (WorkQueue_new ∅) eq_refl
              (or_intror eq_refl))
    as (s' & Hc & Hl & _ & Hp & _ & _ & _ & _ & _ & _ & Hagain).
  exists s'. split_and!; [done|done|done|]. apply Hagain. lia.
Defined.

(** ** The set of worker threads *)

Lemma lock_guard_fields {A} (body : WorkQueue → A * WorkQueue) s a s' :
  (∀ s0 a0 s1, body s0 = (a0, s1) → threads s1 = threads s0 ∧ shutDown_ s1 = shutDown_ s0) →
  lock_guard body s = Ret (a, s') →
  threads s' = threads s ∧ shutDown_ s' = shutDown_ s.
Proof.
  intros Hbody. unfold lock_guard, lock. destruct (queueMutex_ s); [done|]. simpl.
  destruct (body _) as [a0 s1] eqn:Hb. intros [= <- <-].
  destruct (Hbody _ _ _ Hb) as [H1 H2]. simpl in *. by rewrite H1, H2.
Qed.

Lemma call_step_threads c σ σ' :
  call_step c σ = Some σ' →
  (threads (wq σ') = threads (wq σ) ∧
   (shutDown_ (wq σ') = shutDown_ (wq σ) ∨ c = CallDestroy)) ∨
  (∃ n, c = CallCreateThreads n ∧ has_threads (wq σ) = false ∧
        shutDown_ (wq σ') = shutDown_ (wq σ)).
Proof.
  unfold call_step. destruct (main σ); try done. destruct c as [n| |item|item|items| | |p|usec| |x w].
  - unfold CreateThreads. destruct (has_threads (wq σ)) eqn:Ht.
    + intros [= <-]. left. by split; [|left].
    + intros Hs. right. exists n. split_and!; [done|done|].
      unfold Pause in Hs. destruct (paused_ (wq σ)).
      * simpl in Hs. by injection Hs as <-.
      * unfold Pause_acquire, Pause_request, lock in Hs. simpl in Hs.
        destruct (queueMutex_ (wq σ)); [done|]. simpl in Hs. by injection Hs as <-.
  - intros [= <-]. left. simpl. unfold GetFreeItem.
    by destruct (poolItems_ (wq σ)); (split; [|left]).
  - destruct (allocated (wq σ) item); [|done].
    destruct (AddWorkItem item (wq σ)) as [s'| |] eqn:Ha; [|done..].
    intros [= <-]. left. simpl. destruct item as [x|].
    + apply AddWorkItem_Ret in Ha as (_ & _ & _ & _ & _ & -> & _ & _ & -> & _).
      by split; [|left].
    + injection Ha as <-. by split; [|left].
  - destruct item as [x|]; simpl.
    + destruct (lock_guard (remove_found x) (wq σ)) as [[b s']| |] eqn:Hr; [|done..].
      intros [= <-]. left. simpl. apply lock_guard_fields in Hr as [-> ->]; [by split; [|left]|].
      intros s0 a0 s1 Hb.
      by apply remove_found_fields in Hb as (_ & -> & _ & _ & -> & _).
    + intros [= <-]. left. by split; [|left].
  - unfold RemoveWorkItems.
    destruct (lock_guard _ (wq σ)) as [[b s']| |] eqn:Hr; [|done..].
    intros [= <-]. left. simpl. apply lock_guard_fields in Hr as [-> ->]; [by split; [|left]|].
    intros s0 a0 s1 Hb.
    by apply RemoveWorkItems_loop_fields in Hb as (_ & -> & _ & _ & -> & _).
  - destruct (paused_ (wq σ)); intros [= <-]; left; by split; [|left].
  - intros [= <-]. left. simpl. unfold Resume.
    by destruct (paused_ (wq σ)); (split; [|left]).
  - destruct (has_threads (wq σ)) eqn:Ht.
    + intros [= <-]. left. simpl. unfold Resume. simpl.
      by destruct (paused_ (wq σ)); (split; [|left]).
    + rewrite Complete_no_threads by done. intros [= <-]. left. simpl.
      destruct (PurgeCompleted_fields p
                  (Complete_loop p (queue_ (wq σ)) (set_completing true (wq σ))))
        as (_ & _ & -> & _ & _ & _ & _ & ->).
      change (queue_ (wq σ)) with (queue_ (set_completing true (wq σ))).
      rewrite Complete_loop_eq.
      destruct (complete_turns _ _ _); [by split; [|left]|].
      by destruct (run_items_fields
                     (take (S n) (queue_ (set_completing true (wq σ)))) 0
                     (set_queue (drop (S n) (queue_ (set_completing true (wq σ))))
                        (set_completing true (wq σ))))
        as (_ & _ & _ & -> & _ & _ & _ & -> & _); (split; [|left]).
  - intros [= <-]. left. simpl.
    unfold HandleBeginFrame, PurgePool. simpl.
    destruct (PurgeCompleted_fields 0 (HandleBeginFrame_work usec (wq σ)))
      as (_ & _ & -> & _ & _ & _ & _ & ->).
    unfold HandleBeginFrame_work. destruct (has_threads (wq σ)); [by split; [|left]|].
    rewrite HandleBeginFrame_loop_eq. simpl.
    destruct (frame_turns _ _ _ _); [by split; [|left]|].
    by destruct (run_items_fields
                   (take (S n) (queue_ (wq σ))) 0
                   (set_queue (drop (S n) (queue_ (wq σ))) (wq σ)))
      as (_ & _ & _ & -> & _ & _ & _ & -> & _); (split; [|left]).
  - intros [= <-]. left. simpl. unfold Resume. simpl.
    by destruct (paused_ (wq σ)); (split; [|right]).
  - destruct (bool_decide _); [|done]. intros [= <-]. left. by split; [|left].
Qed.

Lemma main_step_threads σ σ' :
  main_step σ = Some σ' →
  threads (wq σ') = threads (wq σ) ∧ shutDown_ (wq σ') = shutDown_ (wq σ).
Proof.
  unfold main_step, Pause_acquire, lock.
  destruct (main σ) as [| |p|p|p x|p x|p|p|p|]; try done.
  - destruct (queueMutex_ (wq σ)); [done|]. by intros [= <-].
  - destruct (queue_ (wq σ)); [by intros [= <-]|].
    destruct (queueMutex_ (wq σ)); [done|]. by intros [= <-].
  - destruct (queue_ (wq σ)) as [|x rest]; [by intros [= <-]|].
    by destruct (p <=? priority (wq σ) x); intros [= <-].
  - by intros [= <-].
  - by intros [= <-].
  - destruct (IsCompleted p (wq σ)); [|by intros [= <-]].
    destruct (queue_ (wq σ)); [|by intros [= <-]].
    by destruct (paused_ (wq σ)); intros [= <-].
  - destruct (queueMutex_ (wq σ)); [done|]. by intros [= <-].
  - intros [= <-]. simpl.
    by destruct (PurgeCompleted_fields p (wq σ)) as (_ & _ & -> & _ & _ & _ & _ & ->).
Qed.

Lemma worker_step_threads k s s' :
  ProcessItems_step k s = Some s' →
  shutDown_ s' = shutDown_ s ∧
  ((s' = s ∧ ∃ w, threads s !! k = Some w ∧ pc w = WIdle) ∨
   ∃ w w', threads s !! k = Some w ∧ threads s' = <[k := w']> (threads s) ∧
           index_ w' = index_ w ∧ pc w ≠ WStopped ∧
           (pc w' = WStopped → shutDown_ s = true)).
Proof.
  unfold ProcessItems_step. destruct (threads s !! k) as [w|] eqn:Hk; [|done].
  destruct (pc w) as [| |x|x|] eqn:Hpc; [| | | |done].
  - destruct (shutDown_ s) eqn:Hsd.
    { intros [= <-]. split; [done|]. right. exists w. eexists.
      split_and!; [done|done|done|congruence|done]. }
    destruct (pausing_ s && negb (wasActive w)).
    { intros [= <-]. split; [done|]. left. split; [done|]. by exists w. }
    unfold lock. destruct (queueMutex_ s); [done|]. intros [= <-]. split; [done|].
    right. exists w. eexists. split_and!; [done|done|done|congruence|done].
  - destruct (queue_ s); intros [= <-]; (split; [done|]);
      right; exists w; eexists; (split_and!; [done|done|done|congruence|done]).
  - intros [= <-]. split; [done|].
    right. exists w. eexists. split_and!; [done|done|done|congruence|done].
  - intros [= <-]. split; [done|].
    right. exists w. eexists. split_and!; [done|done|done|congruence|done].
Qed.

Lemma step_worker_indices a σ σ' :
  step a σ = Some σ' → has_threads (wq σ) = true →
  index_ <$> threads (wq σ') = index_ <$> threads (wq σ).
Proof.
  intros Hstep Ht. destruct a as [c| |k]; simpl in Hstep.
  - apply call_step_threads in Hstep as [[-> _]|(n & _ & Hf & _)]; [done|congruence].
  - by apply main_step_threads in Hstep as [-> _].
  - destruct (ProcessItems_step k (wq σ)) as [s'|] eqn:Hs; [|done].
    injection Hstep as <-. simpl.
    apply worker_step_threads in Hs as [_ [[-> _]|(w & w' & Hk & -> & Hi & _)]]; [done|].
    rewrite list_fmap_insert, Hi. apply list_insert_id.
    by rewrite list_lookup_fmap, Hk.
Qed.

Lemma has_threads_indices s s' :
  index_ <$> threads s' = index_ <$> threads s → has_threads s' = has_threads s.
Proof.
  unfold has_threads. destruct (threads s), (threads s'); done.
Qed.

(** X2. Once worker threads exist, their number and their indices are fixed:
    no call, no step of the main thread and no step of a worker changes
    them, whatever the run. *)
Theorem worker_threads_fixed tr : ∀ σ σ',
  has_threads (wq σ) = true → run tr σ = Some σ' →
  index_ <$> threads (wq σ') = index_ <$> threads (wq σ) ∧
  length (threads (wq σ')) = length (threads (wq σ)).
Proof.
  assert (∀ σ σ', has_threads (wq σ) = true → run tr σ = Some σ' →
                  index_ <$> threads (wq σ') = index_ <$> threads (wq σ)) as Hidx.
  { induction tr as [|a tr IH]; intros σ σ' Ht; simpl.
    - by intros [= <-].
    - destruct (step a σ) as [σ1|] eqn:Hstep; [|done]. intros Hrun.
      pose proof (step_worker_indices a σ σ1 Hstep Ht) as H1.
      rewrite <-H1. apply IH; [|done].
      by rewrite (has_threads_indices _ _ H1). }
  intros σ σ' Ht Hrun. specialize (Hidx σ σ' Ht Hrun). split; [done|].
  apply (f_equal length) in Hidx. by rewrite !length_fmap in Hidx.
Qed.

Lemma worker_threads_fixed_witness :
  ∃ σ1 σ',
    run [ACall (CallCreateThreads 2)] (initial (items_with_priorities [5; 1; 5; 3]))
      = Some σ1 ∧
    run [ACall (CallAddWorkItem (Some 0%nat)); AWorker 1; AWorker 1;
         ACall (CallCreateThreads 5); AWorker 1; ACall (CallComplete 0); AMain]
        σ1 = Some σ' ∧
    index_ <$> threads (wq σ1) = [1; 2]%nat ∧
    index_ <$> threads (wq σ') = [1; 2]%nat.
Proof.
  assert (∃ σ1, run [ACall (CallCreateThreads 2)]
                  (initial (items_with_priorities [5; 1; 5; 3])) = Some σ1 ∧
                has_threads (wq σ1) = true ∧
                index_ <$> threads (wq σ1) = [1; 2]%nat ∧
                ∃ σ', run [ACall (CallAddWorkItem (Some 0%nat)); AWorker 1; AWorker 1;
                           ACall (CallCreateThreads 5); AWorker 1; ACall (CallComplete 0);
                           AMain] σ1 = Some σ')
    as (σ1 & Hrun1 & Ht & Hi & σ' & Hrun).
  { eexists. split; [vm_compute; reflexivity|]. split; [vm_compute; reflexivity|].
    split; [vm_compute; reflexivity|]. eexists. vm_compute. reflexivity. }
  exists σ1, σ'. split_and!; [done|done|done|].
  destruct (worker_threads_fixed _ σ1 σ' Ht Hrun) as [-> _]. done.
Defined.

(** ** The pool of work items *)

(** X3. [GetFreeItem] hands out the oldest item of the pool and takes it off
    the pool, leaving every item as it is. With an empty pool it allocates:
    the item it returns is a newly constructed one at an address not in use
    before, with [pooled_] set, no other item changes, the pool stays empty, and
    when every live item is allocated the new item is not live, so it can be
    submitted. Items come out of the pool in the order [ReturnToPool] put
    them in. *)
Theorem GetFreeItem_reuses_or_allocates :
  (∀ s item rest,
     poolItems_ s = item :: rest →
     GetFreeItem s = (item, set_poolItems rest s)) ∧
  (∀ s,
     poolItems_ s = [] →
     ∃ item s',
       GetFreeItem s = (item, s') ∧
       (item ∉ dom (heap s)) ∧ item ∈ dom (heap s') ∧
       deref s' item = WorkItem_set_pooled true WorkItem_new ∧
       pooled_ (deref s' item) = true ∧
       (∀ i, i ≠ item → deref s' i = deref s i) ∧
       (∀ i, i ∈ dom (heap s) → i ∈ dom (heap s')) ∧
       poolItems_ s' = [] ∧ queue_ s' = queue_ s ∧ workItems_ s' = workItems_ s ∧
       ((∀ x, x ∈ workItems_ s → x ∈ dom (heap s)) →
        (item ∉ workItems_ s') ∧ AddWorkItem (Some item) s' ≠ AssertFail)) ∧
  (∀ s x,
     pooled_ (deref s x) = true →
     fst (GetFreeItem (ReturnToPool x s)) = hd x (poolItems_ s) ∧
     poolItems_ (snd (GetFreeItem (ReturnToPool x s))) = tl (poolItems_ s ++ [x])).
Proof.
  split_and!.
  - intros s item rest Hp. unfold GetFreeItem. by rewrite Hp.
  - intros s Hp. unfold GetFreeItem. rewrite Hp.
    pose proof (is_fresh (dom (heap s))) as Hfresh.
    set (item := fresh (dom (heap s))) in *.
    eexists _, _. split; [done|]. simpl.
    assert (deref (set_heap (<[item:=WorkItem_set_pooled true WorkItem_new]> (heap s)) s) item
            = WorkItem_set_pooled true WorkItem_new) as Hd.
    { unfold deref. simpl. by rewrite lookup_total_insert_eq. }
    split_and!; try done.
    + rewrite dom_insert. set_solver.
    + by rewrite Hd.
    + intros i Hi. unfold deref. simpl. by rewrite lookup_total_insert_ne.
    + intros i Hi. rewrite dom_insert. set_solver.
    + intros Halloc.
      assert (item ∉ workItems_ s) as Hnl by (intros Hin; by apply Hfresh, Halloc).
      split; [done|]. unfold AddWorkItem. simpl. rewrite decide_False by done.
      destruct (has_threads _ && negb _); simpl; [|done].
      unfold lock. by destruct (queueMutex_ _).
  - intros s x Hx. unfold ReturnToPool. rewrite Hx. unfold GetFreeItem. simpl.
    by destruct (poolItems_ s).
Qed.

Lemma GetFreeItem_reuses_or_allocates_witness :
  ∃ item s',
    GetFreeItem example_four_submitted = (item, s') ∧
    item = 4%nat ∧ (item ∉ workItems_ s') ∧ pooled_ (deref s' item) = true.
Proof.
  destruct (proj1 (proj2 GetFreeItem_reuses_or_allocates) example_four_submitted eq_refl)
    as (item & s' & Hg & _ & _ & _ & Hpooled & _ & _ & _ & _ & _ & Hnew).
  exists item, s'. split_and!; [done| |apply Hnew|done].
  - assert (fst (GetFreeItem example_four_submitted) = 4%nat) as H4
      by (vm_compute; reflexivity).
    by rewrite Hg in H4.
  - intros x Hx. destruct example_four_submitted_lists as (_ & Hl & _).
    rewrite Hl in Hx. apply elem_of_dom.
    repeat (apply elem_of_cons in Hx as [->|Hx]; [eexists; vm_compute; reflexivity|]).
    by apply elem_of_nil in Hx.
Defined.

(** ** Submission *)

(** X4. A null item is logged and nothing else happens; the mutex is not
    touched, so the call returns also while the queue is paused. A
    submission that returns puts the item at the back of the live list and
    once more in the queue, clears its [completed_] flag and leaves its
    other fields, every other item, the pool and the logs as they are. With
    worker threads the queue is not paused afterwards and the mutex is free,
    whatever they were; without worker threads neither changes. With worker
    threads and the queue not paused the call waits for the mutex. *)
Theorem AddWorkItem_effects :
  (∀ s, AddWorkItem None s = Ret (set_errors (S (errors s)) s)) ∧
  (∀ s x s',
     AddWorkItem (Some x) s = Ret s' →
     workItems_ s' = workItems_ s ++ [x] ∧
     queue_ s' ≡ₚ x :: queue_ s ∧
     deref s' x = WorkItem_set_completed false (deref s x) ∧
     completed s' x = false ∧
     (∀ i, i ≠ x → deref s' i = deref s i) ∧
     poolItems_ s' = poolItems_ s ∧ executed s' = executed s ∧
     events s' = events s ∧ errors s' = errors s ∧
     (has_threads s = true → paused_ s' = false ∧ queueMutex_ s' = None) ∧
     (has_threads s = false →
      paused_ s' = paused_ s ∧ queueMutex_ s' = queueMutex_ s)) ∧
  (∀ s x,
     x ∉ workItems_ s → has_threads s = true → paused_ s = false →
     queueMutex_ s ≠ None → AddWorkItem (Some x) s = Blocked).
Proof.
  split_and!.
  - done.
  - intros s x s' Ha.
    pose proof (AddWorkItem_mutex x s s' Ha) as Hmx.
    pose proof (AddWorkItem_Ret x s s' Ha) as (Hnl & Hl & Hq & Hh & Hp & Hth & He & Hev & _).
    assert (deref s' x = WorkItem_set_completed false (deref s x)) as Hd.
    { unfold deref at 1. by rewrite Hh, lookup_total_insert_eq. }
    split_and!; try done.
    + rewrite Hq. destruct (queue_insert_split s x (queue_ s)) as (b & a & -> & -> & _).
      by rewrite Permutation_middle.
    + unfold completed. by rewrite Hd.
    + intros i Hi. unfold deref. by rewrite Hh, lookup_total_insert_ne.
    + revert Ha. unfold AddWorkItem. rewrite decide_False by done.
      destruct (has_threads _ && negb _); simpl.
      * unfold lock. simpl. destruct (queueMutex_ s); [done|]. simpl.
        intros [= <-]. by destruct (has_threads _).
      * intros [= <-]. by destruct (has_threads _).
    + intros Ht. rewrite Ht in Hmx. by destruct Hmx as (? & ? & _).
    + intros Ht. by rewrite Ht in Hmx.
  - intros s x Hnl Ht Hp Hm. unfold AddWorkItem. rewrite decide_False by done.
    assert (has_threads (write_completed x false (set_workItems (workItems_ s ++ [x]) s))
            = true) as -> by done.
    simpl. rewrite Hp. simpl. unfold lock. simpl. by destruct (queueMutex_ s).
Qed.

Lemma AddWorkItem_effects_witness :
  ∃ s',
    AddWorkItem (Some 1%nat) (wq example_paused) = Ret s' ∧
    paused_ (wq example_paused) = true ∧
    paused_ s' = false ∧ queueMutex_ s' = None ∧
    workItems_ s' = workItems_ (wq example_paused) ++ [1%nat].
Proof.
  assert (∃ s', AddWorkItem (Some 1%nat) (wq example_paused) = Ret s') as [s' Ha]
    by (eexists; vm_compute; reflexivity).
  destruct (proj1 (proj2 AddWorkItem_effects) _ _ _ Ha)
    as (Hl & _ & _ & _ & _ & _ & _ & _ & _ & Hth & _).
  destruct Hth as [Hp Hm]; [vm_compute; reflexivity|].
  exists s'. split_and!; [done|vm_compute; reflexivity|done|done|done].
Defined.

(** ** Pause and resume *)

(** X5. [Pause] on a paused queue and [Resume] on a queue that is not paused do
    nothing. On a queue that is not paused and whose mutex is free, [Pause]
    returns with the mutex held by the main thread and [paused_] set, and
    [Resume] then gives back the state before the pause; [Resume] on a
    paused queue frees the mutex, and [Pause] then gives back the paused
    state. While another thread holds the mutex, [Pause] waits. *)
Theorem Pause_Resume_round_trip :
  (∀ s, paused_ s = true → Pause s = Ret s) ∧
  (∀ s, paused_ s = false → Resume s = s) ∧
  (∀ s, Resume (Resume s) = Resume s) ∧
  (∀ s,
     paused_ s = false → queueMutex_ s = None → pausing_ s = false →
     ∃ s1,
       Pause s = Ret s1 ∧ paused_ s1 = true ∧
       queueMutex_ s1 = Some MainThread ∧ pausing_ s1 = false ∧
       Resume s1 = s) ∧
  (∀ s,
     paused_ s = true → queueMutex_ s = Some MainThread → pausing_ s = false →
     paused_ (Resume s) = false ∧ queueMutex_ (Resume s) = None ∧
     Pause (Resume s) = Ret s) ∧
  (∀ s, paused_ s = false → queueMutex_ s ≠ None → Pause s = Blocked).
Proof.
  split_and!.
  - intros s Hp. unfold Pause. by rewrite Hp.
  - intros s Hp. unfold Resume. by rewrite Hp.
  - intros s. unfold Resume. destruct (paused_ s) eqn:Hp; simpl; [done|by rewrite Hp].
  - intros s Hp Hm Hpa. unfold Pause, Pause_acquire, Pause_request, lock.
    rewrite Hp. simpl. rewrite Hm. simpl. eexists. split; [done|].
    split_and!; try done. unfold Resume. simpl.
    destruct s; simpl in *. by subst.
  - intros s Hp Hm Hpa. unfold Resume. rewrite Hp. split_and!; try done.
    unfold Pause, Pause_acquire, Pause_request, lock. simpl.
    destruct s; simpl in *. by subst.
  - intros s Hp Hm. unfold Pause, Pause_acquire, Pause_request, lock.
    rewrite Hp. simpl. by destruct (queueMutex_ s).
Qed.

Lemma Pause_Resume_round_trip_witness :
  ∃ s1,
    Pause example_four_submitted = Ret s1 ∧ paused_ s1 = true ∧
    Resume s1 = example_four_submitted.
Proof.
  destruct (proj1 (proj2 (proj2 (proj2 Pause_Resume_round_trip))) example_four_submitted)
    as (s1 & Hp & Hpa & _ & _ & Hr); [vm_compute; reflexivity..|].
  by exists s1.
Defined.

(** ** Purging twice *)

Lemma PurgeCompleted_loop_none priority0 l s :
  (∀ i, i ∈ l → ¬ purgeable priority0 s i) →
  PurgeCompleted_loop priority0 l s = (l, s).
Proof.
  induction l as [|i l IH]; intros Hnone; simpl; [done|].
  assert (completed s i && (priority0 <=? priority s i) = false) as ->.
  { apply not_true_is_false. intros [Hc Hle%Z.leb_le]%andb_true_iff.
    apply (Hnone i); [by left|by split]. }
  rewrite IH; [done|]. intros j Hj. apply Hnone. by right.
Qed.

Lemma set_workItems_id s : set_workItems (workItems_ s) s = s.
Proof. by destruct s. Qed.

(** X6. A purge that finds no completed item at or above the threshold changes
    nothing, and so does a second purge after a first with the same
    threshold: [PurgeCompleted] removes everything it can in one pass. *)
Theorem PurgeCompleted_idempotent :
  (∀ priority0 s,
     (∀ i, i ∈ workItems_ s → ¬ (completed s i = true ∧ priority0 ≤ priority s i)) →
     PurgeCompleted priority0 s = s) ∧
  (∀ priority0 s,
     NoDup (workItems_ s) →
     PurgeCompleted priority0 (PurgeCompleted priority0 s) = PurgeCompleted priority0 s).
Proof.
  assert (∀ priority0 s,
     (∀ i, i ∈ workItems_ s → ¬ purgeable priority0 s i) →
     PurgeCompleted priority0 s = s) as Hnone.
  { intros priority0 s Hn. unfold PurgeCompleted.
    rewrite PurgeCompleted_loop_none by done. apply set_workItems_id. }
  split; [exact Hnone|].
  intros priority0 s Hnd. apply Hnone.
  rewrite PurgeCompleted_eq by done.
  change (workItems_ (set_workItems ?w ?t)) with w.
  intros i [Hnp Hi]%list_elem_of_filter [Hc Hle].
  unfold completed, priority in Hc, Hle.
  change (deref (set_workItems ?w ?t) i) with (deref t i) in Hc, Hle.
  rewrite deref_purge_result in Hc, Hle.
  destruct (decide (i ∈ filter (purgeable priority0 s) (workItems_ s))) as [Hin|_].
  - by apply list_elem_of_filter in Hin as [? _].
  - by apply Hnp.
Qed.

Lemma PurgeCompleted_idempotent_witness :
  NoDup (workItems_ example_three_completed) ∧
  workItems_ (PurgeCompleted 3 example_three_completed) = [1%nat] ∧
  PurgeCompleted 3 (PurgeCompleted 3 example_three_completed)
    = PurgeCompleted 3 example_three_completed.
Proof.
  assert (NoDup (workItems_ example_three_completed)) as Hnd.
  { apply (bool_decide_unpack _). by vm_compute. }
  split_and!; [done|vm_compute; reflexivity|].
  by apply (proj2 PurgeCompleted_idempotent).
Defined.

(** ** The barrier without worker threads *)

(** X7. Without worker threads [Complete(p)] returns at once and never touches
    the mutex or the pause flag. It runs a front part of the queue, in queue
    order and all on thread index 0: every item it runs has priority at
    least [p], the item it stops at has a lower one, and when the queue was
    in priority order the items run come in non-increasing priority and
    every item left has priority below [p]. *)
Theorem Complete_runs_front_of_queue priority0 s :
  has_threads s = false →
  ∃ (n : nat) s',
    Complete priority0 s = Ret s' ∧
    queue_ s' = drop n (queue_ s) ∧
    executed s' = executed s ++ ((λ x, (x, 0%nat)) <$> take n (queue_ s)) ∧
    (∀ x, x ∈ take n (queue_ s) → priority0 ≤ priority s x) ∧
    match drop n (queue_ s) with
    | [] => True
    | x :: _ => priority s x < priority0
    end ∧
    (queue_sorted s →
     StronglySorted (λ a b, priority s b ≤ priority s a) (take n (queue_ s)) ∧
     (∀ x, x ∈ queue_ s' → priority s x < priority0)) ∧
    completing_ s' = false ∧
    paused_ s' = paused_ s ∧ queueMutex_ s' = queueMutex_ s.
Proof.
  intros Ht. rewrite Complete_no_threads by done.
  pose (s0 := set_completing true s).
  exists (complete_turns (priority s) priority0 (queue_ s)). eexists. split; [done|].
  change (Complete_loop priority0 (queue_ s) (set_completing true s))
    with (Complete_loop priority0 (queue_ s0) s0).
  destruct (PurgeCompleted_fields priority0 (Complete_loop priority0 (queue_ s0) s0))
    as (Hq & He & _ & _ & Hm & Hp & _).
  destruct (Complete_loop_queue priority0 s0) as (Hq0 & _).
  destruct (Complete_loop_fields priority0 s0) as (_ & Hm0 & Hp0 & _).
  destruct (complete_turns_spec (priority s) priority0 (queue_ s)) as (Hlen & Htake & Hdrop).
  change (queue_ (set_completing false ?t)) with (queue_ t).
  change (executed (set_completing false ?t)) with (executed t).
  change (paused_ (set_completing false ?t)) with (paused_ t).
  change (queueMutex_ (set_completing false ?t)) with (queueMutex_ t).
  rewrite Hq, He, Hm, Hp, Hq0, Hm0, Hp0.
  change (priority s0) with (priority s). change (queue_ s0) with (queue_ s).
  split_and!; try done.
  - rewrite Complete_loop_eq.
    change (priority s0) with (priority s). change (queue_ s0) with (queue_ s).
    destruct (complete_turns (priority s) priority0 (queue_ s)) as [|n] eqn:Hn.
    + by rewrite take_0, app_nil_r.
    + by destruct (run_items_fields (take (S n) (queue_ s)) 0
                     (set_queue (drop (S n) (queue_ s)) s0))
        as (_ & _ & _ & _ & _ & _ & _ & _ & _ & _ & ->).
  - intros Hs. unfold queue_sorted in Hs.
    rewrite <-(take_drop (complete_turns (priority s) priority0 (queue_ s)) (queue_ s)) in Hs.
    apply StronglySorted_app in Hs as (_ & Hs1 & Hs2).
    split; [done|].
    destruct (drop _ (queue_ s)) as [|y rest]; [by intros x ?%elem_of_nil|].
    apply StronglySorted_inv in Hs2 as [_ Hall].
    intros x [->|Hx]%elem_of_cons; [done|].
    eapply Forall_forall in Hall; [|exact Hx]. simpl in Hall. lia.
Qed.

Lemma Complete_runs_front_of_queue_witness :
  ∃ s',
    Complete 3 example_four_submitted = Ret s' ∧
    queue_ example_four_submitted = [2; 0; 3; 1]%nat ∧
    queue_ s' = [1%nat] ∧
    executed s' = [(2, 0); (0, 0); (3, 0)]%nat.
Proof.
  destruct (Complete_runs_front_of_queue 3 example_four_submitted eq_refl)
    as (n & s' & Hc & _).
  exists s'. split; [done|].
  assert (res_state (Complete 3 example_four_submitted) = s') as <- by (by rewrite Hc).
  split_and!; vm_compute; reflexivity.
Defined.

(** ** The completion test *)

(** X8. [IsCompleted] gets weaker as the threshold grows: work that is complete
    down to priority [p] is complete down to every higher priority. It is
    true of an empty live list, and it is false exactly when some live item
    at or above the threshold is not flagged completed. The queue plays no
    part in it. *)
Theorem IsCompleted_monotone :
  (∀ s p q, p ≤ q → IsCompleted p s = true → IsCompleted q s = true) ∧
  (∀ s p, workItems_ s = [] → IsCompleted p s = true) ∧
  (∀ s p,
     IsCompleted p s = false ↔
     ∃ i, i ∈ workItems_ s ∧ p ≤ priority s i ∧ completed s i = false) ∧
  (∀ s p q, IsCompleted p (set_queue q s) = IsCompleted p s).
Proof.
  split_and!.
  - intros s p q Hpq. rewrite !IsCompleted_true. intros Hall i Hi Hle.
    apply Hall; [done|lia].
  - intros s p Hl. unfold IsCompleted. by rewrite Hl.
  - intros s p. unfold IsCompleted. induction (workItems_ s) as [|j l IH]; simpl.
    + split; [done|]. by intros (i & ?%elem_of_nil & _).
    + destruct (p <=? priority s j) eqn:Hle; simpl.
      * destruct (completed s j) eqn:Hc; simpl.
        -- rewrite IH. split.
           ++ intros (i & Hi & ?). exists i. split; [by right|done].
           ++ intros (i & [->|Hi]%elem_of_cons & Hp & Hci); [congruence|].
              by exists i.
        -- split; [|done]. intros _. exists j. apply Z.leb_le in Hle.
           split_and!; [by left|done|done].
      * rewrite IH. apply Z.leb_gt in Hle. split.
        -- intros (i & Hi & ?). exists i. split; [by right|done].
        -- intros (i & [->|Hi]%elem_of_cons & Hp & Hci); [lia|]. by exists i.
  - intros s p q. by apply IsCompleted_ext.
Qed.

Lemma IsCompleted_monotone_witness :
  IsCompleted 3 example_three_completed = true ∧
  IsCompleted 5 example_three_completed = true ∧
  IsCompleted 0 example_three_completed = false.
Proof.
  assert (IsCompleted 3 example_three_completed = true) as H3
    by (vm_compute; reflexivity).
  split_and!; [done| |vm_compute; reflexivity].
  apply (proj1 IsCompleted_monotone example_three_completed 3 5); [lia|done].
Defined.

(** ** Trimming the pool frame after frame *)

Lemma PurgePool_fields s :
  0 ≤ lastSize_ s < 2 ^ 31 →
  Z.of_nat (length (poolItems_ s)) < 2 ^ 31 →
  poolItems_ (PurgePool s)
    = PurgePool_loop (lastSize_ s - Z.of_nat (length (poolItems_ s))) (tolerance_ s) 0
        (poolItems_ s) ∧
  lastSize_ (PurgePool s) = Z.of_nat (length (poolItems_ s)) ∧
  tolerance_ (PurgePool s) = tolerance_ s.
Proof.
  intros Hlast Hlen. unfold PurgePool; simpl. split_and!; [|by rewrite to_int_small by lia|done].
  by rewrite to_int_to_size_t_small by lia.
Qed.

(** X9. [PurgePool] records the size the pool had before it trimmed, not the
    size it leaves. So once a call has found the pool more than
    [tolerance_] below the recorded size, by [d] entries, the calls that
    follow find the same difference again although the pool has not shrunk
    since: with nothing returned to the pool in between, the [k]-th call
    has dropped [k * d] entries in all, and the pool is empty after as many
    calls as it had entries. *)
Theorem PurgePool_keeps_trimming s (k : nat) :
  0 ≤ tolerance_ s →
  0 ≤ lastSize_ s < 2 ^ 31 →
  Z.of_nat (length (poolItems_ s)) < 2 ^ 31 →
  tolerance_ s < lastSize_ s - Z.of_nat (length (poolItems_ s)) →
  poolItems_ (Nat.iter (S k) PurgePool s)
    = drop (S k * Z.to_nat (lastSize_ s - Z.of_nat (length (poolItems_ s)))) (poolItems_ s) ∧
  poolItems_ (Nat.iter (S (length (poolItems_ s))) PurgePool s) = [].
Proof.
  intros Htol Hlast Hlen Hd.
  set (d := Z.to_nat (lastSize_ s - Z.of_nat (length (poolItems_ s)))).
  assert (0 < d)%nat as Hdpos by (unfold d; lia).
  assert (∀ j,
    poolItems_ (Nat.iter (S j) PurgePool s) = drop (S j * d) (poolItems_ s) ∧
    lastSize_ (Nat.iter (S j) PurgePool s) = Z.of_nat (length (drop (j * d) (poolItems_ s))) ∧
    tolerance_ (Nat.iter (S j) PurgePool s) = tolerance_ s) as Hall.
  { induction j as [|j (IHp & IHl & IHt)].
    - change (Nat.iter 1 PurgePool s) with (PurgePool s).
      destruct (PurgePool_fields s Hlast Hlen) as (-> & -> & ->).
      split_and!; [|done|done].
      rewrite PurgePool_loop_drop by lia. rewrite Z.sub_0_r. f_equal. unfold d. lia.
    - set (sj := Nat.iter (S j) PurgePool s) in *.
      change (Nat.iter (S (S j)) PurgePool s) with (PurgePool sj).
      pose proof (length_drop (poolItems_ s) (j * d)) as Hlj.
      pose proof (length_drop (poolItems_ s) (S j * d)) as Hlsj.
      destruct (PurgePool_fields sj) as (-> & -> & ->).
      { rewrite IHl. lia. }
      { rewrite IHp. lia. }
      rewrite IHp, IHl, IHt. split_and!; [|done|done].
      destruct (decide (S j * d < length (poolItems_ s))%nat) as [Hlt|Hge].
      + rewrite PurgePool_loop_drop; [|nia..].
        rewrite drop_drop. f_equal. unfold d in *. nia.
      + rewrite (drop_ge (poolItems_ s) (S j * d)) by lia.
        rewrite (drop_ge (poolItems_ s) (S (S j) * d)) by lia. done. }
  split; [apply Hall|].
  destruct (Hall (length (poolItems_ s))) as (-> & _).
  apply drop_ge. nia.
Qed.

Lemma PurgePool_keeps_trimming_witness :
  poolItems_ (set_lastSize 40 (set_poolItems (seq 0 25) (WorkQueue_new ∅))) = seq 0 25 ∧
  poolItems_ (PurgePool (set_lastSize 40 (set_poolItems (seq 0 25) (WorkQueue_new ∅))))
    = seq 15 10 ∧
  poolItems_
    (PurgePool (PurgePool (set_lastSize 40 (set_poolItems (seq 0 25) (WorkQueue_new ∅)))))
    = [].
Proof.
  split; [done|].
  destruct (PurgePool_keeps_trimming
              (set_lastSize 40 (set_poolItems (seq 0 25) (WorkQueue_new ∅))) 1)
    as [H2 _]; [vm_compute; try done; by split..|].
  destruct (PurgePool_keeps_trimming
              (set_lastSize 40 (set_poolItems (seq 0 25) (WorkQueue_new ∅))) 0)
    as [H1 _]; [vm_compute; try done; by split..|].
  split.
  - change (Nat.iter 1 PurgePool ?t) with (PurgePool t) in H1. rewrite H1.
    vm_compute. reflexivity.
  - change (Nat.iter 2 PurgePool ?t) with (PurgePool (PurgePool t)) in H2. rewrite H2.
    vm_compute. reflexivity.
Defined.

(** ** Where a live item is, and who holds the mutex *)

Lemma NoDup_omap_lookup {A B} (f : A → option B) (l : list A) : ∀ k j a b x,
  NoDup (omap f l) → l !! k = Some a → l !! j = Some b →
  f a = Some x → f b = Some x → k = j.
Proof.
  induction l as [|c l IH]; intros k j a b x Hnd Hk Hj Ha Hb; [done|].
  simpl in Hnd. destruct k as [|k], j as [|j]; simpl in Hk, Hj.
  - done.
  - injection Hk as ->. rewrite Ha in Hnd. apply NoDup_cons in Hnd as [Hx _].
    destruct Hx. apply list_elem_of_omap. exists b. split; [|done].
    by eapply list_elem_of_lookup_2.
  - injection Hj as ->. rewrite Hb in Hnd. apply NoDup_cons in Hnd as [Hx _].
    destruct Hx. apply list_elem_of_omap. exists a. split; [|done].
    by eapply list_elem_of_lookup_2.
  - f_equal. apply (IH k j a b x); try done.
    destruct (f c); [by apply NoDup_cons in Hnd as [_ ?]|done].
Qed.

(** X10. In every state the system can reach, a live item is in the queue, or
    held by a thread that has taken it from the queue and has not flagged it
    yet, or flagged completed - and in one of the three only: a queued item
    and an item held by a thread are not flagged and are live, and no item
    is both queued and held. No two workers hold the same item, and no
    worker holds the item the main thread holds inside [Complete]. Every
    live item is allocated. *)
Theorem live_items_accounted σ :
  reachable σ →
  (∀ x, x ∈ workItems_ (wq σ) →
        x ∈ queue_ (wq σ) ∨ x ∈ in_flight σ ∨ completed (wq σ) x = true) ∧
  (∀ x, x ∈ queue_ (wq σ) →
        x ∈ workItems_ (wq σ) ∧ completed (wq σ) x = false ∧ x ∉ in_flight σ) ∧
  (∀ x, x ∈ in_flight σ →
        x ∈ workItems_ (wq σ) ∧ completed (wq σ) x = false ∧ x ∉ queue_ (wq σ)) ∧
  (∀ k j w w' x,
     threads (wq σ) !! k = Some w → threads (wq σ) !! j = Some w' →
     worker_item w = Some x → worker_item w' = Some x → k = j) ∧
  (∀ k w x,
     threads (wq σ) !! k = Some w → worker_item w = Some x → x ∉ main_item (main σ)) ∧
  (∀ x, x ∈ workItems_ (wq σ) → x ∈ dom (heap (wq σ))).
Proof.
  intros Hreach. pose proof (sys_inv_reachable σ Hreach) as [Hwq _ _].
  pose proof Hwq as [Hs Hl Hp Hndl Hndq Hfl Hal Hacc].
  split_and!.
  - intros x Hx. destruct (Hacc x Hx) as [?|[?|?]]; auto.
  - intros x Hx. split_and!; [by apply Hl|by apply Hp|].
    intros Hf. by apply (in_flight_not_queued σ x Hwq Hf).
  - intros x Hx. destruct (Hfl x Hx). split_and!; [done|done|].
    by apply in_flight_not_queued.
  - intros k j w w' x Hk Hj Hw Hw'.
    apply NoDup_app in Hndq as (Hndf & _ & _).
    unfold in_flight in Hndf. apply NoDup_app in Hndf as (_ & _ & Hndw).
    by eapply (NoDup_omap_lookup worker_item).
  - intros k w x Hk Hw Hm.
    apply NoDup_app in Hndq as (Hndf & _ & _).
    unfold in_flight in Hndf. apply NoDup_app in Hndf as (_ & Hdisj & _).
    apply (Hdisj x Hm). apply list_elem_of_omap. exists w. split; [|done].
    by eapply list_elem_of_lookup_2.
  - done.
Qed.

Lemma live_items_accounted_witness :
  in_flight example_paused = [0%nat] ∧
  workItems_ (wq example_paused) = [0%nat] ∧
  queue_ (wq example_paused) = [] ∧
  completed (wq example_paused) 0 = false.
Proof.
  destruct (live_items_accounted example_paused example_paused_reachable)
    as (_ & _ & Hfl & _).
  assert (in_flight example_paused = [0%nat]) as Hf by (vm_compute; reflexivity).
  destruct (Hfl 0%nat) as (_ & Hc & _); [rewrite Hf; by left|].
  split_and!; [done|vm_compute; reflexivity|vm_compute; reflexivity|done].
Defined.

(** X11. In every state the system can reach, [queueMutex_] has one holder at
    most and the program counters agree with it: at most one worker is
    between its [lock] and its [unlock], and then the mutex is that
    worker's, the queue is not paused and the main thread is not inside its
    own critical section; while the queue is paused, and while the main
    thread is inside the critical section of [Complete], the mutex is the
    main thread's. Work functions run outside the mutex: a thread that holds
    an item does not hold the mutex. *)
Theorem mutex_discipline σ :
  reachable σ →
  (∀ k j w w',
     threads (wq σ) !! k = Some w → threads (wq σ) !! j = Some w' →
     pc w = WLocked → pc w' = WLocked → k = j) ∧
  (∀ k w,
     threads (wq σ) !! k = Some w → pc w = WLocked →
     queueMutex_ (wq σ) = Some (WorkerId (index_ w)) ∧
     paused_ (wq σ) = false ∧ ∀ p, main σ ≠ MComplete_locked p) ∧
  (paused_ (wq σ) = true → queueMutex_ (wq σ) = Some MainThread) ∧
  (∀ p, main σ = MComplete_locked p →
        queueMutex_ (wq σ) = Some MainThread ∧ paused_ (wq σ) = false) ∧
  (∀ k w x,
     threads (wq σ) !! k = Some w → worker_item w = Some x →
     queueMutex_ (wq σ) ≠ Some (WorkerId (index_ w))) ∧
  (∀ x, x ∈ main_item (main σ) → queueMutex_ (wq σ) ≠ Some MainThread) ∧
  (∀ t, queueMutex_ (wq σ) = Some t →
        (t = MainThread ∧ (paused_ (wq σ) = true ∨ ∃ p, main σ = MComplete_locked p)) ∨
        (∃ k w, threads (wq σ) !! k = Some w ∧ pc w = WLocked ∧ t = WorkerId (index_ w))).
Proof.
  intros Hreach.
  pose proof (sys_inv_reachable σ Hreach) as [_ [Hpaused Hunp Hml Hmm Hwl Hwm Hidx] _].
  split_and!.
  - intros k j w w' Hk Hj Hw Hw'.
    pose proof (Hwl k w Hk Hw) as H1. pose proof (Hwl j w' Hj Hw') as H2.
    rewrite H1 in H2. injection H2 as H2.
    rewrite (Hidx k w Hk), (Hidx j w' Hj) in H2. lia.
  - intros k w Hk Hw. pose proof (Hwl k w Hk Hw) as H1. split_and!; [done| |].
    + destruct (paused_ (wq σ)) eqn:Hp; [|done]. rewrite (Hpaused eq_refl) in H1. done.
    + intros p Hp. rewrite (Hml p Hp) in H1. done.
  - done.
  - intros p Hp. split; [by apply (Hml p)|]. apply Hunp. by rewrite Hp.
  - intros k w x Hk Hw Hm. destruct (Hwm _ Hm) as (j & w' & Hj & Hl & Hi).
    rewrite (Hidx k w Hk), (Hidx j w' Hj) in Hi.
    assert (j = k) as -> by lia. rewrite Hk in Hj. injection Hj as <-.
    unfold worker_item in Hw. by rewrite Hl in Hw.
  - intros x Hx Hm. destruct (Hmm Hm) as [Hp|[p Hp]].
    + rewrite Hunp in Hp; [done|].
      destruct (main σ); simpl in *; try done; by apply elem_of_nil in Hx.
    + rewrite Hp in Hx. by apply elem_of_nil in Hx.
  - intros [|i] Hm.
    + left. split; [done|]. by apply Hmm.
    + right. destruct (Hwm i Hm) as (k & w & Hk & Hl & <-). by exists k, w.
Qed.

Lemma mutex_discipline_witness :
  paused_ (wq example_paused) = true ∧
  queueMutex_ (wq example_paused) = Some MainThread ∧
  in_flight example_paused = [0%nat].
Proof.
  destruct (mutex_discipline example_paused example_paused_reachable)
    as (_ & _ & Hp & _).
  split_and!; [vm_compute; reflexivity|apply Hp; vm_compute; reflexivity
              |vm_compute; reflexivity].
Defined.

(** ** Removing items while the queue is paused *)

(** X12. [RemoveWorkItem] on a non-null item and [RemoveWorkItems] (on any list,
    the empty one included) begin by locking [queueMutex_], so they wait
    while it is held. A paused queue keeps the mutex locked by the main
    thread itself: in every reachable paused state, and whatever the workers
    do from there, a removal called by the main thread cannot proceed - it
    waits for a mutex that only its own [Resume] would release. A null item
    is refused before the lock is taken, with nothing changed. *)
Theorem RemoveWorkItem_blocks_while_paused :
  (∀ s x, queueMutex_ s ≠ None → RemoveWorkItem (Some x) s = Blocked) ∧
  (∀ s items, queueMutex_ s ≠ None → RemoveWorkItems items s = Blocked) ∧
  (∀ s, RemoveWorkItem None s = Ret (false, s)) ∧
  (∀ σ ks σ',
     reachable σ → paused_ (wq σ) = true → run (AWorker <$> ks) σ = Some σ' →
     (∀ x, step (ACall (CallRemoveWorkItem (Some x))) σ' = None) ∧
     (∀ items, step (ACall (CallRemoveWorkItems items)) σ' = None) ∧
     (main σ = MReady →
      step (ACall (CallRemoveWorkItem None)) σ' = Some σ')).
Proof.
  split_and!.
  - intros s x Hm. unfold RemoveWorkItem, lock_guard, lock.
    by destruct (queueMutex_ s).
  - intros s items Hm. unfold RemoveWorkItems, lock_guard, lock.
    by destruct (queueMutex_ s).
  - done.
  - intros σ ks σ' Hreach Hp Hrun.
    pose proof (sys_inv_reachable σ Hreach) as Hinv.
    pose proof (paused_worker_steps ks σ σ' Hinv Hp Hrun) as (Hp' & _).
    pose proof (sys_inv_run _ _ _ Hinv Hrun) as [_ [Hpaused _ _ _ _ _ _] _].
    specialize (Hpaused Hp').
    assert (main σ' = main σ) as Hmain.
    { clear -Hrun. revert σ Hrun. induction ks as [|k ks IH]; intros σ; simpl.
      - by intros [= <-].
      - destruct (ProcessItems_step k (wq σ)); [|done]. intros Hrun.
        by rewrite (IH _ Hrun). }
    split_and!.
    + intros x. simpl. unfold call_step. destruct (main σ'); try done.
      unfold RemoveWorkItem, lock_guard, lock. by rewrite Hpaused.
    + intros items. simpl. unfold call_step. destruct (main σ'); try done.
      unfold RemoveWorkItems, lock_guard, lock. by rewrite Hpaused.
    + intros Hm. simpl. unfold call_step. rewrite Hmain, Hm. simpl.
      destruct σ' as [s' m']; simpl in *. by rewrite Hmain, Hm.
Qed.

Lemma RemoveWorkItem_blocks_while_paused_witness :
  ∃ σ',
    paused_ (wq example_paused) = true ∧ main example_paused = MReady ∧
    run (AWorker <$> [0; 0]%nat) example_paused = Some σ' ∧
    step (ACall (CallRemoveWorkItem (Some 0%nat))) σ' = None ∧
    step (ACall (CallRemoveWorkItems [])) σ' = None.
Proof.
  assert (∃ σ', run (AWorker <$> [0; 0]%nat) example_paused = Some σ') as [σ' Hrun]
    by (eexists; vm_compute; reflexivity).
  assert (paused_ (wq example_paused) = true) as Hp by (vm_compute; reflexivity).
  destruct (proj2 (proj2 (proj2 RemoveWorkItem_blocks_while_paused))
              example_paused [0; 0]%nat σ' example_paused_reachable Hp Hrun)
    as (H1 & H2 & _).
  exists σ'. split_and!; [done|vm_compute; reflexivity|done|apply H1|apply H2].
Defined.

(** ** Pausing can be completed *)

Lemma quiet_mutex_free σ :
  sys_inv σ → (∀ j w, threads (wq σ) !! j = Some w → quiet w) →
  paused_ (wq σ) = false → (∀ p, main σ ≠ MComplete_locked p) →
  queueMutex_ (wq σ) = None.
Proof.
  intros [_ [_ _ _ Hmm _ Hwm _] _] Hquiet Hp Hml.
  destruct (queueMutex_ (wq σ)) as [[|i]|] eqn:Hm; [| |done].
  - destruct (Hmm eq_refl) as [?|[p ?]]; [congruence|by destruct (Hml p)].
  - destruct (Hwm i eq_refl) as (k & w & Hk & Hl & _).
    destruct (Hquiet k w Hk) as [?|?]; congruence.
Qed.

(** X13. A call of [Pause] can always return: from every reachable state in
    which the main thread is free there are steps of the workers after
    which the main thread obtains the mutex, and then the queue is paused
    with the mutex held by the main thread and [pausing_] cleared again. On
    a queue that is paused already the call returns at once. *)
Theorem Pause_can_return σ :
  reachable σ → main σ = MReady →
  ∃ tr σ',
    Forall internal tr ∧
    run (ACall CallPause :: tr) σ = Some σ' ∧
    main σ' = MReady ∧ paused_ (wq σ') = true ∧
    queueMutex_ (wq σ') = Some MainThread ∧
    (paused_ (wq σ) = true → tr = [] ∧ σ' = σ) ∧
    (paused_ (wq σ) = false → pausing_ (wq σ') = false).
Proof.
  intros Hreach Hmain. pose proof (sys_inv_reachable σ Hreach) as Hinv.
  destruct (paused_ (wq σ)) eqn:Hp.
  - exists [], σ. destruct Hinv as [_ [Hpaused _ _ _ _ _ _] _].
    split_and!; try done; [|by apply Hpaused].
    simpl. unfold call_step. by rewrite Hmain, Hp.
  - assert (step (ACall CallPause) σ = Some (mkSystem (Pause_request (wq σ)) MPause))
      as Hcall.
    { simpl. unfold call_step. by rewrite Hmain, Hp. }
    pose proof (sys_inv_step _ _ _ Hinv Hcall) as Hinv0.
    destruct (settle_workers (length (threads (Pause_request (wq σ))))
                (mkSystem (Pause_request (wq σ)) MPause))
      as (tr & σ1 & Hrun & Hint & Hm & Hl & Hq).
    pose proof (sys_inv_run _ _ _ Hinv0 Hrun) as Hinv1.
    assert (∀ j w, threads (wq σ1) !! j = Some w → quiet w) as Hquiet.
    { intros j w Hj. apply (Hq j w); [|done].
      change (length (threads (wq σ1)) = length (threads (Pause_request (wq σ)))) in Hl.
      rewrite <-Hl. by eapply lookup_lt_Some. }
    simpl in Hm.
    assert (paused_ (wq σ1) = false) as Hp1.
    { destruct Hinv1 as [_ [_ Hunp _ _ _ _ _] _]. apply Hunp. by rewrite Hm. }
    assert (queueMutex_ (wq σ1) = None) as Hfree.
    { apply quiet_mutex_free; try done. intros p. by rewrite Hm. }
    exists (tr ++ [AMain]),
      (mkSystem (set_pausing false (set_paused true
                   (set_queueMutex (Some MainThread) (wq σ1)))) MReady).
    split_and!; try done.
    + apply Forall_app. split; [done|]. apply Forall_singleton. by left.
    + change (run (ACall CallPause :: ?t) σ)
        with (match step (ACall CallPause) σ with
              | Some σ0 => run t σ0
              | None => None
              end).
      rewrite Hcall, run_app, Hrun. simpl. unfold main_step. rewrite Hm.
      unfold Pause_acquire, lock. by rewrite Hfree.
Qed.

Lemma Pause_can_return_witness :
  ∃ σ0 tr σ',
    run [ACall (CallCreateThreads 1); ACall (CallAddWorkItem (Some 0%nat));
         AWorker 0] (initial (items_with_priorities [5; 1; 5; 3])) = Some σ0 ∧
    queueMutex_ (wq σ0) = Some (WorkerId 1) ∧ paused_ (wq σ0) = false ∧
    Forall internal tr ∧
    run (ACall CallPause :: tr) σ0 = Some σ' ∧
    paused_ (wq σ') = true ∧ queueMutex_ (wq σ') = Some MainThread.
Proof.
  assert (∃ σ0,
            run [ACall (CallCreateThreads 1); ACall (CallAddWorkItem (Some 0%nat));
                 AWorker 0] (initial (items_with_priorities [5; 1; 5; 3])) = Some σ0)
    as [σ0 Hrun0] by (eexists; vm_compute; reflexivity).
  assert (reachable σ0) as Hreach by (by eexists _, _).
  assert (main <$> run [ACall (CallCreateThreads 1); ACall (CallAddWorkItem (Some 0%nat));
                        AWorker 0] (initial (items_with_priorities [5; 1; 5; 3]))
          = Some MReady) as Hm by (vm_compute; reflexivity).
  assert (queueMutex_ ∘ wq <$>
            run [ACall (CallCreateThreads 1); ACall (CallAddWorkItem (Some 0%nat));
                 AWorker 0] (initial (items_with_priorities [5; 1; 5; 3]))
          = Some (Some (WorkerId 1))) as Hmx by (vm_compute; reflexivity).
  assert (paused_ ∘ wq <$>
            run [ACall (CallCreateThreads 1); ACall (CallAddWorkItem (Some 0%nat));
                 AWorker 0] (initial (items_with_priorities [5; 1; 5; 3]))
          = Some false) as Hpa by (vm_compute; reflexivity).
  rewrite Hrun0 in Hm, Hmx, Hpa. simpl in Hm, Hmx, Hpa.
  injection Hm as Hm. injection Hmx as Hmx. injection Hpa as Hpa.
  destruct (Pause_can_return σ0 Hreach Hm) as (tr & σ' & Hint & Hrun & _ & Hp & Hmu & _).
  exists σ0, tr, σ'. by split_and!.
Defined.

(** ** Destruction *)

Lemma internal_run_shutDown tr : ∀ σ σ',
  Forall internal tr → run tr σ = Some σ' →
  shutDown_ (wq σ') = shutDown_ (wq σ).
Proof.
  induction tr as [|a tr IH]; intros σ σ' Hint; simpl; [by intros [= <-]|].
  apply Forall_cons in Hint as [Ha Hint].
  destruct (step a σ) as [σ1|] eqn:Hstep; [|done]. intros Hrun.
  rewrite (IH σ1 σ' Hint Hrun).
  destruct Ha as [->|[k ->]]; simpl in Hstep.
  - by apply main_step_threads in Hstep as [_ ->].
  - destruct (ProcessItems_step k (wq σ)) as [s'|] eqn:Hs; [|done].
    injection Hstep as <-. simpl. by apply worker_step_threads in Hs as [-> _].
Qed.

Lemma stop_workers m : ∀ σ,
  shutDown_ (wq σ) = true →
  (∀ j w, threads (wq σ) !! j = Some w → quiet w) →
  ∃ tr σ',
    run tr σ = Some σ' ∧ Forall internal tr ∧ main σ' = main σ ∧
    shutDown_ (wq σ') = true ∧
    length (threads (wq σ')) = length (threads (wq σ)) ∧
    (∀ j w, threads (wq σ') !! j = Some w → quiet w) ∧
    (∀ j w, (j < m)%nat → threads (wq σ') !! j = Some w → pc w = WStopped).
Proof.
  induction m as [|m IH]; intros σ Hsd Hquiet.
  - exists [], σ. split_and!; try done. intros j w Hj. lia.
  - destruct (IH σ Hsd Hquiet) as (tr & σ1 & Hrun & Hint & Hm & Hsd1 & Hl & Hq & Hst).
    destruct (threads (wq σ1) !! m) as [w|] eqn:Hk.
    + destruct (Hq m w Hk) as [Hpc|Hpc].
      * destruct (set_worker_moved m w (mkWorkerThread (index_ w) (wasActive w) WStopped)
                    (wq σ1) (wq σ1) Hk eq_refl) as (Hk' & Hl' & Ho).
        exists (tr ++ [AWorker m]),
          (mkSystem (set_worker m (mkWorkerThread (index_ w) (wasActive w) WStopped) (wq σ1))
             (main σ1)).
        split_and!; try done.
        -- rewrite run_app, Hrun. simpl. unfold ProcessItems_step.
           by rewrite Hk, Hpc, Hsd1.
        -- apply Forall_app. split; [done|]. apply Forall_singleton. right. by exists m.
        -- simpl. by rewrite length_insert.
        -- intros j w0 Hj. cbn [wq] in Hj. destruct (decide (j = m)) as [->|Hne].
           ++ rewrite Hk' in Hj. injection Hj as <-. by right.
           ++ rewrite Ho in Hj by done. by apply (Hq j).
        -- intros j w0 Hlt Hj. cbn [wq] in Hj. destruct (decide (j = m)) as [->|Hne].
           ++ rewrite Hk' in Hj. by injection Hj as <-.
           ++ rewrite Ho in Hj by done. apply (Hst j w0); [lia|done].
      * exists tr, σ1. split_and!; try done.
        intros j w0 Hlt Hj. destruct (decide (j = m)) as [->|Hne].
        -- rewrite Hk in Hj. by injection Hj as <-.
        -- apply (Hst j w0); [lia|done].
    + exists tr, σ1. split_and!; try done.
      intros j w0 Hlt Hj. destruct (decide (j = m)) as [->|Hne]; [congruence|].
      apply (Hst j w0); [lia|done].
Qed.

(** X14. The destructor sets [shutDown_], ends the pause and waits for the
    workers to return. They can: from every reachable state in which the
    main thread is free there are steps of the workers after which every
    worker has returned from [ProcessItems]; each finishes the item it holds
    and stops at the head of its loop. Nothing moves after that, and
    [shutDown_] is never cleared by a worker. A worker at the head of its
    loop that sees [shutDown_] returns without looking at the queue. *)
Theorem Destroy_stops_workers :
  (∀ σ,
     reachable σ → main σ = MReady →
     ∃ tr σ',
       Forall internal tr ∧
       run (ACall CallDestroy :: tr) σ = Some σ' ∧
       main σ' = MDestroyed ∧ shutDown_ (wq σ') = true ∧
       length (threads (wq σ')) = length (threads (wq σ)) ∧
       (∀ k w, threads (wq σ') !! k = Some w → pc w = WStopped) ∧
       (∀ a, step a σ' = None)) ∧
  (∀ s k w s',
     threads s !! k = Some w → pc w = WIdle → shutDown_ s = true →
     ProcessItems_step k s = Some s' →
     queue_ s' = queue_ s ∧ executed s' = executed s ∧ heap s' = heap s ∧
     queueMutex_ s' = queueMutex_ s ∧
     ∃ w', threads s' !! k = Some w' ∧ pc w' = WStopped) ∧
  (∀ s k s', ProcessItems_step k s = Some s' → shutDown_ s' = shutDown_ s).
Proof.
  split_and!.
  - intros σ Hreach Hmain.
    set (σ0 := mkSystem (Resume (set_shutDown true (wq σ))) MDestroyed).
    assert (step (ACall CallDestroy) σ = Some σ0) as Hcall.
    { simpl. unfold call_step. by rewrite Hmain. }
    assert (shutDown_ (wq σ0) = true) as Hsd0.
    { simpl. unfold Resume. simpl. by destruct (paused_ (wq σ)). }
    assert (threads (wq σ0) = threads (wq σ)) as Hth0.
    { simpl. unfold Resume. simpl. by destruct (paused_ (wq σ)). }
    destruct (settle_workers (length (threads (wq σ0))) σ0)
      as (tr1 & σ1 & Hrun1 & Hint1 & Hm1 & Hl1 & Hq1).
    pose proof (internal_run_shutDown tr1 σ0 σ1 Hint1 Hrun1) as Hsd1.
    rewrite Hsd0 in Hsd1.
    assert (∀ j w, threads (wq σ1) !! j = Some w → quiet w) as Hquiet.
    { intros j w Hj. apply (Hq1 j w); [|done]. rewrite <-Hl1. by eapply lookup_lt_Some. }
    destruct (stop_workers (length (threads (wq σ1))) σ1 Hsd1 Hquiet)
      as (tr2 & σ2 & Hrun2 & Hint2 & Hm2 & Hsd2 & Hl2 & _ & Hst).
    assert (∀ k w, threads (wq σ2) !! k = Some w → pc w = WStopped) as Hstopped.
    { intros k w Hk. apply (Hst k w); [|done]. rewrite <-Hl2. by eapply lookup_lt_Some. }
    assert (main σ2 = MDestroyed) as Hmain2 by (by rewrite Hm2, Hm1).
    exists (tr1 ++ tr2), σ2. split_and!; try done.
    + by apply Forall_app.
    + change (run (ACall CallDestroy :: ?t) σ)
        with (match step (ACall CallDestroy) σ with
              | Some σ0 => run t σ0
              | None => None
              end).
      by rewrite Hcall, run_app, Hrun1.
    + by rewrite Hl2, Hl1, Hth0.
    + intros [c| |k]; simpl.
      * unfold call_step. by rewrite Hmain2.
      * unfold main_step. by rewrite Hmain2.
      * unfold ProcessItems_step. destruct (threads (wq σ2) !! k) as [w|] eqn:Hk; [|done].
        by rewrite (Hstopped k w Hk).
  - intros s k w s' Hk Hpc Hsd. unfold ProcessItems_step. rewrite Hk, Hpc, Hsd.
    intros [= <-]. split_and!; try done. eexists.
    split; [simpl; apply list_lookup_insert_eq; by eapply lookup_lt_Some|done].
  - intros s k s' Hs. by apply worker_step_threads in Hs as [-> _].
Qed.

Lemma Destroy_stops_workers_witness :
  ∃ tr σ',
    in_flight example_paused = [0%nat] ∧
    run (ACall CallDestroy :: tr) example_paused = Some σ' ∧
    (∀ k w, threads (wq σ') !! k = Some w → pc w = WStopped) ∧
    (∀ a, step a σ' = None).
Proof.
  destruct (proj1 Destroy_stops_workers example_paused example_paused_reachable)
    as (tr & σ' & _ & Hrun & _ & _ & _ & Hst & Hend); [vm_compute; reflexivity|].
  exists tr, σ'. split_and!; [vm_compute; reflexivity|done..].
Defined.

(** ** No work function is called twice for one submission *)

Lemma occurrences_app x l1 l2 :
  occurrences x (l1 ++ l2) = (occurrences x l1 + occurrences x l2)%nat.
Proof. unfold occurrences. by rewrite filter_app, length_app. Qed.

Lemma occurrences_cons x y l :
  occurrences x (y :: l) = ((if decide (y = x) then 1 else 0) + occurrences x l)%nat.
Proof. unfold occurrences. rewrite filter_cons. by destruct (decide (y = x)). Qed.

Lemma occurrences_perm x l l' : l ≡ₚ l' → occurrences x l = occurrences x l'.
Proof. intros Hp. unfold occurrences. by rewrite Hp. Qed.

Lemma occurrences_take_drop x n l :
  (occurrences x (take n l) + occurrences x (drop n l))%nat = occurrences x l.
Proof. by rewrite <-occurrences_app, take_drop. Qed.

Lemma occurrences_erase x y l : (occurrences x (erase y l) ≤ occurrences x l)%nat.
Proof.
  induction l as [|z l IH]; simpl; [done|].
  destruct (decide (y = z)) as [->|Hne]; rewrite !occurrences_cons; lia.
Qed.

Ltac occ_lia :=
  repeat match goal with H : context [occurrences _ _] |- _ => revert H end;
  repeat match goal with
    | |- context [occurrences ?a ?l] => generalize (occurrences a l); intro
    end;
  intros; lia.

Lemma fst_fmap_pair (i : nat) (l : list nat) : fst <$> ((λ x, (x, i)) <$> l) = l.
Proof. induction l as [|x l IH]; simpl; [done|]. by f_equal. Qed.

Lemma executions_run_items x l i s :
  executions x (run_items l i s) = (executions x s + occurrences x l)%nat.
Proof.
  unfold executions.
  destruct (run_items_fields l i s) as (_ & _ & _ & _ & _ & _ & _ & _ & _ & _ & ->).
  by rewrite fmap_app, fst_fmap_pair, occurrences_app.
Qed.

Lemma omap_none {A B} (f : A → option B) (l : list A) :
  (∀ a, a ∈ l → f a = None) → omap f l = [].
Proof.
  induction l as [|a l IH]; intros Hn; simpl; [done|].
  rewrite (Hn a) by (by left). apply IH. intros b Hb. apply Hn. by right.
Qed.

Lemma remove_found_queue x s b s' :
  remove_found x s = (b, s') →
  queue_ s' = erase x (queue_ s) ∨ queue_ s' = queue_ s.
Proof.
  unfold remove_found. destruct (decide (x ∈ queue_ s)); [|intros [= _ <-]; by right].
  destruct (decide (x ∈ workItems_ s)); [|intros [= _ <-]; by right].
  intros [= _ <-]. left. simpl. unfold ReturnToPool. simpl.
  by destruct (pooled_ _).
Qed.

Lemma RemoveWorkItems_loop_occurrences x items : ∀ removed s n s',
  RemoveWorkItems_loop items removed s = (n, s') →
  (occurrences x (queue_ s') ≤ occurrences x (queue_ s))%nat.
Proof.
  induction items as [|[y|] items IH]; intros removed s n s'; simpl.
  - by intros [= _ <-].
  - destruct (remove_found y s) as [b s1] eqn:Hr. intros Hloop.
    apply IH in Hloop. apply remove_found_queue in Hr as [Hq|Hq]; rewrite Hq in Hloop.
    + pose proof (occurrences_erase x y (queue_ s)). lia.
    + done.
  - apply IH.
Qed.

Lemma lock_guard_body {A} (body : WorkQueue → A * WorkQueue) s a s' :
  lock_guard body s = Ret (a, s') →
  ∃ s2, body (set_queueMutex (Some MainThread) s) = (a, s2) ∧ s' = unlock s2.
Proof.
  unfold lock_guard, lock. destruct (queueMutex_ s); [done|]. simpl.
  destruct (body _) as [a0 s2]. intros [= <- <-]. by exists s2.
Qed.

Lemma Complete_no_threads_log priority0 s :
  has_threads s = false →
  ∃ (n : nat) s',
    Complete priority0 s = Ret s' ∧ threads s' = threads s ∧
    queue_ s' = drop n (queue_ s) ∧
    executed s' = executed s ++ ((λ x, (x, 0%nat)) <$> take n (queue_ s)).
Proof.
  intros Ht. rewrite Complete_no_threads by done.
  pose (s0 := set_completing true s).
  exists (complete_turns (priority s) priority0 (queue_ s)). eexists. split; [done|].
  change (Complete_loop priority0 (queue_ s) (set_completing true s))
    with (Complete_loop priority0 (queue_ s0) s0).
  destruct (PurgeCompleted_fields priority0 (Complete_loop priority0 (queue_ s0) s0))
    as (Hq & He & Hth & _).
  destruct (Complete_loop_queue priority0 s0) as (Hq0 & _).
  destruct (Complete_loop_fields priority0 s0) as (Hth0 & _).
  change (queue_ (set_completing false ?t)) with (queue_ t).
  change (executed (set_completing false ?t)) with (executed t).
  change (threads (set_completing false ?t)) with (threads t).
  rewrite Hq, He, Hth, Hq0, Hth0. split_and!; [done|done|].
  rewrite Complete_loop_eq.
  change (priority s0) with (priority s). change (queue_ s0) with (queue_ s).
  destruct (complete_turns (priority s) priority0 (queue_ s)) as [|n] eqn:Hn.
  - by rewrite take_0, app_nil_r.
  - by destruct (run_items_fields (take (S n) (queue_ s)) 0
                   (set_queue (drop (S n) (queue_ s)) s0))
      as (_ & _ & _ & _ & _ & _ & _ & _ & _ & _ & ->).
Qed.

Lemma HandleBeginFrame_log usec s :
  ∃ n : nat,
    threads (HandleBeginFrame usec s) = threads s ∧
    queue_ (HandleBeginFrame usec s) = drop n (queue_ s) ∧
    executed (HandleBeginFrame usec s)
      = executed s ++ ((λ x, (x, 0%nat)) <$> take n (queue_ s)).
Proof.
  destruct (HandleBeginFrame_fields usec s) as (-> & -> & -> & _).
  destruct (has_threads s) eqn:Ht.
  - exists 0%nat. unfold HandleBeginFrame_work. rewrite Ht.
    by rewrite take_0, drop_0, app_nil_r.
  - destruct (HandleBeginFrame_work_spec usec s Ht) as (n & _ & ->).
    exists n.
    by destruct (run_items_fields (take n (queue_ s)) 0 (set_queue (drop n (queue_ s)) s))
      as (-> & _ & _ & -> & _ & _ & _ & _ & _ & _ & ->).
Qed.

Lemma owed_log x (n : nat) σ s' m' :
  main_awaiting (main σ) = [] → main_awaiting m' = [] →
  threads s' = threads (wq σ) →
  queue_ s' = drop n (queue_ (wq σ)) →
  executed s' = executed (wq σ) ++ ((λ x, (x, 0%nat)) <$> take n (queue_ (wq σ))) →
  owed x (mkSystem s' m') = owed x σ.
Proof.
  intros Hm Hm' Hth Hq He. unfold owed, awaiting, executions. simpl.
  rewrite Hm, Hm', Hth, Hq, He, fmap_app, fst_fmap_pair, occurrences_app.
  pose proof (occurrences_take_drop x n (queue_ (wq σ))). lia.
Qed.

Lemma owed_same x σ s' m' :
  main_awaiting m' = main_awaiting (main σ) →
  threads s' = threads (wq σ) → queue_ s' = queue_ (wq σ) →
  executed s' = executed (wq σ) →
  owed x (mkSystem s' m') = owed x σ.
Proof.
  intros Hm Hth Hq He. unfold owed, awaiting, executions. simpl.
  by rewrite Hm, Hth, Hq, He.
Qed.

Lemma owed_call x c σ σ' :
  call_step c σ = Some σ' →
  (owed x σ' ≤ owed x σ + (if is_submission x (ACall c) then 1 else 0))%nat.
Proof.
  unfold call_step. destruct (main σ) eqn:Hmain; try done.
  assert (main_awaiting (main σ) = []) as Hm0 by (by rewrite Hmain).
  assert (main_awaiting MReady = main_awaiting (main σ)) as Hm1 by (by rewrite Hmain).
  destruct c as [n| |item|item|items| | |p|usec| |y w].
  - unfold CreateThreads. destruct (has_threads (wq σ)) eqn:Ht.
    + intros [= <-]. rewrite (owed_same x σ); [simpl; lia|done..].
    + apply has_threads_nil in Ht. intros Hs.
      assert (∃ s1, σ' = mkSystem
                (set_threads (map (λ i, mkWorkerThread (S i) false WIdle) (seq 0 n)) s1)
                MReady ∧
              queue_ s1 = queue_ (wq σ) ∧ executed s1 = executed (wq σ)) as (s1 & -> & Hq & He).
      { unfold Pause in Hs. destruct (paused_ (wq σ)).
        - simpl in Hs. injection Hs as <-. by eexists.
        - unfold Pause_acquire, Pause_request, lock in Hs. simpl in Hs.
          destruct (queueMutex_ (wq σ)); [done|]. simpl in Hs. injection Hs as <-.
          by eexists. }
      unfold owed, awaiting, executions. simpl. rewrite Hq, He, Hmain, Ht. simpl.
      rewrite omap_none; [lia|].
      intros a (i & -> & _)%list_elem_of_fmap. done.
  - intros [= <-]. rewrite (owed_same x σ); [simpl; lia|done|..];
      unfold GetFreeItem; by destruct (poolItems_ (wq σ)).
  - destruct (allocated (wq σ) item); [|done].
    destruct (AddWorkItem item (wq σ)) as [s'| |] eqn:Ha; [|done..].
    intros [= <-]. destruct item as [y|].
    + pose proof (AddWorkItem_Ret y _ _ Ha) as (_ & _ & Hq & _ & _ & Hth & He & _).
      unfold owed, awaiting, executions. simpl. rewrite Hmain, Hth, He, Hq. simpl.
      destruct (queue_insert_split (wq σ) y (queue_ (wq σ))) as (b & a & -> & -> & _).
      rewrite !occurrences_app, occurrences_cons.
      destruct (decide (y = x)) as [->|Hne].
      * rewrite bool_decide_true by done. lia.
      * rewrite bool_decide_false by done. lia.
    + injection Ha as <-. rewrite (owed_same x σ); [simpl; lia|done..].
  - destruct item as [y|]; simpl.
    + destruct (lock_guard (remove_found y) (wq σ)) as [[b s']| |] eqn:Hr; [|done..].
      intros [= <-]. simpl.
      apply lock_guard_body in Hr as (s2 & Hr & ->).
      pose proof (remove_found_fields _ _ _ _ Hr) as (_ & Hth & _ & _ & _ & He & _).
      apply remove_found_queue in Hr as Hq.
      unfold owed, awaiting, executions. simpl in *. rewrite Hmain, Hth, He. simpl.
      destruct Hq as [-> | ->]; [|lia].
      pose proof (occurrences_erase x y (queue_ (wq σ))). lia.
    + intros [= <-]. rewrite (owed_same x σ); [lia|done..].
  - unfold RemoveWorkItems.
    destruct (lock_guard _ (wq σ)) as [[b s']| |] eqn:Hr; [|done..].
    intros [= <-]. simpl.
    apply lock_guard_body in Hr as (s2 & Hr & ->).
    pose proof (RemoveWorkItems_loop_fields _ _ _ _ _ Hr) as (_ & Hth & _ & _ & _ & He & _).
    pose proof (RemoveWorkItems_loop_occurrences x _ _ _ _ _ Hr) as Hq.
    unfold owed, awaiting, executions. simpl in *. rewrite Hmain, Hth, He. simpl. lia.
  - destruct (paused_ (wq σ)); intros [= <-]; [simpl; lia|].
    rewrite (owed_same x σ); [simpl; lia|by rewrite Hmain|done..].
  - intros [= <-]. rewrite (owed_same x σ); [simpl; lia|done|..];
      unfold Resume; by destruct (paused_ (wq σ)).
  - destruct (has_threads (wq σ)) eqn:Ht.
    + intros [= <-]. rewrite (owed_same x σ); [simpl; lia|by rewrite Hmain|..];
        unfold Resume; simpl; by destruct (paused_ (wq σ)).
    + destruct (Complete_no_threads_log p (wq σ) Ht) as (n & s' & -> & Hth & Hq & He).
      intros [= <-]. rewrite (owed_log x n σ); [simpl; lia|done..].
  - intros [= <-]. destruct (HandleBeginFrame_log usec (wq σ)) as (n & Hth & Hq & He).
    rewrite (owed_log x n σ); [simpl; lia|done..].
  - intros [= <-]. rewrite (owed_same x σ); [simpl; lia|by rewrite Hmain|..];
      unfold Resume; simpl; by destruct (paused_ (wq σ)).
  - destruct (bool_decide _); [|done]. intros [= <-].
    rewrite (owed_same x σ); [simpl; lia|done..].
Qed.

Lemma owed_main x σ σ' : main_step σ = Some σ' → owed x σ' = owed x σ.
Proof.
  unfold main_step, Pause_acquire, lock.
  destruct (main σ) as [| |p|p|p y|p y|p|p|p|] eqn:Hmain; try done.
  - destruct (queueMutex_ (wq σ)); [done|]. intros [= <-].
    apply owed_same; by rewrite ?Hmain.
  - destruct (queue_ (wq σ)); [intros [= <-]; apply owed_same; by rewrite ?Hmain|].
    destruct (queueMutex_ (wq σ)); [done|]. intros [= <-].
    apply owed_same; by rewrite ?Hmain.
  - destruct (queue_ (wq σ)) as [|y rest] eqn:Hq;
      [intros [= <-]; apply owed_same; by rewrite ?Hmain|].
    destruct (p <=? priority (wq σ) y); intros [= <-];
      [|apply owed_same; by rewrite ?Hmain].
    unfold owed, awaiting, executions. simpl. rewrite Hmain, Hq. simpl.
    rewrite !occurrences_cons. destruct (decide (y = x)); occ_lia.
  - intros [= <-]. unfold owed, awaiting, executions. simpl. rewrite Hmain. simpl.
    rewrite fmap_app, occurrences_app. simpl. rewrite !occurrences_cons.
    change (occurrences x []) with 0%nat. destruct (decide (y = x)); occ_lia.
  - intros [= <-]. apply owed_same; by rewrite ?Hmain.
  - destruct (IsCompleted p (wq σ)); [|by intros [= <-]].
    destruct (queue_ (wq σ)) eqn:Hq;
      [|intros [= <-]; apply owed_same; by rewrite ?Hmain].
    destruct (paused_ (wq σ)); intros [= <-]; apply owed_same; by rewrite ?Hmain.
  - destruct (queueMutex_ (wq σ)); [done|]. intros [= <-].
    apply owed_same; by rewrite ?Hmain.
  - intros [= <-].
    destruct (PurgeCompleted_fields p (wq σ)) as (Hq & He & Hth & _).
    apply owed_same; by rewrite ?Hmain.
Qed.

Lemma owed_worker x k σ s' :
  ProcessItems_step k (wq σ) = Some s' → owed x (mkSystem s' (main σ)) = owed x σ.
Proof.
  unfold ProcessItems_step. destruct (threads (wq σ) !! k) as [w|] eqn:Hk; [|done].
  assert (∀ w' s1,
    awaiting_call w' = awaiting_call w →
    queue_ s1 = queue_ (wq σ) → executed s1 = executed (wq σ) →
    threads s1 = threads (wq σ) →
    owed x (mkSystem (set_worker k w' s1) (main σ)) = owed x σ) as Hsame.
  { intros w' s1 Hw Hq He Hth. unfold owed, awaiting, executions. simpl.
    rewrite Hq, He, Hth, !occurrences_app.
    by rewrite (occurrences_perm x _ _ (omap_insert_same awaiting_call _ k w w' Hk Hw)). }
  destruct (pc w) as [| |y|y|] eqn:Hpc; [| | | |done].
  - destruct (shutDown_ (wq σ)).
    { intros [= <-]. apply Hsame; try done. unfold awaiting_call. simpl. by rewrite Hpc. }
    destruct (pausing_ (wq σ) && negb (wasActive w)).
    { intros [= <-]. by destruct σ. }
    unfold lock. destruct (queueMutex_ (wq σ)); [done|]. intros [= <-].
    apply Hsame; try done. unfold awaiting_call. simpl. by rewrite Hpc.
  - destruct (queue_ (wq σ)) as [|y rest] eqn:Hq; intros [= <-].
    + apply Hsame; try done. unfold awaiting_call. simpl. by rewrite Hpc.
    + unfold owed, awaiting, executions. simpl. rewrite Hq, !occurrences_app.
      rewrite (occurrences_perm x _ _
                 (omap_insert_Some awaiting_call _ k w
                    (mkWorkerThread (index_ w) true (WRun y)) y Hk
                    ltac:(unfold awaiting_call; by rewrite Hpc) eq_refl)).
      rewrite !occurrences_cons. destruct (decide (y = x)); occ_lia.
  - intros [= <-]. unfold owed, awaiting, executions. simpl.
    rewrite fmap_app, !occurrences_app. simpl. rewrite !occurrences_cons.
    change (occurrences x []) with 0%nat.
    pose proof (occurrences_perm x _ _
                  (omap_insert_None awaiting_call _ k w
                     (mkWorkerThread (index_ w) (wasActive w) (WMark y)) y Hk
                     ltac:(unfold awaiting_call; by rewrite Hpc) eq_refl)) as Hperm.
    rewrite occurrences_cons in Hperm. destruct (decide (y = x)); occ_lia.
  - intros [= <-]. apply Hsame; try done. unfold awaiting_call. simpl. by rewrite Hpc.
Qed.

Lemma owed_step x a σ σ' :
  step a σ = Some σ' →
  (owed x σ' ≤ owed x σ + (if is_submission x a then 1 else 0))%nat.
Proof.
  destruct a as [c| |k]; simpl.
  - apply owed_call.
  - intros Hs. rewrite (owed_main x σ σ' Hs). lia.
  - destruct (ProcessItems_step k (wq σ)) as [s'|] eqn:Hs; [|done].
    intros [= <-]. rewrite (owed_worker x k σ s' Hs). lia.
Qed.

Lemma owed_run x tr : ∀ σ σ',
  run tr σ = Some σ' → (owed x σ' ≤ owed x σ + submissions x tr)%nat.
Proof.
  induction tr as [|a tr IH]; intros σ σ'; simpl.
  - intros [= <-]. lia.
  - destruct (step a σ) as [σ1|] eqn:Hstep; [|done]. intros Hrun.
    pose proof (owed_step x a σ σ1 Hstep). pose proof (IH σ1 σ' Hrun).
    unfold submissions in *. rewrite filter_cons.
    destruct (is_submission x a).
    + rewrite decide_True by done. simpl. lia.
    + rewrite decide_False by done. lia.
Qed.

(** X15. In every run of the system, however the threads interleave, the work
    function of an item has been called at most as often as the item was
    submitted; the calls made, the entries of the item in the queue and the
    threads that have taken it and not called it yet together never exceed
    the number of submissions. An item submitted once is run once at most. *)
Theorem executed_at_most_once_per_submission h tr σ x :
  run tr (initial h) = Some σ →
  (executions x (wq σ) + occurrences x (queue_ (wq σ)) + occurrences x (awaiting σ)
   ≤ submissions x tr)%nat ∧
  (executions x (wq σ) ≤ submissions x tr)%nat ∧
  (submissions x tr = 1%nat → x ∈ queue_ (wq σ) → executions x (wq σ) = 0%nat).
Proof.
  intros Hrun. pose proof (owed_run x tr _ _ Hrun) as Hle.
  change (owed x (initial h)) with 0%nat in Hle. unfold owed in Hle.
  split_and!; [lia|lia|].
  intros H1 Hx.
  assert (0 < occurrences x (queue_ (wq σ)))%nat; [|lia].
  clear -Hx. induction Hx as [l|y l Hx IH]; rewrite occurrences_cons.
  - rewrite decide_True by done. lia.
  - lia.
Qed.

Lemma executed_at_most_once_per_submission_witness :
  ∃ σ',
    run (example_trace_barrier ++
         [AMain; AWorker 0; AWorker 0; AWorker 0; AWorker 0])
      (initial (items_with_priorities [5; 1; 5; 3])) = Some σ' ∧
    executed (wq σ') = [(0, 0); (3, 0); (2, 2); (1, 1)]%nat ∧
    (executions 2 (wq σ') ≤ 1)%nat.
Proof.
  assert (∃ σ', run (example_trace_barrier ++
                     [AMain; AWorker 0; AWorker 0; AWorker 0; AWorker 0])
                  (initial (items_with_priorities [5; 1; 5; 3])) = Some σ')
    as [σ' Hrun] by (eexists; vm_compute; reflexivity).
  exists σ'. split; [done|].
  assert (executed ∘ wq <$>
            run (example_trace_barrier ++
                 [AMain; AWorker 0; AWorker 0; AWorker 0; AWorker 0])
              (initial (items_with_priorities [5; 1; 5; 3]))
          = Some [(0, 0); (3, 0); (2, 2); (1, 1)]%nat) as He by (vm_compute; reflexivity).
  rewrite Hrun in He. injection He as He. split; [done|].
  destruct (executed_at_most_once_per_submission _ _ _ 2%nat Hrun) as (_ & Hle & _).
  exact Hle.
Defined.

(** ** [Complete] parks the workers only when the queue is empty *)

Lemma call_step_main c σ σ' :
  call_step c σ = Some σ' →
  main σ = MReady ∧
  (main σ' = MReady ∨ main σ' = MPause ∨ (∃ p, main σ' = MComplete_loop p) ∨
   main σ' = MDestroyed).
Proof.
  unfold call_step, ret_state. destruct (main σ) eqn:Hmain; try done.
  intros Hs. split; [done|].
  destruct c as [n| |item|item|items| | |p|usec| |y w].
  - destruct (CreateThreads n (wq σ)); [|done..]. injection Hs as <-. by left.
  - injection Hs as <-. by left.
  - destruct (allocated (wq σ) item); [|done].
    destruct (AddWorkItem item (wq σ)); [|done..]. injection Hs as <-. by left.
  - destruct (res_bind _ _); [|done..]. injection Hs as <-. by left.
  - destruct (res_bind _ _); [|done..]. injection Hs as <-. by left.
  - destruct (paused_ (wq σ)); injection Hs as <-; [|by right; left].
    by left.
  - injection Hs as <-. by left.
  - destruct (has_threads (wq σ)).
    + injection Hs as <-. right. right. left. by exists p.
    + destruct (Complete p (wq σ)); [|done..]. injection Hs as <-. by left.
  - injection Hs as <-. by left.
  - injection Hs as <-. by right; right; right.
  - destruct (bool_decide _); [|done]. injection Hs as <-. by left.
Qed.

Lemma worker_step_frame k s s' :
  ProcessItems_step k s = Some s' →
  workItems_ s' = workItems_ s ∧ paused_ s' = paused_ s ∧
  pausing_ s' = pausing_ s ∧ poolItems_ s' = poolItems_ s ∧
  (queue_ s' = queue_ s ∨ ∃ x, queue_ s = x :: queue_ s').
Proof.
  unfold ProcessItems_step. destruct (threads s !! k) as [w|]; [|done].
  destruct (pc w) as [| |x|x|]; [| | | |done].
  - destruct (shutDown_ s); [intros [= <-]; split_and!; try done; by left|].
    destruct (pausing_ s && negb (wasActive w));
      [intros [= <-]; split_and!; try done; by left|].
    unfold lock. destruct (queueMutex_ s); [done|].
    intros [= <-]; split_and!; try done; by left.
  - destruct (queue_ s) as [|x rest] eqn:Hq; intros [= <-]; split_and!; try done.
    + left. simpl. by rewrite Hq.
    + right. by exists x.
  - intros [= <-]; split_and!; try done; by left.
  - intros [= <-]; split_and!; try done; by left.
Qed.

Lemma parked_step a σ σ' :
  sys_inv σ → parked_inv σ → step a σ = Some σ' → parked_inv σ'.
Proof.
  intros Hinv [Hpause Hpurge] Hstep. destruct a as [c| |k]; simpl in Hstep.
  - apply call_step_main in Hstep as [_ [Hm|[Hm|[[p Hm]|Hm]]]];
      split; intros q Hq; congruence.
  - revert Hstep. unfold main_step, Pause_acquire, lock.
    destruct (main σ) as [| |p|p|p y|p y|p|p|p|] eqn:Hmain; try done.
    + destruct (queueMutex_ (wq σ)); [done|]. intros [= <-]. by split.
    + destruct (queue_ (wq σ)); [intros [= <-]; by split|].
      destruct (queueMutex_ (wq σ)); [done|]. intros [= <-]. by split.
    + destruct (queue_ (wq σ)) as [|y rest]; [intros [= <-]; by split|].
      destruct (p <=? priority (wq σ) y); intros [= <-]; by split.
    + intros [= <-]. by split.
    + intros [= <-]. by split.
    + destruct (IsCompleted p (wq σ)); [|intros [= <-]; split; intros q Hq; congruence].
      destruct (queue_ (wq σ)) eqn:Hq.
      * destruct (paused_ (wq σ)); intros [= <-]; by split.
      * intros [= <-]. split; [done|]. simpl. intros q _ Hp.
        destruct Hinv as [_ [_ Hunp _ _ _ _ _] _]. rewrite Hunp in Hp; [done|].
        by rewrite Hmain.
    + destruct (queueMutex_ (wq σ)); [done|]. intros [= <-]. split; [done|].
      simpl. intros q _ _. by apply (Hpause p).
    + intros [= <-]. by split.
  - destruct (ProcessItems_step k (wq σ)) as [s'|] eqn:Hs; [|done].
    injection Hstep as <-.
    apply worker_step_frame in Hs as (_ & Hp & _ & _ & Hq).
    assert (queue_ (wq σ) = [] → queue_ s' = []) as Hempty.
    { intros Hnil. destruct Hq as [->|[x Hx]]; [done|]. by rewrite Hnil in Hx. }
    split; simpl.
    + intros p Hm. apply Hempty. by apply (Hpause p).
    + intros p Hm Hpa. apply Hempty. apply (Hpurge p); [done|]. by rewrite <-Hp.
Qed.

Lemma parked_run tr : ∀ σ σ',
  sys_inv σ → parked_inv σ → run tr σ = Some σ' → parked_inv σ'.
Proof.
  induction tr as [|a tr IH]; intros σ σ' Hinv Hpk; simpl.
  - by intros [= <-].
  - destruct (step a σ) as [σ1|] eqn:Hstep; [|done].
    apply IH; [by eapply sys_inv_step|by eapply parked_step].
Qed.

Lemma parked_reachable σ : reachable σ → parked_inv σ.
Proof.
  intros (h & tr & Hrun). eapply parked_run; [apply sys_inv_initial| |done].
  by split.
Qed.

(** X16. With worker threads, [Complete] calls [Pause] only when it finds the
    queue empty after its busy-wait, and the workers cannot refill it. So in
    every run, when a call of [Complete] returns with the queue paused, the
    queue is empty: the workers are never parked while an item is queued.
    When the main thread runs the call alone, the queue is left paused
    exactly when it is left empty, and [completing_] is cleared. *)
Theorem Complete_parks_only_when_idle :
  (∀ σ a σ' p,
     reachable σ → Complete_returns p a σ σ' → has_threads (wq σ) = true →
     paused_ (wq σ') = true →
     queue_ (wq σ') = [] ∧ queueMutex_ (wq σ') = Some MainThread) ∧
  (∀ s p s',
     has_threads s = true → Complete p s = Ret s' →
     (queue_ s' = [] ↔ paused_ s' = true) ∧ completing_ s' = false).
Proof.
  split.
  - intros σ a σ' p Hreach [Hstep Hret] Ht Hp.
    pose proof (sys_inv_reachable σ Hreach) as Hinv.
    pose proof (parked_reachable σ Hreach) as [_ Hpurge].
    pose proof (sys_inv_step _ _ _ Hinv Hstep) as [_ [Hpaused _ _ _ _ _ _] _].
    split; [|by apply Hpaused].
    destruct Hret as [(-> & Hm & Hm')|[-> Hm]].
    + revert Hstep. simpl. unfold call_step. rewrite Hm, Ht. intros [= <-]. done.
    + revert Hstep Hp. simpl. unfold main_step. rewrite Hm. intros [= <-]. simpl.
      destruct (PurgeCompleted_fields p (wq σ)) as (-> & _ & _ & _ & _ & -> & _).
      exact (Hpurge p Hm).
  - intros s p s' Ht. unfold Complete.
    assert (has_threads (set_completing true s) = true) as -> by done.
    set (s1 := Resume (set_completing true s)).
    assert (paused_ s1 = false) as Hp1.
    { unfold s1, Resume. simpl. by destruct (paused_ s) eqn:Hp. }
    destruct (Complete_loop_locked p (queue_ s1) s1) as [s2| |] eqn:Hloop; [|done..].
    assert (∀ q s0 s3, Complete_loop_locked p q s0 = Ret s3 → paused_ s3 = paused_ s0)
      as Hkeep.
    { clear. induction q as [|x q IH]; intros s0 s3; simpl; [by intros [= <-]|].
      unfold lock. destruct (queueMutex_ s0); [done|]. simpl.
      destruct (p <=? _); [|by intros [= <-]].
      intros Hl. by rewrite (IH _ _ Hl). }
    pose proof (Hkeep _ _ _ Hloop) as Hp2. rewrite Hp1 in Hp2.
    simpl. destruct (IsCompleted p s2); [|done].
    destruct (queue_ s2) as [|x rest] eqn:Hq2.
    + unfold Pause. rewrite Hp2. unfold Pause_acquire, Pause_request, lock. simpl.
      destruct (queueMutex_ s2); [done|]. simpl. intros [= <-].
      destruct (PurgeCompleted_fields p
                  (set_pausing false (set_paused true
                     (set_queueMutex (Some MainThread) (set_pausing true s2)))))
        as (Hq & _ & _ & _ & _ & Hp & _).
      change (queue_ (set_completing false ?t)) with (queue_ t).
      change (paused_ (set_completing false ?t)) with (paused_ t).
      rewrite Hq, Hp. simpl. by rewrite Hq2.
    + simpl. intros [= <-].
      destruct (PurgeCompleted_fields p s2) as (Hq & _ & _ & _ & _ & Hp & _).
      change (queue_ (set_completing false ?t)) with (queue_ t).
      change (paused_ (set_completing false ?t)) with (paused_ t).
      rewrite Hq, Hp, Hq2, Hp2. by split.
Qed.

Lemma Complete_parks_only_when_idle_witness :
  ∃ s1 s2 s',
    CreateThreads 1 (WorkQueue_new (items_with_priorities [5; 1; 5; 3])) = Ret s1 ∧
    AddWorkItem (Some 0%nat) s1 = Ret s2 ∧
    paused_ s2 = false ∧ queue_ s2 = [0%nat] ∧
    Complete 0 s2 = Ret s' ∧
    queue_ s' = [] ∧ paused_ s' = true.
Proof.
  assert (∃ s1 s2 s',
            CreateThreads 1 (WorkQueue_new (items_with_priorities [5; 1; 5; 3])) = Ret s1 ∧
            AddWorkItem (Some 0%nat) s1 = Ret s2 ∧
            has_threads s2 = true ∧
            paused_ s2 = false ∧ queue_ s2 = [0%nat] ∧
            Complete 0 s2 = Ret s' ∧ queue_ s' = [])
    as (s1 & s2 & s' & H1 & H2 & Ht & Hp & Hq & Hc & Hq').
  { do 3 eexists. split_and!; vm_compute; reflexivity. }
  exists s1, s2, s'. split_and!; try done.
  by apply (proj2 Complete_parks_only_when_idle s2 0 s' Ht Hc).
Defined.

(** ** The flags [pausing_] and [shutDown_] *)

Lemma Complete_loop_flags priority0 s :
  pausing_ (Complete_loop priority0 (queue_ s) s) = pausing_ s ∧
  shutDown_ (Complete_loop priority0 (queue_ s) s) = shutDown_ s.
Proof.
  rewrite Complete_loop_eq. destruct (complete_turns _ _ _); [done|].
  by destruct (run_items_fields (take (S n) (queue_ s)) 0 (set_queue (drop (S n) (queue_ s)) s))
    as (_ & _ & _ & _ & _ & _ & -> & -> & _).
Qed.

Lemma HandleBeginFrame_flags usec s :
  pausing_ (HandleBeginFrame usec s) = pausing_ s ∧
  shutDown_ (HandleBeginFrame usec s) = shutDown_ s.
Proof.
  unfold HandleBeginFrame, PurgePool. simpl.
  destruct (PurgeCompleted_fields 0 (HandleBeginFrame_work usec s))
    as (_ & _ & _ & _ & _ & _ & -> & ->).
  unfold HandleBeginFrame_work. destruct (has_threads s); [done|].
  rewrite HandleBeginFrame_loop_eq. simpl.
  destruct (frame_turns _ _ _ _); [done|].
  by destruct (run_items_fields (take (S n) (queue_ s)) 0 (set_queue (drop (S n) (queue_ s)) s))
    as (_ & _ & _ & _ & _ & _ & -> & -> & _).
Qed.

Lemma call_step_flags c σ σ' :
  call_step c σ = Some σ' →
  pausing_ (wq σ) = false → shutDown_ (wq σ) = false →
  (pausing_ (wq σ') = false ∨ main σ' = MPause) ∧
  (main σ' = MDestroyed ∧ shutDown_ (wq σ') = true ∨
   main σ' ≠ MDestroyed ∧ shutDown_ (wq σ') = false) ∧
  (threads (wq σ') = threads (wq σ) ∨
   ∀ k w, threads (wq σ') !! k = Some w → pc w = WIdle).
Proof.
  unfold call_step. destruct (main σ) eqn:Hmain; try done. intros Hs Hpa Hsd.
  destruct c as [n| |item|item|items| | |p|usec| |y w].
  - revert Hs. unfold CreateThreads. destruct (has_threads (wq σ)).
    { intros [= <-]. split_and!; [by left|by right|by left]. }
    unfold Pause. destruct (paused_ (wq σ)).
    + simpl. intros [= <-]. simpl. split_and!; [by left|by right|right].
      intros k w (i & -> & _)%list_lookup_fmap_Some. done.
    + unfold Pause_acquire, Pause_request, lock. simpl.
      destruct (queueMutex_ (wq σ)); [done|]. simpl. intros [= <-]. simpl.
      split_and!; [by left|by right|right].
      intros k w (i & -> & _)%list_lookup_fmap_Some. done.
  - injection Hs as <-. simpl. unfold GetFreeItem.
    destruct (poolItems_ (wq σ)); simpl; split_and!; try (by left); by right.
  - destruct (allocated (wq σ) item); [|done].
    destruct (AddWorkItem item (wq σ)) as [s'| |] eqn:Ha; [|done..].
    injection Hs as <-. simpl. destruct item as [y|].
    + apply AddWorkItem_Ret in Ha as (_ & _ & _ & _ & _ & -> & _ & _ & -> & ->).
      split_and!; [by left|by right|by left].
    + injection Ha as <-. split_and!; [by left|by right|by left].
  - destruct item as [y|]; simpl in Hs.
    + destruct (lock_guard (remove_found y) (wq σ)) as [[b s']| |] eqn:Hr; [|done..].
      injection Hs as <-. simpl.
      apply lock_guard_body in Hr as (s2 & Hr & ->).
      apply remove_found_fields in Hr as (_ & Hth & _ & Hp & Hs & _).
      simpl in *. rewrite Hth, Hp, Hs. split_and!; [by left|by right|by left].
    + injection Hs as <-. split_and!; [by left|by right|by left].
  - unfold RemoveWorkItems in Hs.
    destruct (lock_guard _ (wq σ)) as [[b s']| |] eqn:Hr; [|done..].
    injection Hs as <-. simpl.
    apply lock_guard_body in Hr as (s2 & Hr & ->).
    apply RemoveWorkItems_loop_fields in Hr as (_ & Hth & _ & Hp & Hs & _).
    simpl in *. rewrite Hth, Hp, Hs. split_and!; [by left|by right|by left].
  - destruct (paused_ (wq σ)); injection Hs as <-.
    + rewrite Hmain. split_and!; [by left|by right|by left].
    + simpl. split_and!; [by right|by right|by left].
  - injection Hs as <-. simpl. unfold Resume.
    destruct (paused_ (wq σ)); simpl; split_and!; try (by left); by right.
  - destruct (has_threads (wq σ)) eqn:Ht.
    + injection Hs as <-. simpl. unfold Resume. simpl.
      destruct (paused_ (wq σ)); simpl; split_and!; try (by left); by right.
    + rewrite Complete_no_threads in Hs by done. injection Hs as <-. simpl.
      change (queue_ (wq σ)) with (queue_ (set_completing true (wq σ))).
      destruct (PurgeCompleted_fields p
                  (Complete_loop p (queue_ (set_completing true (wq σ)))
                     (set_completing true (wq σ))))
        as (_ & _ & -> & _ & _ & _ & -> & ->).
      destruct (Complete_loop_flags p (set_completing true (wq σ))) as [-> ->].
      destruct (Complete_loop_fields p (set_completing true (wq σ))) as (-> & _).
      simpl. split_and!; [by left|by right|by left].
  - injection Hs as <-. cbn [wq main].
    destruct (HandleBeginFrame_flags usec (wq σ)) as [-> ->].
    destruct (HandleBeginFrame_log usec (wq σ)) as (n & -> & _).
    split_and!; [by left|by right|by left].
  - injection Hs as <-. simpl. unfold Resume. simpl.
    destruct (paused_ (wq σ)); simpl; split_and!; try (by left).
  - destruct (bool_decide _); [|done]. injection Hs as <-. simpl.
    split_and!; [by left|by right|by left].
Qed.

Ltac flags_case :=
  intros [= <-]; split_and!; try done; simpl; intros Hp;
  first [done | by left; eexists | right; by split_and!].

Lemma main_step_flags σ σ' :
  main_step σ = Some σ' →
  (pausing_ (wq σ') = true →
   (∃ p, main σ' = MComplete_pause p) ∨
   (pausing_ (wq σ) = true ∧ main σ ≠ MPause ∧ ∀ p, main σ ≠ MComplete_pause p)) ∧
  main σ ≠ MDestroyed ∧ main σ' ≠ MDestroyed.
Proof.
  unfold main_step, Pause_acquire, lock.
  destruct (main σ) as [| |p|p|p y|p y|p|p|p|] eqn:Hmain; try done.
  - destruct (queueMutex_ (wq σ)); [done|]. flags_case.
  - destruct (queue_ (wq σ)); [flags_case|].
    destruct (queueMutex_ (wq σ)); [done|]. flags_case.
  - destruct (queue_ (wq σ)) as [|y rest]; [flags_case|].
    destruct (p <=? priority (wq σ) y); flags_case.
  - flags_case.
  - flags_case.
  - destruct (IsCompleted p (wq σ)).
    + destruct (queue_ (wq σ)); [|flags_case].
      destruct (paused_ (wq σ)); flags_case.
    + intros [= <-]. split_and!; try done; try (by rewrite Hmain). intros Hp. right.
      by split_and!.
  - destruct (queueMutex_ (wq σ)); [done|]. flags_case.
  - intros [= <-]. split_and!; try done. simpl.
    destruct (PurgeCompleted_fields p (wq σ)) as (_ & _ & _ & _ & _ & _ & -> & _).
    intros Hp. right. by split_and!.
Qed.

Lemma flags_step a σ σ' : flags_inv σ → step a σ = Some σ' → flags_inv σ'.
Proof.
  intros (Hpa & Hsd & Hst) Hstep. destruct a as [c| |k]; simpl in Hstep.
  - pose proof (call_step_main c σ σ' Hstep) as [Hm _].
    assert (pausing_ (wq σ) = false) as Hpa0.
    { destruct (pausing_ (wq σ)); [|done]. destruct (Hpa eq_refl) as [?|[? ?]]; congruence. }
    assert (shutDown_ (wq σ) = false) as Hsd0.
    { destruct (shutDown_ (wq σ)); [|done]. pose proof (proj1 Hsd eq_refl). congruence. }
    destruct (call_step_flags c σ σ' Hstep Hpa0 Hsd0) as (Hp' & Hs' & Ht').
    split_and!.
    + intros Hp. destruct Hp' as [?|?]; [congruence|by left].
    + destruct Hs' as [[? ?]|[? ?]]; split; intros; congruence.
    + intros k w Hk Hpc. destruct Ht' as [Hth|Hidle].
      * rewrite Hth in Hk. pose proof (Hst k w Hk Hpc). congruence.
      * rewrite (Hidle k w Hk) in Hpc. done.
  - pose proof (main_step_flags σ σ' Hstep) as (Hp' & Hm & Hm').
    pose proof (main_step_threads σ σ' Hstep) as [Hth Hs].
    split_and!.
    + intros Hp. destruct (Hp' Hp) as [?|(Hp0 & H1 & H2)]; [by right|].
      destruct (Hpa Hp0) as [?|[q ?]]; [done|by destruct (H2 q)].
    + rewrite Hs. split; [|done]. intros Hsd'. by apply Hsd in Hsd'.
    + intros k w Hk Hpc. rewrite Hth in Hk. rewrite Hs. by apply (Hst k w).
  - destruct (ProcessItems_step k (wq σ)) as [s'|] eqn:Hs; [|done].
    injection Hstep as <-. unfold flags_inv. simpl.
    pose proof (worker_step_frame k _ _ Hs) as (_ & _ & Hp & _).
    pose proof (worker_step_threads k _ _ Hs) as [Hsd' Hw].
    rewrite Hp, Hsd'. split_and!; [done|done|].
    intros j w0 Hj Hpc. destruct Hw as [[-> _]|(w & w' & Hk & Hth & _ & _ & Hstop)].
    + by apply (Hst j w0).
    + rewrite Hth in Hj. destruct (decide (j = k)) as [->|Hne].
      * rewrite list_lookup_insert_eq in Hj by (by eapply lookup_lt_Some).
        injection Hj as <-. by apply Hstop.
      * rewrite list_lookup_insert_ne in Hj by done. by apply (Hst j w0).
Qed.

Lemma flags_run tr : ∀ σ σ', flags_inv σ → run tr σ = Some σ' → flags_inv σ'.
Proof.
  induction tr as [|a tr IH]; intros σ σ' Hinv; simpl.
  - by intros [= <-].
  - destruct (step a σ) as [σ1|] eqn:Hstep; [|done].
    apply IH. by eapply flags_step.
Qed.

Lemma flags_reachable σ : reachable σ → flags_inv σ.
Proof.
  intros (h & tr & Hrun). eapply flags_run; [|done]. by split_and!.
Qed.

(** X17. In every state the system can reach: [pausing_] is set only while the
    main thread is inside [Pause] waiting for the mutex, so between two
    calls it is clear; [shutDown_] is set exactly from the destructor on;
    and a worker has left [ProcessItems] only if [shutDown_] is set, so
    before destruction every worker is still in its loop. *)
Theorem flags_discipline σ :
  reachable σ →
  (pausing_ (wq σ) = true → main σ = MPause ∨ ∃ p, main σ = MComplete_pause p) ∧
  (main σ = MReady → pausing_ (wq σ) = false ∧ shutDown_ (wq σ) = false) ∧
  (shutDown_ (wq σ) = true ↔ main σ = MDestroyed) ∧
  (∀ k w, threads (wq σ) !! k = Some w → pc w = WStopped → main σ = MDestroyed).
Proof.
  intros Hreach. destruct (flags_reachable σ Hreach) as (Hpa & Hsd & Hst).
  split_and!; [done| |done|].
  - intros Hm. split.
    + destruct (pausing_ (wq σ)); [|done]. destruct (Hpa eq_refl) as [?|[? ?]]; congruence.
    + destruct (shutDown_ (wq σ)); [|done]. pose proof (proj1 Hsd eq_refl). congruence.
  - intros k w Hk Hpc. apply Hsd. by apply (Hst k w).
Qed.

Lemma flags_discipline_witness :
  main example_paused = MReady ∧
  pausing_ (wq example_paused) = false ∧ shutDown_ (wq example_paused) = false.
Proof.
  destruct (flags_discipline example_paused example_paused_reachable) as (_ & H & _).
  split; [vm_compute; reflexivity|]. apply H. vm_compute. reflexivity.
Defined.

(** ** The workers drain the queue *)

Lemma ready_run_frame tr : ∀ σ σ',
  Forall internal tr → run tr σ = Some σ' → main σ = MReady →
  main σ' = MReady ∧ workItems_ (wq σ') = workItems_ (wq σ) ∧
  paused_ (wq σ') = paused_ (wq σ) ∧
  length (threads (wq σ')) = length (threads (wq σ)) ∧
  ∃ ks, tr = AWorker <$> ks.
Proof.
  induction tr as [|a tr IH]; intros σ σ' Hint; simpl.
  - intros [= <-] Hm. split_and!; try done. by exists [].
  - apply Forall_cons in Hint as [Ha Hint].
    destruct (step a σ) as [σ1|] eqn:Hstep; [|done]. intros Hrun Hm.
    destruct Ha as [->|[k ->]]; simpl in Hstep.
    { unfold main_step in Hstep. by rewrite Hm in Hstep. }
    destruct (ProcessItems_step k (wq σ)) as [s'|] eqn:Hs; [|done].
    injection Hstep as <-.
    destruct (IH _ _ Hint Hrun Hm) as (Hm' & Hl & Hp & Hlen & ks & ->).
    pose proof (worker_step_frame k _ _ Hs) as (Hl1 & Hp1 & _).
    simpl in *. rewrite Hl, Hp, Hlen, Hl1, Hp1. split_and!; try done.
    + apply worker_step_threads in Hs as [_ [[-> _]|(w & w' & _ & -> & _)]]; [done|].
      by rewrite length_insert.
    + by exists (k :: ks).
Qed.

Lemma drain_one σ w x rest :
  threads (wq σ) !! 0%nat = Some w → pc w = WIdle →
  shutDown_ (wq σ) = false → pausing_ (wq σ) = false →
  queueMutex_ (wq σ) = None → queue_ (wq σ) = x :: rest →
  ∃ σ',
    run (replicate 4 (AWorker 0)) σ = Some σ' ∧ main σ' = main σ ∧
    queue_ (wq σ') = rest ∧
    threads (wq σ') = <[0%nat := mkWorkerThread (index_ w) true WIdle]> (threads (wq σ)) ∧
    shutDown_ (wq σ') = false ∧ pausing_ (wq σ') = false ∧
    queueMutex_ (wq σ') = None ∧
    executed (wq σ') = executed (wq σ) ++ [(x, index_ w)].
Proof.
  intros Hk Hpc Hsd Hpa Hm Hq.
  assert (0 < length (threads (wq σ)))%nat as Hlen by (by eapply lookup_lt_Some).
  eexists. split.
  - erewrite run_worker.
    2: { unfold ProcessItems_step, lock. by rewrite Hk, Hpc, Hsd, Hpa, Hm. }
    erewrite run_worker.
    2: { unfold ProcessItems_step. simpl.
         rewrite list_lookup_insert_eq by done. simpl. by rewrite Hq. }
    erewrite run_worker.
    2: { unfold ProcessItems_step. simpl.
         rewrite list_lookup_insert_eq by (by rewrite length_insert). done. }
    erewrite run_worker.
    2: { unfold ProcessItems_step. simpl.
         rewrite list_lookup_insert_eq by (by rewrite !length_insert). done. }
    done.
  - simpl. split_and!; try done. by rewrite !list_insert_insert_eq.
Qed.

Lemma drain_all (q : list nat) : ∀ σ w,
  queue_ (wq σ) = q →
  threads (wq σ) !! 0%nat = Some w → pc w = WIdle →
  shutDown_ (wq σ) = false → pausing_ (wq σ) = false →
  queueMutex_ (wq σ) = None →
  ∃ n σ',
    run (replicate n (AWorker 0)) σ = Some σ' ∧ main σ' = main σ ∧
    queue_ (wq σ') = [] ∧
    (∃ w', threads (wq σ') = <[0%nat := w']> (threads (wq σ)) ∧ pc w' = WIdle ∧
           index_ w' = index_ w) ∧
    executed (wq σ') = executed (wq σ) ++ ((λ x, (x, index_ w)) <$> q).
Proof.
  induction q as [|x rest IH]; intros σ w Hq Hk Hpc Hsd Hpa Hm.
  - exists 0%nat, σ. split_and!; try done.
    + exists w. split_and!; try done. by rewrite list_insert_id.
    + by rewrite app_nil_r.
  - destruct (drain_one σ w x rest Hk Hpc Hsd Hpa Hm Hq)
      as (σ1 & Hrun1 & Hm1 & Hq1 & Hth1 & Hsd1 & Hpa1 & Hmx1 & He1).
    assert (0 < length (threads (wq σ)))%nat as Hlen by (by eapply lookup_lt_Some).
    destruct (IH σ1 (mkWorkerThread (index_ w) true WIdle) Hq1)
      as (n & σ2 & Hrun2 & Hm2 & Hq2 & (w' & Hth2 & Hpc' & Hi') & He2); try done.
    { rewrite Hth1. by rewrite list_lookup_insert_eq. }
    exists (4 + n)%nat, σ2. split_and!.
    + by rewrite replicate_add, run_app, Hrun1.
    + congruence.
    + done.
    + exists w'. split_and!; try done.
      by rewrite Hth2, Hth1, list_insert_insert_eq.
    + rewrite He2, He1. simpl. by rewrite <-app_assoc.
Qed.

(** X18. The workers get the work done: from every reachable state in which the
    main thread is free, worker threads exist and the queue is not paused,
    there are steps of the workers alone after which the queue is empty and
    every live item is flagged completed, so that [IsCompleted] holds for
    every threshold. The live list itself is not changed by the workers:
    only a purge on the main thread removes items from it. *)
Theorem workers_can_drain_queue σ :
  reachable σ → main σ = MReady →
  has_threads (wq σ) = true → paused_ (wq σ) = false →
  ∃ ks σ',
    run (AWorker <$> ks) σ = Some σ' ∧ main σ' = MReady ∧
    queue_ (wq σ') = [] ∧ workItems_ (wq σ') = workItems_ (wq σ) ∧
    (∀ x, x ∈ workItems_ (wq σ') → completed (wq σ') x = true) ∧
    (∀ p, IsCompleted p (wq σ') = true).
Proof.
  intros Hreach Hmain Ht Hp.
  pose proof (sys_inv_reachable σ Hreach) as Hinv.
  pose proof (flags_reachable σ Hreach) as Hfl.
  destruct (settle_workers (length (threads (wq σ))) σ)
    as (tr1 & σ1 & Hrun1 & Hint1 & Hm1 & Hl1 & Hq1).
  rewrite Hmain in Hm1.
  destruct (ready_run_frame tr1 σ σ1 Hint1 Hrun1 Hmain) as (_ & Hli1 & Hp1 & _ & ks1 & ->).
  pose proof (sys_inv_run _ _ _ Hinv Hrun1) as Hinv1.
  pose proof (flags_run _ _ _ Hfl Hrun1) as (Hpa1 & Hsd1 & Hst1).
  assert (∀ j w, threads (wq σ1) !! j = Some w → quiet w) as Hquiet.
  { intros j w Hj. apply (Hq1 j w); [|done]. rewrite <-Hl1. by eapply lookup_lt_Some. }
  assert (pausing_ (wq σ1) = false) as Hpaus.
  { destruct (pausing_ (wq σ1)); [|done]. destruct (Hpa1 eq_refl) as [?|[? ?]]; congruence. }
  assert (shutDown_ (wq σ1) = false) as Hshut.
  { destruct (shutDown_ (wq σ1)); [|done]. pose proof (proj1 Hsd1 eq_refl). congruence. }
  assert (queueMutex_ (wq σ1) = None) as Hfree.
  { apply quiet_mutex_free; try done; [congruence|]. intros p. by rewrite Hm1. }
  assert (∃ w0, threads (wq σ1) !! 0%nat = Some w0) as [w0 Hk0].
  { apply lookup_lt_is_Some. rewrite Hl1. unfold has_threads in Ht.
    destruct (threads (wq σ)); [done|simpl; lia]. }
  assert (pc w0 = WIdle) as Hpc0.
  { destruct (Hquiet _ _ Hk0) as [?|Hstop]; [done|].
    rewrite (Hst1 _ _ Hk0 Hstop) in Hshut. done. }
  destruct (drain_all (queue_ (wq σ1)) σ1 w0 eq_refl Hk0 Hpc0 Hshut Hpaus Hfree)
    as (n & σ2 & Hrun2 & Hm2 & Hq2 & (w' & Hth2 & Hpc' & _) & _).
  assert (run (AWorker <$> (ks1 ++ replicate n 0%nat)) σ = Some σ2) as Hrun.
  { by rewrite fmap_app, run_app, Hrun1, fmap_replicate. }
  rewrite Hm1 in Hm2.
  destruct (ready_run_frame (replicate n (AWorker 0)) σ1 σ2
              (Forall_internal_workers n 0) Hrun2 Hm1) as (_ & Hli2 & _).
  pose proof (sys_inv_run _ _ _ Hinv1 Hrun2) as [Hwq2 _ _].
  assert (in_flight σ2 = []) as Hfl2.
  { unfold in_flight. rewrite Hm2. simpl. apply quiet_no_items.
    intros j w Hj. rewrite Hth2 in Hj. destruct (decide (j = 0%nat)) as [->|Hne].
    - rewrite list_lookup_insert_eq in Hj by (by eapply lookup_lt_Some).
      injection Hj as <-. by left.
    - rewrite list_lookup_insert_ne in Hj by done. by apply (Hquiet j). }
  rewrite Hfl2 in Hwq2. destruct Hwq2 as [_ _ _ _ _ _ _ Hacc].
  assert (∀ x, x ∈ workItems_ (wq σ2) → completed (wq σ2) x = true) as Hall.
  { intros x Hx. destruct (Hacc x Hx) as [Hin|[?|Hin]]; [|done|].
    - rewrite Hq2 in Hin. by apply elem_of_nil in Hin.
    - by apply elem_of_nil in Hin. }
  exists (ks1 ++ replicate n 0%nat), σ2. split_and!; try done.
  - by rewrite Hli2, Hli1.
  - intros p. apply IsCompleted_true. auto.
Qed.

Lemma workers_can_drain_queue_witness :
  ∃ σ0 ks σ',
    run [ACall (CallCreateThreads 2); ACall (CallAddWorkItem (Some 0%nat));
         ACall (CallAddWorkItem (Some 1%nat)); AWorker 1]
      (initial (items_with_priorities [5; 1; 5; 3])) = Some σ0 ∧
    queue_ (wq σ0) = [0; 1]%nat ∧
    run (AWorker <$> ks) σ0 = Some σ' ∧
    queue_ (wq σ') = [] ∧ IsCompleted 0 (wq σ') = true.
Proof.
  assert (∃ σ0,
            run [ACall (CallCreateThreads 2); ACall (CallAddWorkItem (Some 0%nat));
                 ACall (CallAddWorkItem (Some 1%nat)); AWorker 1]
              (initial (items_with_priorities [5; 1; 5; 3])) = Some σ0 ∧
            main σ0 = MReady ∧ has_threads (wq σ0) = true ∧
            paused_ (wq σ0) = false ∧ queue_ (wq σ0) = [0; 1]%nat)
    as (σ0 & Hrun0 & Hm & Ht & Hp & Hq).
  { eexists. split_and!; vm_compute; reflexivity. }
  assert (reachable σ0) as Hreach by (by eexists _, _).
  destruct (workers_can_drain_queue σ0 Hreach Hm Ht Hp)
    as (ks & σ' & Hrun & _ & Hq' & _ & _ & Hc).
  exists σ0, ks, σ'. by split_and!.
Defined.

(** ** A completed item has run *)

Lemma completed_ReturnToPool x s i :
  completed (ReturnToPool x s) i = true → completed s i = true.
Proof.
  unfold completed. rewrite deref_ReturnToPool.
  destruct (decide (x = i)); [|done]. by destruct (pooled_ (deref s i)).
Qed.

Lemma remove_found_completed x s b s' :
  remove_found x s = (b, s') →
  (∀ i, i ∈ workItems_ s' → i ∈ workItems_ s) ∧
  (∀ i, completed s' i = true → completed s i = true) ∧
  executed s' = executed s.
Proof.
  unfold remove_found. destruct (decide (x ∈ queue_ s)); [|by intros [= _ <-]].
  destruct (decide (x ∈ workItems_ s)); [|by intros [= _ <-]].
  intros [= _ <-]. split_and!.
  - intros i Hi. by apply elem_of_erase_1 in Hi.
  - intros i Hc. by apply (completed_ReturnToPool x (set_queue (erase x (queue_ s)) s)).
  - simpl. unfold ReturnToPool. by destruct (pooled_ _).
Qed.

Lemma RemoveWorkItems_loop_completed items : ∀ removed s n s',
  RemoveWorkItems_loop items removed s = (n, s') →
  (∀ i, i ∈ workItems_ s' → i ∈ workItems_ s) ∧
  (∀ i, completed s' i = true → completed s i = true) ∧
  executed s' = executed s.
Proof.
  induction items as [|[y|] items IH]; intros removed s n s'; simpl.
  - by intros [= _ <-].
  - destruct (remove_found y s) as [b s1] eqn:Hr. intros Hloop.
    apply IH in Hloop as (Hl & Hc & He).
    apply remove_found_completed in Hr as (Hl1 & Hc1 & He1).
    split_and!; [auto|auto|congruence].
  - apply IH.
Qed.

Lemma PurgeCompleted_loop_completed priority0 l : ∀ s kept s',
  PurgeCompleted_loop priority0 l s = (kept, s') →
  (∀ i, i ∈ kept → i ∈ l) ∧
  (∀ i, completed s' i = true → completed s i = true).
Proof.
  induction l as [|j l IH]; intros s kept s'; simpl.
  - by intros [= <- <-].
  - destruct (completed s j && (priority0 <=? priority s j)).
    + intros Hloop. apply IH in Hloop as (Hk & Hc). split.
      * intros i Hi. right. by apply Hk.
      * intros i Hi. apply Hc, completed_ReturnToPool in Hi.
        by destruct (sendEvent_ (deref s j)).
    + destruct (PurgeCompleted_loop priority0 l s) as [kept0 s0] eqn:Hloop.
      intros [= <- <-]. apply IH in Hloop as (Hk & Hc). split; [|done].
      intros i [->|Hi]%elem_of_cons; [by left|right; by apply Hk].
Qed.

Lemma PurgeCompleted_completed priority0 s :
  (∀ i, i ∈ workItems_ (PurgeCompleted priority0 s) → i ∈ workItems_ s) ∧
  (∀ i, completed (PurgeCompleted priority0 s) i = true → completed s i = true) ∧
  executed (PurgeCompleted priority0 s) = executed s.
Proof.
  destruct (PurgeCompleted_fields priority0 s) as (_ & He & _).
  split_and!; [| |done]; unfold PurgeCompleted;
    destruct (PurgeCompleted_loop priority0 (workItems_ s) s) as [kept s'] eqn:Hloop;
    apply PurgeCompleted_loop_completed in Hloop as (Hk & Hc); done.
Qed.

Lemma HandleBeginFrame_completed usec s :
  (∀ i, i ∈ workItems_ (HandleBeginFrame usec s) →
        i ∈ workItems_ (HandleBeginFrame_work usec s)) ∧
  (∀ i, completed (HandleBeginFrame usec s) i = true →
        completed (HandleBeginFrame_work usec s) i = true) ∧
  executed (HandleBeginFrame usec s) = executed (HandleBeginFrame_work usec s).
Proof.
  destruct (PurgeCompleted_completed 0 (HandleBeginFrame_work usec s)) as (Hl & Hc & He).
  split_and!; [exact Hl|exact Hc|exact He].
Qed.

Lemma ran_run_items l i s x : ran (run_items l i s) x ↔ ran s x ∨ x ∈ l.
Proof.
  unfold ran.
  destruct (run_items_fields l i s) as (_ & _ & _ & _ & _ & _ & _ & _ & _ & _ & ->).
  by rewrite fmap_app, fst_fmap_pair, elem_of_app.
Qed.

Lemma completed_run_items l i s x :
  completed (run_items l i s) x = true → x ∈ l ∨ completed s x = true.
Proof.
  unfold completed. rewrite deref_run_items.
  destruct (decide (x ∈ l)); [by left|by right].
Qed.

(** What a step that runs a front part of the queue on the main thread and
    purges does to the flags and the log. *)
Lemma drained_completed (n : nat) s s1 s' :
  s1 = run_items (take n (queue_ s)) 0 (set_queue (drop n (queue_ s)) s) →
  (∀ i, i ∈ workItems_ s' → i ∈ workItems_ s1) →
  (∀ i, completed s' i = true → completed s1 i = true) →
  executed s' = executed s1 →
  (∀ x, ran s x → ran s' x) ∧
  (∀ x, x ∈ workItems_ s' → completed s' x = true →
        ran s' x ∨ (x ∈ workItems_ s ∧ completed s x = true)).
Proof.
  intros -> Hl Hc He.
  assert (∀ x, ran s' x ↔ ran s x ∨ x ∈ take n (queue_ s)) as Hran.
  { intros x. unfold ran at 1. rewrite He.
    exact (ran_run_items _ _ (set_queue (drop n (queue_ s)) s) x). }
  split.
  - intros x Hx. apply Hran. by left.
  - intros x Hx Hcx. apply Hc, completed_run_items in Hcx as [Hin|Hcx].
    + left. apply Hran. by right.
    + right. split; [|done]. apply Hl in Hx.
      destruct (run_items_fields (take n (queue_ s)) 0 (set_queue (drop n (queue_ s)) s))
        as (_ & Hw & _).
      by rewrite Hw in Hx.
Qed.

Lemma call_step_completed c σ σ' :
  sys_inv σ → call_step c σ = Some σ' →
  (∀ x, ran (wq σ) x → ran (wq σ') x) ∧
  (∀ x, x ∈ workItems_ (wq σ') → completed (wq σ') x = true →
        ran (wq σ') x ∨ (x ∈ workItems_ (wq σ) ∧ completed (wq σ) x = true)).
Proof.
  intros [[_ _ _ _ _ _ Halloc _] _ _].
  assert (∀ s',
    executed s' = executed (wq σ) →
    (∀ i, i ∈ workItems_ s' → i ∈ workItems_ (wq σ)) →
    (∀ i, i ∈ workItems_ s' → completed s' i = true → completed (wq σ) i = true) →
    (∀ x, ran (wq σ) x → ran s' x) ∧
    (∀ x, x ∈ workItems_ s' → completed s' x = true →
          ran s' x ∨ (x ∈ workItems_ (wq σ) ∧ completed (wq σ) x = true))) as Hsame.
  { intros s' He Hl Hc. unfold ran. rewrite He. split; [done|]. intros x Hx Hcx.
    right. split; [by apply Hl|by apply Hc]. }
  unfold call_step. destruct (main σ) eqn:Hmain; try done.
  destruct c as [n| |item|item|items| | |p|usec| |y w].
  - unfold CreateThreads. destruct (has_threads (wq σ)).
    { intros [= <-]. by apply Hsame. }
    unfold Pause. destruct (paused_ (wq σ)).
    + simpl. intros [= <-]. by apply Hsame.
    + unfold Pause_acquire, Pause_request, lock. simpl.
      destruct (queueMutex_ (wq σ)); [done|]. simpl. intros [= <-]. by apply Hsame.
  - intros [= <-]. cbn [wq]. unfold GetFreeItem.
    destruct (poolItems_ (wq σ)); cbn [snd]; [|by apply Hsame].
    apply Hsame; try done. simpl. intros i Hi.
    unfold completed, deref. simpl. rewrite lookup_total_insert_ne; [done|].
    intros <-. apply (is_fresh (dom (heap (wq σ)))). by apply Halloc.
  - destruct (allocated (wq σ) item); [|done].
    destruct (AddWorkItem item (wq σ)) as [s'| |] eqn:Ha; [|done..].
    intros [= <-]. cbn [wq]. destruct item as [y|]; [|injection Ha as <-; by apply Hsame].
    pose proof (AddWorkItem_Ret y _ _ Ha) as (_ & Hl & _ & Hh & _ & _ & He & _).
    unfold ran. rewrite He. split; [done|]. intros x Hx Hcx. right.
    unfold completed, deref in Hcx. rewrite Hh in Hcx.
    destruct (decide (x = y)) as [->|Hne].
    + by rewrite lookup_total_insert_eq in Hcx.
    + rewrite lookup_total_insert_ne in Hcx by done. split; [|done].
      rewrite Hl in Hx. apply elem_of_app in Hx as [?|Hx]; [done|].
      by apply list_elem_of_singleton in Hx.
  - destruct item as [y|]; simpl.
    + destruct (lock_guard (remove_found y) (wq σ)) as [[b s']| |] eqn:Hr; [|done..].
      intros [= <-]. cbn [wq snd].
      apply lock_guard_body in Hr as (s2 & Hr & ->).
      apply remove_found_completed in Hr as (Hl & Hc & He).
      apply Hsame; [done|done|]. intros i _ Hi. by apply Hc in Hi.
    + intros [= <-]. by apply Hsame.
  - unfold RemoveWorkItems.
    destruct (lock_guard _ (wq σ)) as [[b s']| |] eqn:Hr; [|done..].
    intros [= <-]. cbn [wq snd].
    apply lock_guard_body in Hr as (s2 & Hr & ->).
    apply RemoveWorkItems_loop_completed in Hr as (Hl & Hc & He).
    apply Hsame; [done|done|]. intros i _ Hi. by apply Hc in Hi.
  - destruct (paused_ (wq σ)); intros [= <-]; by apply Hsame.
  - intros [= <-]. cbn [wq]. unfold Resume. destruct (paused_ (wq σ)); by apply Hsame.
  - destruct (has_threads (wq σ)) eqn:Ht.
    + intros [= <-]. cbn [wq]. unfold Resume.
      change (paused_ (set_completing true (wq σ))) with (paused_ (wq σ)).
      destruct (paused_ (wq σ)); by apply Hsame.
    + rewrite Complete_no_threads by done. intros [= <-]. cbn [wq].
      pose (s0 := set_completing true (wq σ)).
      change (Complete_loop p (queue_ (wq σ)) (set_completing true (wq σ)))
        with (Complete_loop p (queue_ s0) s0).
      destruct (PurgeCompleted_completed p (Complete_loop p (queue_ s0) s0))
        as (Hl & Hc & He).
      apply (drained_completed (complete_turns (priority s0) p (queue_ s0)) s0
               (Complete_loop p (queue_ s0) s0)); try done.
      rewrite Complete_loop_eq.
      destruct (complete_turns (priority s0) p (queue_ s0)); [|done].
      by rewrite take_0, drop_0, set_queue_id.
  - intros [= <-]. cbn [wq].
    destruct (HandleBeginFrame_completed usec (wq σ)) as (Hl & Hc & He).
    destruct (has_threads (wq σ)) eqn:Ht.
    + unfold HandleBeginFrame_work in *. rewrite Ht in *.
      apply Hsame; [done|done|]. intros i _ Hi. by apply Hc in Hi.
    + destruct (HandleBeginFrame_work_spec usec (wq σ) Ht) as (n & _ & Hw).
      by apply (drained_completed n (wq σ) (HandleBeginFrame_work usec (wq σ))
                  (HandleBeginFrame usec (wq σ))).
  - intros [= <-]. cbn [wq]. unfold Resume.
    change (paused_ (set_shutDown true (wq σ))) with (paused_ (wq σ)).
    destruct (paused_ (wq σ)); by apply Hsame.
  - destruct (bool_decide _) eqn:Hb; [|done]. intros [= <-].
    apply bool_decide_eq_true in Hb as [_ Hnl].
    apply Hsame; try done. simpl. intros i Hi.
    unfold completed, deref. simpl. rewrite lookup_total_insert_ne; [done|].
    by intros <-.
Qed.

Lemma exec_update σ s' m' :
  exec_inv σ →
  (∀ x, ran (wq σ) x → ran s' x) →
  (∀ x, x ∈ workItems_ s' → completed s' x = true →
        ran s' x ∨ (x ∈ workItems_ (wq σ) ∧ completed (wq σ) x = true)) →
  (∀ k w x, threads s' !! k = Some w → pc w = WMark x →
            ran s' x ∨ ∃ w0, threads (wq σ) !! k = Some w0 ∧ pc w0 = WMark x) →
  (∀ p x, m' = MComplete_mark p x → ran s' x ∨ main σ = MComplete_mark p x) →
  exec_inv (mkSystem s' m').
Proof.
  intros (Hc & Hw & Hm) Hmono Hc' Hw' Hm'. split_and!; simpl.
  - intros x Hx Hcx. destruct (Hc' x Hx Hcx) as [?|[? ?]]; [done|]. by apply Hmono, Hc.
  - intros k w x Hk Hpc. destruct (Hw' k w x Hk Hpc) as [?|(w0 & Hk0 & Hpc0)]; [done|].
    apply Hmono. by apply (Hw k w0).
  - intros p x Hp. destruct (Hm' p x Hp) as [?|?]; [done|]. apply Hmono. by apply (Hm p).
Qed.

Lemma ran_call_workFunction x i s y :
  ran (call_workFunction x i s) y ↔ ran s y ∨ y = x.
Proof.
  unfold ran, call_workFunction. simpl. rewrite fmap_app, elem_of_app. simpl.
  by rewrite list_elem_of_singleton.
Qed.

Ltac exec_same :=
  intros [= <-];
  match goal with H : exec_inv ?σ0 |- _ => apply (exec_update σ0) end; try done;
  first [ intros ? ? ? ? ?; right; by eexists
        | intros ? ? ?; right; by split
        | intros ? ? ?; first [done | by right] ].

Lemma exec_main σ σ' : exec_inv σ → main_step σ = Some σ' → exec_inv σ'.
Proof.
  intros Hinv. pose proof Hinv as (Hc & Hw & Hm).
  unfold main_step, Pause_acquire, lock.
  destruct (main σ) as [| |p|p|p y|p y|p|p|p|] eqn:Hmain; try done.
  - destruct (queueMutex_ (wq σ)); [done|]. simpl. exec_same.
  - destruct (queue_ (wq σ)); [exec_same|].
    destruct (queueMutex_ (wq σ)); [done|]. simpl. exec_same.
  - destruct (queue_ (wq σ)) as [|y rest]; [exec_same|].
    destruct (p <=? priority (wq σ) y); exec_same.
  - intros [= <-]. apply (exec_update σ); try done.
    + intros x Hx. apply ran_call_workFunction. by left.
    + intros x Hx Hcx. right. by split.
    + intros k w x Hk Hpc. right. by eexists.
    + intros q x [= <- <-]. left. apply ran_call_workFunction. by right.
  - intros [= <-]. apply (exec_update σ); try done.
    + intros x Hx Hcx. rewrite completed_write_completed in Hcx.
      destruct (decide (y = x)) as [<-|Hne]; [left; by apply (Hm p)|right; by split].
    + intros k w x Hk Hpc. right. by eexists.
  - destruct (IsCompleted p (wq σ)); [|by intros [= <-]].
    destruct (queue_ (wq σ)); [|exec_same].
    destruct (paused_ (wq σ)); exec_same.
  - destruct (queueMutex_ (wq σ)); [done|]. simpl. exec_same.
  - intros [= <-].
    destruct (PurgeCompleted_completed p (wq σ)) as (Hl' & Hc' & He').
    destruct (PurgeCompleted_fields p (wq σ)) as (_ & _ & Hth & _).
    apply (exec_update σ); try done.
    + intros x. unfold ran. simpl. by rewrite He'.
    + intros x Hx Hcx. right. simpl in *. split; [by apply Hl'|by apply Hc'].
    + intros k w x Hk Hpc. right. simpl in Hk. rewrite Hth in Hk. by eexists.
Qed.

Lemma exec_worker k σ s' :
  exec_inv σ → ProcessItems_step k (wq σ) = Some s' → exec_inv (mkSystem s' (main σ)).
Proof.
  intros Hinv. pose proof Hinv as (Hc & Hw & Hm).
  unfold ProcessItems_step. destruct (threads (wq σ) !! k) as [w|] eqn:Hk; [|done].
  assert (∀ w' s1 j w1 x,
    threads (set_worker k w' s1) !! j = Some w1 → pc w1 = WMark x →
    threads s1 = threads (wq σ) → (∀ y, pc w' ≠ WMark y) →
    ∃ w0, threads (wq σ) !! j = Some w0 ∧ pc w0 = WMark x) as Hother.
  { intros w' s1 j w1 x Hj Hpc Hth Hnm. simpl in Hj. rewrite Hth in Hj.
    destruct (decide (j = k)) as [->|Hne].
    - rewrite list_lookup_insert_eq in Hj by (by eapply lookup_lt_Some).
      injection Hj as <-. by destruct (Hnm x).
    - rewrite list_lookup_insert_ne in Hj by done. by exists w1. }
  assert (∀ w' s1,
    executed s1 = executed (wq σ) → heap s1 = heap (wq σ) →
    workItems_ s1 = workItems_ (wq σ) → threads s1 = threads (wq σ) →
    (∀ y, pc w' ≠ WMark y) →
    exec_inv (mkSystem (set_worker k w' s1) (main σ))) as Hsame.
  { intros w' s1 He Hh Hl Hth Hnm. apply (exec_update σ); try done.
    - intros x. unfold ran. simpl. by rewrite He.
    - intros x Hx Hcx. right. simpl in Hx. rewrite Hl in Hx. split; [done|].
      unfold completed, deref in *. simpl in Hcx. by rewrite Hh in Hcx.
    - intros j w1 x Hj Hp1. right. by eapply Hother.
    - intros p x Hp. by right. }
  destruct (pc w) as [| |y|y|] eqn:Hpc; [| | | |done].
  - destruct (shutDown_ (wq σ)); [intros [= <-]; by apply Hsame|].
    destruct (pausing_ (wq σ) && negb (wasActive w)); [intros [= <-]; by destruct σ|].
    unfold lock. destruct (queueMutex_ (wq σ)); [done|]. intros [= <-]. by apply Hsame.
  - destruct (queue_ (wq σ)) as [|y rest]; intros [= <-]; by apply Hsame.
  - intros [= <-]. apply (exec_update σ).
    + done.
    + intros x Hx. apply ran_call_workFunction. by left.
    + intros x Hx Hcx. right. by split.
    + intros j w1 x Hj Hp1. simpl in Hj.
      destruct (decide (j = k)) as [->|Hne].
      * rewrite list_lookup_insert_eq in Hj by (by eapply lookup_lt_Some).
        injection Hj as <-. simpl in Hp1. injection Hp1 as <-.
        left. apply ran_call_workFunction. by right.
      * rewrite list_lookup_insert_ne in Hj by done. right. by exists w1.
    + intros q x Hq. by right.
  - intros [= <-]. apply (exec_update σ).
    + done.
    + done.
    + intros x Hx Hcx.
      change (completed (write_completed y true (wq σ)) x = true) in Hcx.
      rewrite completed_write_completed in Hcx.
      destruct (decide (y = x)) as [<-|Hne]; [left; by apply (Hw k w)|right; by split].
    + intros j w1 x Hj Hp1. right. by eapply Hother.
    + intros q x Hq. by right.
Qed.

Lemma exec_step a σ σ' :
  sys_inv σ → flags_inv σ → exec_inv σ → step a σ = Some σ' → exec_inv σ'.
Proof.
  intros Hsys (Hpa & Hsd & _) Hinv Hstep. destruct a as [c| |k]; simpl in Hstep.
  - pose proof (call_step_main c σ σ' Hstep) as [Hm Hm'].
    assert (pausing_ (wq σ) = false) as Hpa0.
    { destruct (pausing_ (wq σ)); [|done]. destruct (Hpa eq_refl) as [?|[? ?]]; congruence. }
    assert (shutDown_ (wq σ) = false) as Hsd0.
    { destruct (shutDown_ (wq σ)); [|done]. pose proof (proj1 Hsd eq_refl). congruence. }
    destruct (call_step_flags c σ σ' Hstep Hpa0 Hsd0) as (_ & _ & Ht').
    destruct (call_step_completed c σ σ' Hsys Hstep) as (Hmono & Hc').
    destruct σ' as [s' m']. simpl in *. apply (exec_update σ); try done.
    + intros k w x Hk Hpc. destruct Ht' as [Hth|Hidle].
      * right. rewrite Hth in Hk. by exists w.
      * rewrite (Hidle k w Hk) in Hpc. done.
    + intros p x ->. destruct Hm' as [?|[?|[[? ?]|?]]]; done.
  - by apply (exec_main σ).
  - destruct (ProcessItems_step k (wq σ)) as [s'|] eqn:Hs; [|done].
    injection Hstep as <-. by apply (exec_worker k).
Qed.

Lemma exec_run tr : ∀ σ σ',
  sys_inv σ → flags_inv σ → exec_inv σ → run tr σ = Some σ' → exec_inv σ'.
Proof.
  induction tr as [|a tr IH]; intros σ σ' Hsys Hfl Hinv; simpl.
  - by intros [= <-].
  - destruct (step a σ) as [σ1|] eqn:Hstep; [|done].
    apply IH; [by eapply sys_inv_step|by eapply flags_step|by eapply exec_step].
Qed.

Lemma exec_reachable σ : reachable σ → exec_inv σ.
Proof.
  intros (h & tr & Hrun).
  eapply exec_run; [apply sys_inv_initial| | |done]; [by split_and!|].
  split_and!; simpl; [by intros x ?%elem_of_nil|done|done].
Qed.

(** X19. In every state the system can reach, a live item that is flagged
    completed has had its work function called: [completed_] is cleared by
    the submission and set again only by the thread that has called the work
    function, after the call. Taken with the count of executions: an item
    that was submitted once and is live and flagged completed has run
    exactly once. *)
Theorem completed_items_have_run h tr σ x :
  run tr (initial h) = Some σ →
  x ∈ workItems_ (wq σ) → completed (wq σ) x = true →
  (∃ i, (x, i) ∈ executed (wq σ)) ∧
  (1 ≤ executions x (wq σ))%nat ∧
  (submissions x tr = 1%nat → executions x (wq σ) = 1%nat).
Proof.
  intros Hrun Hx Hc.
  assert (reachable σ) as Hreach by (by exists h, tr).
  destruct (exec_reachable σ Hreach) as (Hran & _).
  specialize (Hran x Hx Hc). unfold ran in Hran.
  assert (1 ≤ executions x (wq σ))%nat as Hone.
  { unfold executions. clear -Hran.
    induction Hran as [l|y l Hin IH]; rewrite occurrences_cons.
    - rewrite decide_True by done. lia.
    - lia. }
  split_and!; [|done|].
  - apply list_elem_of_fmap in Hran as ([y i] & -> & Hin). by exists i.
  - intros H1. pose proof (owed_run x tr _ _ Hrun) as Hle.
    change (owed x (initial h)) with 0%nat in Hle. unfold owed in Hle. lia.
Qed.

Lemma completed_items_have_run_witness :
  ∃ σ',
    run (example_trace_barrier ++
         [AWorker 0; AWorker 0; AWorker 0; AWorker 0])
      (initial (items_with_priorities [5; 1; 5; 3])) = Some σ' ∧
    workItems_ (wq σ') = [0; 1; 2; 3]%nat ∧ completed (wq σ') 1 = true ∧
    executions 1 (wq σ') = 1%nat.
Proof.
  assert (∃ σ',
            run (example_trace_barrier ++ [AWorker 0; AWorker 0; AWorker 0; AWorker 0])
              (initial (items_with_priorities [5; 1; 5; 3])) = Some σ')
    as (σ' & Hrun) by (eexists; vm_compute; reflexivity).
  assert (workItems_ ∘ wq <$>
            run (example_trace_barrier ++ [AWorker 0; AWorker 0; AWorker 0; AWorker 0])
              (initial (items_with_priorities [5; 1; 5; 3]))
          = Some [0; 1; 2; 3]%nat) as Hl by (vm_compute; reflexivity).
  assert ((λ σ, completed (wq σ) 1) <$>
            run (example_trace_barrier ++ [AWorker 0; AWorker 0; AWorker 0; AWorker 0])
              (initial (items_with_priorities [5; 1; 5; 3]))
          = Some true) as Hc by (vm_compute; reflexivity).
  rewrite Hrun in Hl, Hc. simpl in Hl, Hc. injection Hl as Hl. injection Hc as Hc.
  exists σ'. split_and!; [done|done|done|].
  destruct (completed_items_have_run _ _ _ 1%nat Hrun) as (_ & _ & Hone); [|done|].
  - rewrite Hl. apply (bool_decide_unpack _). vm_compute. reflexivity.
  - apply Hone. vm_compute. reflexivity.
Defined.

(** ** Submitting and taking back *)





(** ** What a purge leaves *)

(** X21. After [PurgeCompleted(p)] no live item is both flagged completed and of
    priority at least [p]. So when a call of [Complete(p)] returns, in any
    run, every live item has priority below [p]: the items at or above the
    threshold have all run and have left the live list. After the frame
    hook, which purges down to priority 0, no live item of a priority an
    [unsigned] can hold is flagged completed. *)
Theorem Complete_purges_down_to_threshold :
  (∀ p s i,
     NoDup (workItems_ s) → i ∈ workItems_ (PurgeCompleted p s) →
     ¬ (completed (PurgeCompleted p s) i = true ∧ p ≤ priority (PurgeCompleted p s) i)) ∧
  (∀ σ a σ' p,
     reachable σ → Complete_returns p a σ σ' →
     ∀ i, i ∈ workItems_ (wq σ') → priority (wq σ') i < p) ∧
  (∀ usec s i,
     NoDup (workItems_ s) → i ∈ workItems_ (HandleBeginFrame usec s) →
     0 ≤ priority (HandleBeginFrame usec s) i →
     completed (HandleBeginFrame usec s) i = false).
Proof.
  assert (∀ p s i,
     NoDup (workItems_ s) → i ∈ workItems_ (PurgeCompleted p s) →
     ¬ (completed (PurgeCompleted p s) i = true ∧ p ≤ priority (PurgeCompleted p s) i))
    as Hpurge.
  { intros p s i Hnd. rewrite PurgeCompleted_eq by done.
    change (workItems_ (set_workItems ?w ?t)) with w.
    intros [Hnp Hi]%list_elem_of_filter [Hc Hle].
    unfold completed, priority in Hc, Hle.
    change (deref (set_workItems ?w ?t) i) with (deref t i) in Hc, Hle.
    rewrite deref_purge_result in Hc, Hle.
    destruct (decide (i ∈ filter (purgeable p s) (workItems_ s))) as [Hin|_].
    - by apply list_elem_of_filter in Hin as [? _].
    - by apply Hnp. }
  split_and!; [exact Hpurge| |].
  - intros σ a σ' p Hreach [Hstep Hret].
    pose proof (sys_inv_reachable σ Hreach) as [Hwq Hmx Hbar].
    destruct Hret as [(-> & Hm & Hm')|[-> Hm]].
    + revert Hstep. simpl. unfold call_step. rewrite Hm.
      destruct (has_threads (wq σ)) eqn:Ht; [intros [= <-]; done|].
      rewrite Complete_no_threads by done. simpl. intros [= <-]. cbn [wq].
      rewrite in_flight_no_threads in Hwq by done.
      change (∀ i, i ∈ workItems_ (PurgeCompleted p
                       (Complete_loop p (queue_ (wq σ)) (set_completing true (wq σ)))) →
                   priority (PurgeCompleted p
                       (Complete_loop p (queue_ (wq σ)) (set_completing true (wq σ)))) i < p).
      eapply proj2, PurgeCompleted_barrier.
      * destruct (Complete_loop_fields p (set_completing true (wq σ)))
          as (_ & _ & _ & Hl). simpl in Hl. rewrite Hl. by destruct Hwq.
      * apply (Complete_loop_barrier p (set_completing true (wq σ))).
        eapply wq_inv_ext; [| | |exact Hwq]; done.
    + revert Hstep. simpl. unfold main_step. rewrite Hm. intros [= <-]. cbn [wq].
      change (∀ i, i ∈ workItems_ (PurgeCompleted p (wq σ)) →
                   priority (PurgeCompleted p (wq σ)) i < p).
      eapply proj2, PurgeCompleted_barrier; [by destruct Hwq|].
      apply Hbar. by right.
  - intros usec s i Hnd Hi Hle.
    set (W := HandleBeginFrame_work usec s).
    assert (NoDup (workItems_ W)) as HndW.
    { unfold W, HandleBeginFrame_work. destruct (has_threads s); [done|].
      rewrite HandleBeginFrame_loop_eq. simpl.
      destruct (frame_turns _ _ _ _); [done|].
      by destruct (run_items_fields (take (S n) (queue_ s)) 0
                     (set_queue (drop (S n) (queue_ s)) s)) as (_ & -> & _). }
    destruct (completed (HandleBeginFrame usec s) i) eqn:Hc; [|done].
    destruct (Hpurge 0 W i HndW Hi). by split.
Qed.

Lemma Complete_purges_down_to_threshold_witness :
  ∃ σ',
    Complete_returns 3 AMain example_barrier σ' ∧
    workItems_ (wq σ') = [1%nat] ∧ priority (wq σ') 1 < 3.
Proof.
  assert (∃ σ', step AMain example_barrier = Some σ') as [σ' Hstep]
    by (eexists; vm_compute; reflexivity).
  assert (Complete_returns 3 AMain example_barrier σ') as Hret.
  { split; [done|]. right. split; [done|]. vm_compute. reflexivity. }
  assert (workItems_ ∘ wq <$> step AMain example_barrier = Some [1%nat]) as Hl
    by (vm_compute; reflexivity).
  rewrite Hstep in Hl. injection Hl as Hl.
  exists σ'. split_and!; [done|done|].
  apply (proj1 (proj2 Complete_purges_down_to_threshold) example_barrier AMain σ' 3
           example_barrier_reachable Hret).
  change (1%nat ∈ workItems_ (wq σ')). rewrite Hl. by left.
Defined.

(** ** The thread index a work function is called with *)

Lemma call_step_log c σ σ' :
  call_step c σ = Some σ' →
  ∃ l, executed (wq σ') = executed (wq σ) ++ ((λ x, (x, 0%nat)) <$> l).
Proof.
  unfold call_step. destruct (main σ); try done.
  assert (∀ s', executed s' = executed (wq σ) →
                ∃ l, executed s' = executed (wq σ) ++ ((λ x, (x, 0%nat)) <$> l)) as Hsame.
  { intros s' ->. exists []. by rewrite app_nil_r. }
  destruct c as [n| |item|item|items| | |p|usec| |y w].
  - unfold CreateThreads. destruct (has_threads (wq σ)); [intros [= <-]; by apply Hsame|].
    unfold Pause. destruct (paused_ (wq σ)).
    + simpl. intros [= <-]. by apply Hsame.
    + unfold Pause_acquire, Pause_request, lock. simpl.
      destruct (queueMutex_ (wq σ)); [done|]. simpl. intros [= <-]. by apply Hsame.
  - intros [= <-]. cbn [wq]. unfold GetFreeItem.
    destruct (poolItems_ (wq σ)); by apply Hsame.
  - destruct (allocated (wq σ) item); [|done].
    destruct (AddWorkItem item (wq σ)) as [s'| |] eqn:Ha; [|done..].
    intros [= <-]. cbn [wq]. apply Hsame. destruct item as [y|].
    + by apply AddWorkItem_Ret in Ha as (_ & _ & _ & _ & _ & _ & -> & _).
    + by injection Ha as <-.
  - destruct item as [y|]; simpl.
    + destruct (lock_guard (remove_found y) (wq σ)) as [[b s']| |] eqn:Hr; [|done..].
      intros [= <-]. cbn [wq snd]. apply Hsame.
      apply lock_guard_body in Hr as (s2 & Hr & ->).
      apply remove_found_fields in Hr as (_ & _ & _ & _ & _ & He & _).
      simpl. by rewrite He.
    + intros [= <-]. by apply Hsame.
  - unfold RemoveWorkItems.
    destruct (lock_guard _ (wq σ)) as [[b s']| |] eqn:Hr; [|done..].
    intros [= <-]. cbn [wq snd]. apply Hsame.
    apply lock_guard_body in Hr as (s2 & Hr & ->).
    apply RemoveWorkItems_loop_fields in Hr as (_ & _ & _ & _ & _ & He & _).
    simpl. by rewrite He.
  - destruct (paused_ (wq σ)); intros [= <-]; by apply Hsame.
  - intros [= <-]. cbn [wq]. apply Hsame. unfold Resume. by destruct (paused_ (wq σ)).
  - destruct (has_threads (wq σ)) eqn:Ht.
    + intros [= <-]. cbn [wq]. apply Hsame. unfold Resume. simpl.
      by destruct (paused_ (wq σ)).
    + destruct (Complete_no_threads_log p (wq σ) Ht) as (n & s' & -> & _ & _ & He).
      intros [= <-]. by eexists.
  - intros [= <-]. destruct (HandleBeginFrame_log usec (wq σ)) as (n & _ & _ & He).
    by eexists.
  - intros [= <-]. cbn [wq]. apply Hsame. unfold Resume. simpl.
    by destruct (paused_ (wq σ)).
  - destruct (bool_decide _); [|done]. intros [= <-]. by apply Hsame.
Qed.

Lemma main_step_log σ σ' :
  main_step σ = Some σ' →
  executed (wq σ') = executed (wq σ) ∨
  ∃ y, executed (wq σ') = executed (wq σ) ++ [(y, 0%nat)].
Proof.
  unfold main_step, Pause_acquire, lock.
  destruct (main σ) as [| |p|p|p y|p y|p|p|p|]; try done.
  - destruct (queueMutex_ (wq σ)); [done|]. intros [= <-]. by left.
  - destruct (queue_ (wq σ)); [intros [= <-]; by left|].
    destruct (queueMutex_ (wq σ)); [done|]. intros [= <-]. by left.
  - destruct (queue_ (wq σ)) as [|y rest]; [intros [= <-]; by left|].
    destruct (p <=? priority (wq σ) y); intros [= <-]; by left.
  - intros [= <-]. right. by exists y.
  - intros [= <-]. by left.
  - destruct (IsCompleted p (wq σ)); [|intros [= <-]; by left].
    destruct (queue_ (wq σ)); [|intros [= <-]; by left].
    destruct (paused_ (wq σ)); intros [= <-]; by left.
  - destruct (queueMutex_ (wq σ)); [done|]. intros [= <-]. by left.
  - intros [= <-]. left. simpl.
    by destruct (PurgeCompleted_fields p (wq σ)) as (_ & -> & _).
Qed.

Lemma worker_step_log k s s' :
  ProcessItems_step k s = Some s' →
  executed s' = executed s ∨
  ∃ w y, threads s !! k = Some w ∧ executed s' = executed s ++ [(y, index_ w)].
Proof.
  unfold ProcessItems_step. destruct (threads s !! k) as [w|] eqn:Hk; [|done].
  destruct (pc w) as [| |y|y|]; [| | | |done].
  - destruct (shutDown_ s); [intros [= <-]; by left|].
    destruct (pausing_ s && negb (wasActive w)); [intros [= <-]; by left|].
    unfold lock. destruct (queueMutex_ s); [done|]. intros [= <-]. by left.
  - destruct (queue_ s); intros [= <-]; by left.
  - intros [= <-]. right. by exists w, y.
  - intros [= <-]. by left.
Qed.

Lemma log_step a σ σ' : log_inv σ → step a σ = Some σ' → log_inv σ'.
Proof.
  intros Hinv Hstep x i Hin. destruct a as [c| |k]; simpl in Hstep.
  - destruct (call_step_log c σ σ' Hstep) as (l & He). rewrite He in Hin.
    apply elem_of_app in Hin as [Hin|Hin].
    + destruct (Hinv x i Hin) as [?|(k & w & Hk & Hi)]; [by left|]. right.
      apply call_step_threads in Hstep as [[-> _]|(n & _ & Ht & _)]; [by exists k, w|].
      apply has_threads_nil in Ht. by rewrite Ht in Hk.
    + apply list_elem_of_fmap in Hin as (y & [= _ ->] & _). by left.
  - pose proof (main_step_threads σ σ' Hstep) as [Hth _]. rewrite Hth.
    destruct (main_step_log σ σ' Hstep) as [He|[y He]]; rewrite He in Hin.
    + by apply (Hinv x i).
    + apply elem_of_app in Hin as [Hin|Hin]; [by apply (Hinv x i)|].
      apply list_elem_of_singleton in Hin as [= _ ->]. by left.
  - destruct (ProcessItems_step k (wq σ)) as [s'|] eqn:Hs; [|done].
    injection Hstep as <-. simpl in *.
    assert (∀ j, (∃ k0 w0, threads (wq σ) !! k0 = Some w0 ∧ index_ w0 = j) →
                 ∃ k0 w0, threads s' !! k0 = Some w0 ∧ index_ w0 = j) as Hkeep.
    { intros j (k0 & w0 & Hk0 & Hi).
      destruct (worker_step_threads k _ _ Hs) as [_ [[-> _]|(w & w' & Hk & -> & Hi' & _)]];
        [by exists k0, w0|].
      destruct (decide (k0 = k)) as [->|Hne].
      - exists k, w'. rewrite list_lookup_insert_eq by (by eapply lookup_lt_Some).
        split; [done|]. congruence.
      - exists k0, w0. by rewrite list_lookup_insert_ne. }
    destruct (worker_step_log k _ _ Hs) as [He|(w & y & Hk & He)]; rewrite He in Hin.
    + destruct (Hinv x i Hin) as [?|?]; [by left|right; by apply Hkeep].
    + apply elem_of_app in Hin as [Hin|Hin].
      * destruct (Hinv x i Hin) as [?|?]; [by left|right; by apply Hkeep].
      * apply list_elem_of_singleton in Hin as [= _ ->]. right. apply Hkeep.
        by exists k, w.
Qed.

Lemma log_run tr : ∀ σ σ', log_inv σ → run tr σ = Some σ' → log_inv σ'.
Proof.
  induction tr as [|a tr IH]; intros σ σ' Hinv; simpl.
  - by intros [= <-].
  - destruct (step a σ) as [σ1|] eqn:Hstep; [|done].
    apply IH. by eapply log_step.
Qed.

(** X22. Every call of a work function is made with the index of the thread
    that makes it: 0 on the main thread (inside [Complete] and the frame
    hook), and [index_] on a worker. So in every state the system can
    reach, each logged call carries index 0 or the index of an existing
    worker, the k-th worker having index k + 1: the index never exceeds the
    number of worker threads. *)
Theorem work_function_thread_index σ x i :
  reachable σ → (x, i) ∈ executed (wq σ) →
  (i = 0%nat ∨
   ∃ k w, threads (wq σ) !! k = Some w ∧ index_ w = i ∧ i = S k) ∧
  (i ≤ length (threads (wq σ)))%nat.
Proof.
  intros Hreach Hin.
  pose proof (sys_inv_reachable σ Hreach) as [_ [_ _ _ _ _ _ Hidx] _].
  assert (log_inv σ) as Hlog.
  { destruct Hreach as (h & tr & Hrun). eapply log_run; [|done].
    intros y j Hy. by apply elem_of_nil in Hy. }
  destruct (Hlog x i Hin) as [->|(k & w & Hk & Hi)].
  - split; [by left|lia].
  - pose proof (Hidx k w Hk) as Hsk. pose proof (lookup_lt_Some _ _ _ Hk) as Hlt.
    split; [right; exists k, w; split_and!; [done|done|congruence]|lia].
Qed.

Lemma work_function_thread_index_witness :
  executed (wq example_barrier) = [(0, 0); (3, 0); (2, 2)]%nat ∧
  length (threads (wq example_barrier)) = 2%nat ∧
  ∃ k w, threads (wq example_barrier) !! k = Some w ∧ index_ w = 2%nat ∧ k = 1%nat.
Proof.
  assert (executed (wq example_barrier) = [(0, 0); (3, 0); (2, 2)]%nat) as He
    by (vm_compute; reflexivity).
  assert ((2, 2)%nat ∈ executed (wq example_barrier)) as Hin.
  { rewrite He. apply (bool_decide_unpack _). vm_compute. reflexivity. }
  destruct (work_function_thread_index example_barrier 2 2 example_barrier_reachable Hin)
    as [[?|(k & w & Hk & Hi & Hsk)] _]; [done|].
  split_and!; [done|vm_compute; reflexivity|].
  exists k, w. split_and!; [done|done|lia].
Defined.

(** ** Calls that take the mutex get through *)

Lemma worker_step_dom k s s' x :
  ProcessItems_step k s = Some s' → x ∈ dom (heap s) → x ∈ dom (heap s').
Proof.
  unfold ProcessItems_step. destruct (threads s !! k) as [w|]; [|done].
  destruct (pc w) as [| |y|y|]; [| | | |done].
  - destruct (shutDown_ s); [by intros [= <-]|].
    destruct (pausing_ s && negb (wasActive w)); [by intros [= <-]|].
    unfold lock. destruct (queueMutex_ s); [done|]. by intros [= <-].
  - destruct (queue_ s); by intros [= <-].
  - by intros [= <-].
  - intros [= <-] Hx. simpl. rewrite dom_insert. set_solver.
Qed.

Lemma worker_run_dom ks : ∀ σ σ' x,
  run (AWorker <$> ks) σ = Some σ' →
  x ∈ dom (heap (wq σ)) → x ∈ dom (heap (wq σ')).
Proof.
  induction ks as [|k ks IH]; intros σ σ' x; simpl; [by intros [= <-]|].
  destruct (ProcessItems_step k (wq σ)) as [s'|] eqn:Hs; [|done].
  intros Hrun Hx. apply (IH _ _ x Hrun). simpl. by eapply worker_step_dom.
Qed.

(** X23. No call of the main thread that takes [queueMutex_] is shut out for
    good by the workers: from every reachable state in which the main
    thread is free there are steps of the workers after which a submission
    of any allocated item that is not live returns, and after which, when
    the queue is not paused, [RemoveWorkItem] and [RemoveWorkItems] return
    as well, whatever their argument. *)
Theorem locking_calls_can_proceed σ :
  reachable σ → main σ = MReady →
  ∃ ks σ1,
    run (AWorker <$> ks) σ = Some σ1 ∧ main σ1 = MReady ∧
    (∀ x, x ∈ dom (heap (wq σ)) → x ∉ workItems_ (wq σ) →
          ∃ σ', step (ACall (CallAddWorkItem (Some x))) σ1 = Some σ' ∧
                main σ' = MReady ∧ x ∈ queue_ (wq σ')) ∧
    (paused_ (wq σ) = false →
     (∀ item, ∃ σ', step (ACall (CallRemoveWorkItem item)) σ1 = Some σ' ∧
                    main σ' = MReady) ∧
     (∀ items, ∃ σ', step (ACall (CallRemoveWorkItems items)) σ1 = Some σ' ∧
                     main σ' = MReady)).
Proof.
  intros Hreach Hmain. pose proof (sys_inv_reachable σ Hreach) as Hinv.
  destruct (settle_workers (length (threads (wq σ))) σ)
    as (tr1 & σ1 & Hrun1 & Hint1 & Hm1 & Hl1 & Hq1).
  rewrite Hmain in Hm1.
  destruct (ready_run_frame tr1 σ σ1 Hint1 Hrun1 Hmain) as (_ & Hli1 & Hp1 & _ & ks & ->).
  pose proof (sys_inv_run _ _ _ Hinv Hrun1) as Hinv1.
  assert (∀ j w, threads (wq σ1) !! j = Some w → quiet w) as Hquiet.
  { intros j w Hj. apply (Hq1 j w); [|done]. rewrite <-Hl1. by eapply lookup_lt_Some. }
  assert (paused_ (wq σ1) = false → queueMutex_ (wq σ1) = None) as Hfree.
  { intros Hp. apply quiet_mutex_free; try done. intros p. by rewrite Hm1. }
  exists ks, σ1. split_and!; [done|done| |].
  - intros x Hx Hnl. rewrite <-Hli1 in Hnl.
    destruct (AddWorkItem_returns x (wq σ1) Hnl) as [s' Ha].
    { destruct (paused_ (wq σ1)); [right; by left|right; right; by apply Hfree]. }
    exists (mkSystem s' MReady). split_and!; [|done|].
    + change (call_step (CallAddWorkItem (Some x)) σ1 = Some (mkSystem s' MReady)).
      unfold call_step. rewrite Hm1. unfold allocated.
      rewrite bool_decide_true by (by eapply worker_run_dom). by rewrite Ha.
    + simpl. apply AddWorkItem_Ret in Ha as (_ & _ & -> & _).
      apply elem_of_queue_insert. by left.
  - intros Hp. rewrite <-Hp1 in Hp. specialize (Hfree Hp). split.
    + intros [x|]; simpl; unfold call_step; rewrite Hm1; simpl; [|by eexists].
      unfold lock_guard, lock. rewrite Hfree. simpl.
      destruct (remove_found x _) as [b s2]. simpl. by eexists.
    + intros items. simpl. unfold call_step. rewrite Hm1.
      unfold RemoveWorkItems, lock_guard, lock. rewrite Hfree. simpl.
      destruct (RemoveWorkItems_loop items 0 _) as [n s2]. simpl. by eexists.
Qed.

Lemma locking_calls_can_proceed_witness :
  ∃ σ0 ks σ1 σ',
    run [ACall (CallCreateThreads 1); ACall (CallAddWorkItem (Some 0%nat));
         AWorker 0] (initial (items_with_priorities [5; 1; 5; 3])) = Some σ0 ∧
    queueMutex_ (wq σ0) = Some (WorkerId 1) ∧
    step (ACall (CallAddWorkItem (Some 1%nat))) σ0 = None ∧
    run (AWorker <$> ks) σ0 = Some σ1 ∧
    step (ACall (CallAddWorkItem (Some 1%nat))) σ1 = Some σ'.
Proof.
  assert (∃ σ0,
            run [ACall (CallCreateThreads 1); ACall (CallAddWorkItem (Some 0%nat));
                 AWorker 0] (initial (items_with_priorities [5; 1; 5; 3])) = Some σ0)
    as [σ0 Hrun0] by (eexists; vm_compute; reflexivity).
  assert (reachable σ0) as Hreach by (by eexists _, _).
  assert ((λ σ, (main σ, queueMutex_ (wq σ), workItems_ (wq σ),
                 bool_decide (1%nat ∈ dom (heap (wq σ))),
                 step (ACall (CallAddWorkItem (Some 1%nat))) σ)) <$>
            run [ACall (CallCreateThreads 1); ACall (CallAddWorkItem (Some 0%nat));
                 AWorker 0] (initial (items_with_priorities [5; 1; 5; 3]))
          = Some (MReady, Some (WorkerId 1), [0%nat], true, None)) as Hfacts
    by (vm_compute; reflexivity).
  rewrite Hrun0 in Hfacts. simpl in Hfacts. injection Hfacts as Hm Hmx Hl Hd Hblocked.
  destruct (locking_calls_can_proceed σ0 Hreach Hm) as (ks & σ1 & Hrun & _ & Hadd & _).
  destruct (Hadd 1%nat) as (σ' & Hstep & _).
  - by apply bool_decide_eq_true in Hd.
  - rewrite Hl. by intros [=]%list_elem_of_singleton.
  - exists σ0, ks, σ1, σ'. by split_and!.
Defined.

(** ** Completion events *)

Lemma PurgeCompleted_loop_events priority0 l : ∀ s kept s',
  PurgeCompleted_loop priority0 l s = (kept, s') →
  (∀ x, (occurrences x (events s') + occurrences x kept
         ≤ occurrences x (events s) + occurrences x l)%nat) ∧
  (∀ y, y ∈ events s' → y ∈ events s ∨ (y ∈ l ∧ completed s y = true)).
Proof.
  induction l as [|i l IH]; intros s kept s'; simpl.
  - intros [= <- <-]. split; [intros x; lia|by left].
  - destruct (completed s i && (priority0 <=? priority s i)) eqn:Hc.
    + apply andb_true_iff in Hc as [Hc _]. intros Hloop.
      apply IH in Hloop as (Hcount & Hin).
      assert (events (ReturnToPool i (if sendEvent_ (deref s i) then SendEvent i s else s))
              = if sendEvent_ (deref s i) then events s ++ [i] else events s) as Hev.
      { unfold ReturnToPool. destruct (sendEvent_ (deref s i)), (pooled_ _); done. }
      rewrite Hev in Hcount, Hin. split.
      * intros x. specialize (Hcount x). rewrite occurrences_cons.
        destruct (sendEvent_ (deref s i)).
        -- rewrite occurrences_app, occurrences_cons in Hcount.
           change (occurrences x []) with 0%nat in Hcount.
           destruct (decide (i = x)); occ_lia.
        -- destruct (decide (i = x)); occ_lia.
      * intros y Hy. destruct (Hin y Hy) as [Hev'|[Hl Hcy]].
        -- destruct (sendEvent_ (deref s i)); [|by left].
           apply elem_of_app in Hev' as [?|Hs]; [by left|].
           apply list_elem_of_singleton in Hs as ->.
           right. split; [by left|done].
        -- right. split; [by right|]. apply completed_ReturnToPool in Hcy.
           by destruct (sendEvent_ (deref s i)).
    + destruct (PurgeCompleted_loop priority0 l s) as [kept0 s0] eqn:Hloop.
      intros [= <- <-]. apply IH in Hloop as (Hcount & Hin). split.
      * intros x. specialize (Hcount x). rewrite !occurrences_cons.
        destruct (decide (i = x)); occ_lia.
      * intros y Hy. destruct (Hin y Hy) as [?|[? ?]]; [by left|].
        right. split; [by right|done].
Qed.

Lemma PurgeCompleted_events priority0 s :
  (∀ x, (occurrences x (events (PurgeCompleted priority0 s))
         + occurrences x (workItems_ (PurgeCompleted priority0 s))
         ≤ occurrences x (events s) + occurrences x (workItems_ s))%nat) ∧
  (∀ y, y ∈ events (PurgeCompleted priority0 s) →
        y ∈ events s ∨ (y ∈ workItems_ s ∧ completed s y = true)).
Proof.
  unfold PurgeCompleted.
  destruct (PurgeCompleted_loop priority0 (workItems_ s) s) as [kept s'] eqn:Hloop.
  by apply PurgeCompleted_loop_events in Hloop.
Qed.

(** The effect on the events of a step that runs a front part of the queue
    on the main thread and then purges with threshold [p]. *)
Lemma drained_events (n : nat) p s s1 :
  s1 = run_items (take n (queue_ s)) 0 (set_queue (drop n (queue_ s)) s) →
  (∀ y, y ∈ workItems_ s → completed s y = true → ran s y) →
  (∀ x, (occurrences x (events (PurgeCompleted p s1))
         + occurrences x (workItems_ (PurgeCompleted p s1))
         ≤ occurrences x (events s) + occurrences x (workItems_ s))%nat) ∧
  (∀ y, y ∈ events (PurgeCompleted p s1) →
        y ∈ events s ∨ ran (PurgeCompleted p s1) y).
Proof.
  intros -> Hexec.
  set (s1 := run_items (take n (queue_ s)) 0 (set_queue (drop n (queue_ s)) s)).
  destruct (run_items_fields (take n (queue_ s)) 0 (set_queue (drop n (queue_ s)) s))
    as (_ & Hl & _ & _ & _ & _ & _ & _ & _ & Hev & _).
  fold s1 in Hl, Hev. simpl in Hl, Hev.
  destruct (PurgeCompleted_events p s1) as (Hcount & Hin).
  rewrite Hl, Hev in Hcount. rewrite Hl, Hev in Hin.
  split; [done|]. intros y Hy. destruct (Hin y Hy) as [?|[Hly Hcy]]; [by left|right].
  unfold ran. destruct (PurgeCompleted_fields p s1) as (_ & -> & _).
  apply (ran_run_items _ _ (set_queue (drop n (queue_ s)) s) y).
  apply completed_run_items in Hcy as [?|Hcy]; [by right|left].
  by apply Hexec.
Qed.

Lemma remove_found_live x y s b s' :
  remove_found y s = (b, s') →
  (occurrences x (workItems_ s') ≤ occurrences x (workItems_ s))%nat.
Proof.
  unfold remove_found. destruct (decide (y ∈ queue_ s)); [|by intros [= _ <-]].
  destruct (decide (y ∈ workItems_ s)); [|by intros [= _ <-]].
  intros [= _ <-]. simpl. apply occurrences_erase.
Qed.

Lemma RemoveWorkItems_loop_live x items : ∀ removed s n s',
  RemoveWorkItems_loop items removed s = (n, s') →
  (occurrences x (workItems_ s') ≤ occurrences x (workItems_ s))%nat.
Proof.
  induction items as [|[y|] items IH]; intros removed s n s'; simpl.
  - by intros [= _ <-].
  - destruct (remove_found y s) as [b s1] eqn:Hr. intros Hloop.
    apply IH in Hloop. apply (remove_found_live x) in Hr. lia.
  - apply IH.
Qed.

Lemma call_step_events c σ σ' :
  exec_inv σ → call_step c σ = Some σ' →
  (∀ x, (occurrences x (events (wq σ')) + occurrences x (workItems_ (wq σ'))
         ≤ occurrences x (events (wq σ)) + occurrences x (workItems_ (wq σ))
           + (if is_submission x (ACall c) then 1 else 0))%nat) ∧
  (∀ y, y ∈ events (wq σ') → y ∈ events (wq σ) ∨ ran (wq σ') y).
Proof.
  intros (Hexec & _ & _).
  assert (∀ s' (f : nat → nat),
    events s' = events (wq σ) →
    (∀ x, (occurrences x (workItems_ s') ≤ occurrences x (workItems_ (wq σ)))%nat) →
    (∀ x, (occurrences x (events s') + occurrences x (workItems_ s')
           ≤ occurrences x (events (wq σ)) + occurrences x (workItems_ (wq σ))
             + f x)%nat) ∧
    (∀ y, y ∈ events s' → y ∈ events (wq σ) ∨ ran s' y)) as Hsame.
  { intros s' f He Hl. rewrite He. split; [|by left].
    intros x. specialize (Hl x). lia. }
  unfold call_step. destruct (main σ); try done.
  destruct c as [n| |item|item|items| | |p|usec| |y w].
  - unfold CreateThreads. destruct (has_threads (wq σ)); [intros [= <-]; by apply Hsame|].
    unfold Pause. destruct (paused_ (wq σ)).
    + simpl. intros [= <-]. by apply Hsame.
    + unfold Pause_acquire, Pause_request, lock. simpl.
      destruct (queueMutex_ (wq σ)); [done|]. simpl. intros [= <-]. by apply Hsame.
  - intros [= <-]. cbn [wq]. unfold GetFreeItem.
    destruct (poolItems_ (wq σ)); by apply Hsame.
  - destruct (allocated (wq σ) item); [|done].
    destruct (AddWorkItem item (wq σ)) as [s'| |] eqn:Ha; [|done..].
    intros [= <-]. cbn [wq]. destruct item as [y|]; [|injection Ha as <-; by apply Hsame].
    apply AddWorkItem_Ret in Ha as (_ & Hl & _ & _ & _ & _ & _ & Hev & _).
    rewrite Hl, Hev. split; [|by left]. intros x. simpl.
    rewrite occurrences_app, occurrences_cons. change (occurrences x []) with 0%nat.
    destruct (decide (y = x)).
    + rewrite bool_decide_true by done. lia.
    + rewrite bool_decide_false by done. lia.
  - destruct item as [y|]; simpl.
    + destruct (lock_guard (remove_found y) (wq σ)) as [[b s']| |] eqn:Hr; [|done..].
      intros [= <-]. cbn [wq snd].
      apply lock_guard_body in Hr as (s2 & Hr & ->).
      pose proof (remove_found_fields _ _ _ _ Hr) as (_ & _ & _ & _ & _ & _ & Hev).
      apply Hsame; [done|]. intros x. simpl.
      by apply (remove_found_live x) in Hr.
    + intros [= <-]. by apply Hsame.
  - unfold RemoveWorkItems.
    destruct (lock_guard _ (wq σ)) as [[b s']| |] eqn:Hr; [|done..].
    intros [= <-]. cbn [wq snd].
    apply lock_guard_body in Hr as (s2 & Hr & ->).
    pose proof (RemoveWorkItems_loop_fields _ _ _ _ _ Hr) as (_ & _ & _ & _ & _ & _ & Hev).
    apply Hsame; [done|]. intros x. simpl.
    by apply (RemoveWorkItems_loop_live x) in Hr.
  - destruct (paused_ (wq σ)); intros [= <-]; by apply Hsame.
  - intros [= <-]. cbn [wq]. unfold Resume. destruct (paused_ (wq σ)); by apply Hsame.
  - destruct (has_threads (wq σ)) eqn:Ht.
    + intros [= <-]. cbn [wq]. unfold Resume.
      change (paused_ (set_completing true (wq σ))) with (paused_ (wq σ)).
      destruct (paused_ (wq σ)); by apply Hsame.
    + rewrite Complete_no_threads by done. intros [= <-]. cbn [wq].
      pose (s0 := set_completing true (wq σ)).
      change (Complete_loop p (queue_ (wq σ)) (set_completing true (wq σ)))
        with (Complete_loop p (queue_ s0) s0).
      destruct (drained_events (complete_turns (priority s0) p (queue_ s0)) p s0
                  (Complete_loop p (queue_ s0) s0)) as (Hcount & Hin); [|done|].
      { rewrite Complete_loop_eq.
        destruct (complete_turns (priority s0) p (queue_ s0)); [|done].
        by rewrite take_0, drop_0, set_queue_id. }
      split.
      * intros x. specialize (Hcount x). simpl in *. lia.
      * exact Hin.
  - intros [= <-]. cbn [wq].
    assert (∃ n : nat, HandleBeginFrame_work usec (wq σ)
              = run_items (take n (queue_ (wq σ))) 0
                  (set_queue (drop n (queue_ (wq σ))) (wq σ))) as [n Hw].
    { destruct (has_threads (wq σ)) eqn:Ht.
      - exists 0%nat. unfold HandleBeginFrame_work. rewrite Ht.
        by rewrite take_0, drop_0, set_queue_id.
      - destruct (HandleBeginFrame_work_spec usec (wq σ) Ht) as (n & _ & Hw). by exists n. }
    destruct (drained_events n 0 (wq σ) (HandleBeginFrame_work usec (wq σ)) Hw Hexec)
      as (Hcount & Hin).
    split.
    + intros x. specialize (Hcount x). simpl in *. lia.
    + exact Hin.
  - intros [= <-]. cbn [wq]. unfold Resume.
    change (paused_ (set_shutDown true (wq σ))) with (paused_ (wq σ)).
    destruct (paused_ (wq σ)); by apply Hsame.
  - destruct (bool_decide _); [|done]. intros [= <-]. by apply Hsame.
Qed.

Lemma main_step_events σ σ' :
  exec_inv σ → main_step σ = Some σ' →
  (∀ x, (occurrences x (events (wq σ')) + occurrences x (workItems_ (wq σ'))
         ≤ occurrences x (events (wq σ)) + occurrences x (workItems_ (wq σ)))%nat) ∧
  (∀ y, y ∈ events (wq σ') → y ∈ events (wq σ) ∨ ran (wq σ) y).
Proof.
  intros (Hexec & _ & _). unfold main_step, Pause_acquire, lock.
  destruct (main σ) as [| |p|p|p y|p y|p|p|p|]; try done.
  - destruct (queueMutex_ (wq σ)); [done|]. intros [= <-]. split; [done|by left].
  - destruct (queue_ (wq σ)); [intros [= <-]; split; [done|by left]|].
    destruct (queueMutex_ (wq σ)); [done|]. intros [= <-]. split; [done|by left].
  - destruct (queue_ (wq σ)) as [|y rest]; [intros [= <-]; split; [done|by left]|].
    destruct (p <=? priority (wq σ) y); intros [= <-]; (split; [done|by left]).
  - intros [= <-]. split; [done|by left].
  - intros [= <-]. split; [done|by left].
  - destruct (IsCompleted p (wq σ)); [|intros [= <-]; split; [done|by left]].
    destruct (queue_ (wq σ)); [|intros [= <-]; split; [done|by left]].
    destruct (paused_ (wq σ)); intros [= <-]; (split; [done|by left]).
  - destruct (queueMutex_ (wq σ)); [done|]. intros [= <-]. split; [done|by left].
  - intros [= <-]. cbn [wq].
    destruct (PurgeCompleted_events p (wq σ)) as (Hcount & Hin). split; [exact Hcount|].
    intros y Hy. destruct (Hin y Hy) as [?|[? ?]]; [by left|right; by apply Hexec].
Qed.

Lemma worker_step_events k s s' :
  ProcessItems_step k s = Some s' → events s' = events s.
Proof.
  unfold ProcessItems_step. destruct (threads s !! k) as [w|]; [|done].
  destruct (pc w) as [| |y|y|]; [| | | |done].
  - destruct (shutDown_ s); [by intros [= <-]|].
    destruct (pausing_ s && negb (wasActive w)); [by intros [= <-]|].
    unfold lock. destruct (queueMutex_ s); [done|]. by intros [= <-].
  - destruct (queue_ s); by intros [= <-].
  - by intros [= <-].
  - by intros [= <-].
Qed.

Lemma events_run tr : ∀ σ σ' x,
  sys_inv σ → flags_inv σ → exec_inv σ → event_inv σ →
  run tr σ = Some σ' →
  event_inv σ' ∧
  (occurrences x (events (wq σ')) + occurrences x (workItems_ (wq σ'))
   ≤ occurrences x (events (wq σ)) + occurrences x (workItems_ (wq σ))
     + submissions x tr)%nat.
Proof.
  induction tr as [|a tr IH]; intros σ σ' x Hsys Hfl Hexec Hev; simpl.
  - intros [= <-]. split; [done|]. unfold submissions. simpl. lia.
  - destruct (step a σ) as [σ1|] eqn:Hstep; [|done]. intros Hrun.
    pose proof (sys_inv_step _ _ _ Hsys Hstep) as Hsys1.
    pose proof (flags_step _ _ _ Hfl Hstep) as Hfl1.
    pose proof (exec_step _ _ _ Hsys Hfl Hexec Hstep) as Hexec1.
    assert (event_inv σ1 ∧
            (occurrences x (events (wq σ1)) + occurrences x (workItems_ (wq σ1))
             ≤ occurrences x (events (wq σ)) + occurrences x (workItems_ (wq σ))
               + (if is_submission x a then 1 else 0))%nat) as [Hev1 Hc1].
    { destruct a as [c| |k]; simpl in Hstep.
      - destruct (call_step_events c σ σ1 Hexec Hstep) as (Hcount & Hin).
        destruct (call_step_completed c σ σ1 Hsys Hstep) as (Hmono & _).
        split; [|apply Hcount].
        intros y Hy. destruct (Hin y Hy) as [?|?]; [|done]. by apply Hmono, Hev.
      - destruct (main_step_events σ σ1 Hexec Hstep) as (Hcount & Hin).
        split; [|specialize (Hcount x); simpl; lia].
        assert (∀ y, ran (wq σ) y → ran (wq σ1) y) as Hmono.
        { intros y. unfold ran.
          destruct (main_step_log σ σ1 Hstep) as [->|[z ->]]; [done|].
          rewrite fmap_app, elem_of_app. by left. }
        intros y Hy. apply Hmono. destruct (Hin y Hy) as [?|?]; [by apply Hev|done].
      - destruct (ProcessItems_step k (wq σ)) as [s'|] eqn:Hs; [|done].
        injection Hstep as <-. simpl.
        pose proof (worker_step_events k _ _ Hs) as He.
        pose proof (worker_step_frame k _ _ Hs) as (Hl & _).
        rewrite He, Hl. split; [|lia].
        intros y Hy. simpl in Hy. rewrite He in Hy. unfold ran. simpl.
        destruct (worker_step_log k _ _ Hs) as [->|(w & z & _ & ->)]; [by apply Hev|].
        rewrite fmap_app, elem_of_app. left. by apply Hev. }
    destruct (IH σ1 σ' x Hsys1 Hfl1 Hexec1 Hev1 Hrun) as (Hev' & Hc').
    split; [done|]. unfold submissions in *. rewrite filter_cons.
    destruct (is_submission x a).
    + rewrite decide_True by done. simpl. lia.
    + rewrite decide_False by done. lia.
Qed.

(** X24. In every run of the system the completion event of an item is sent at
    most once for each submission of the item: the events sent for it and
    its entries in the live list together never exceed the number of its
    submissions, since [PurgeCompleted] takes the item off the live list
    when it sends the event. And an event is sent only for an item whose
    work function has been called. *)
Theorem completion_event_once_per_submission h tr σ x :
  run tr (initial h) = Some σ →
  (notifications x (wq σ) + occurrences x (workItems_ (wq σ)) ≤ submissions x tr)%nat ∧
  (notifications x (wq σ) ≤ submissions x tr)%nat ∧
  (x ∈ events (wq σ) → ∃ i, (x, i) ∈ executed (wq σ)).
Proof.
  intros Hrun.
  assert (flags_inv (initial h)) as Hfl by (by split_and!).
  assert (exec_inv (initial h)) as Hexec.
  { split_and!; simpl; [by intros y ?%elem_of_nil|done|done]. }
  assert (event_inv (initial h)) as Hev0 by (by intros y ?%elem_of_nil).
  destruct (events_run tr (initial h) σ x (sys_inv_initial h) Hfl Hexec Hev0 Hrun)
    as (Hev & Hcount).
  change (occurrences x (events (wq (initial h)))) with 0%nat in Hcount.
  change (occurrences x (workItems_ (wq (initial h)))) with 0%nat in Hcount.
  unfold notifications. split_and!; [lia|lia|].
  intros Hx. specialize (Hev x Hx). unfold ran in Hev.
  apply list_elem_of_fmap in Hev as ([y i] & -> & Hin). by exists i.
Qed.

Lemma completion_event_once_per_submission_witness :
  ∃ σ',
    run [ACall (CallAddWorkItem (Some 0%nat)); ACall (CallComplete 0);
         ACall (CallAddWorkItem (Some 0%nat)); ACall (CallComplete 0)]
      (initial {[ 0%nat := mkWorkItem (Some 0%nat) None None None 5 true false false ]})
    = Some σ' ∧
    events (wq σ') = [0; 0]%nat ∧
    (notifications 0 (wq σ') ≤ 2)%nat.
Proof.
  assert (∃ σ', run [ACall (CallAddWorkItem (Some 0%nat)); ACall (CallComplete 0);
                     ACall (CallAddWorkItem (Some 0%nat)); ACall (CallComplete 0)]
                  (initial {[ 0%nat := mkWorkItem (Some 0%nat) None None None 5 true false false ]})
                = Some σ')
    as [σ' Hrun] by (eexists; vm_compute; reflexivity).
  exists σ'. split; [done|].
  assert (events ∘ wq <$>
            run [ACall (CallAddWorkItem (Some 0%nat)); ACall (CallComplete 0);
                 ACall (CallAddWorkItem (Some 0%nat)); ACall (CallComplete 0)]
              (initial {[ 0%nat := mkWorkItem (Some 0%nat) None None None 5 true false false ]})
          = Some [0; 0]%nat) as He by (vm_compute; reflexivity).
  rewrite Hrun in He. injection He as He. split; [done|].
  destruct (completion_event_once_per_submission _ _ _ 0%nat Hrun) as (_ & Hle & _).
  exact Hle.
Defined.
